(** * Shortest Path Finder: the grid model and the search of
      [src/components/pathfinder-visualizer.tsx]

    The component keeps a [Cell[][]] in React state, lets the user paint
    walls and the two end points ([handleCellClick]), and runs Dijkstra's
    algorithm over a private copy of the grid ([dijkstra]).  This file
    embeds the grid, the paint handler, the neighbour query and the search
    loop as Rocq functions, and states the properties of the specification
    over them.

    Conventions of the embedding.
    - JavaScript numbers used as coordinates are integers ([Z]); array
      indexing [a[i]] is [None] ("undefined") outside [0, length).
    - A property access on [undefined] throws: the functions that index
      arrays return a [Result], with [TypeError] for that exception.
    - [Cell] objects of the working copy [currentGrid] are shared between
      the matrix, [unvisitedNodes], [neighbors] and the [previous] links.
      A reference to such an object is the position (a [Ref]) at which the
      object sits in [currentGrid]; reads and writes go through the grid.
    - Unbounded loops carry a fuel; running out of it is the separate
      result [OutOfFuel], and the theorems show it never happens. *)

From Stdlib Require Import ZArith Lia Sorted.
From Stdlib Require Strings.String.
From stdpp Require Import base tactics option list numbers.

#[local] Set Warnings "-clear-no-such-hyp".

Local Open Scope Z_scope.

(** ** Data model *)

(** [type CellType = "empty" | "wall" | "start" | "end" | "path" | "visited" | "current"] *)
Inductive CellType : Type :=
  | TEmpty | TWall | TStart | TEnd | TPath | TVisited | TCurrent.

#[global] Instance CellType_eq_dec : EqDecision CellType.
Proof. solve_decision. Defined.

(** [distance: number]: the code only ever stores [0], a finite value plus
    one, or [Number.POSITIVE_INFINITY]. *)
Inductive Distance : Type :=
  | Finite (n : nat)
  | POSITIVE_INFINITY.

#[global] Instance Distance_eq_dec : EqDecision Distance.
Proof. solve_decision. Defined.

(** [{ row: number; col: number }], also used as the position of a shared
    [Cell] object inside [currentGrid]. *)
Abbreviation Coord := (Z * Z)%type.
Abbreviation Ref := (Z * Z)%type.

Record Cell : Type := mkCell {
  row : Z;
  col : Z;
  type : CellType;
  distance : Distance;
  previous : option Ref;
  isVisited : bool
}.

#[global] Instance Cell_eq_dec : EqDecision Cell.
Proof. solve_decision. Defined.

Abbreviation Grid := (list (list Cell)).

Definition GRID_ROWS : Z := 25.
Definition GRID_COLS : Z := 50.
#[global] Arguments GRID_ROWS : simpl never.
#[global] Arguments GRID_COLS : simpl never.

(** Results of code that can throw or loop. *)
Inductive Result (A : Type) : Type :=
  | Ok (a : A)
  | TypeError
  | OutOfFuel.
Arguments Ok {A} a.
Arguments TypeError {A}.
Arguments OutOfFuel {A}.

#[global] Instance Result_eq_dec {A} `{EqDecision A} : EqDecision (Result A).
Proof. solve_decision. Defined.

Definition bindR {A B} (r : Result A) (k : A -> Result B) : Result B :=
  match r with
  | Ok a => k a
  | TypeError => TypeError
  | OutOfFuel => OutOfFuel
  end.

#[global] Instance Result_bind : MBind Result := fun A B k r => bindR r k.
#[global] Instance Result_fmap : FMap Result := fun A B f r => bindR r (fun a => Ok (f a)).

Definition ofOption {A} (o : option A) : Result A :=
  match o with
  | Some a => Ok a
  | None => TypeError
  end.

(** *** Field writes *)

Definition with_type (t : CellType) (c : Cell) : Cell :=
  mkCell (row c) (col c) t (distance c) (previous c) (isVisited c).

Definition with_isVisited (b : bool) (c : Cell) : Cell :=
  mkCell (row c) (col c) (type c) (distance c) (previous c) b.

Definition with_relaxed (d : Distance) (p : option Ref) (c : Cell) : Cell :=
  mkCell (row c) (col c) (type c) d p (isVisited c).

(** *** Array access *)

(** [a[i]] on a JavaScript array with an integer index. *)
Definition index {A} (l : list A) (i : Z) : option A :=
  if decide (0 <= i) then l !! Z.to_nat i else None.

(** [g[r][c]], [None] when either index is out of range. *)
Definition cellAt (g : Grid) (p : Ref) : option Cell :=
  cells ← index g p.1; index cells p.2.

(** In-place update of the object at [g[r][c]]. *)
Definition updCell (f : Cell -> Cell) (p : Ref) (g : Grid) : Grid :=
  if decide (0 <= p.1 /\ 0 <= p.2)
  then alter (alter f (Z.to_nat p.2)) (Z.to_nat p.1) g
  else g.

(** [g[r][c].type = t]; throws when [g[r][c]] is undefined. *)
Definition setType (t : CellType) (p : Ref) (g : Grid) : Result Grid :=
  match cellAt g p with
  | Some _ => Ok (updCell (with_type t) p g)
  | None => TypeError
  end.

(** ** Component state *)

Inductive DrawMode : Type := ModeWall | ModeStart | ModeEnd.

#[global] Instance DrawMode_eq_dec : EqDecision DrawMode.
Proof. solve_decision. Defined.

(** A change of the displayed grid made by a run: the [setGrid] calls that
    write ["current"], ["visited"] and ["path"]. *)
Inductive RenderEvent : Type :=
  | EvCurrent (p : Coord)
  | EvVisited (p : Coord)
  | EvPath (p : Coord).

#[global] Instance RenderEvent_eq_dec : EqDecision RenderEvent.
Proof. solve_decision. Defined.

(** A call a run makes to one of the state setters: a [setGrid] with one
    of the three display updaters, [setVisitedCount], [setPathLength],
    [setIsRunning]. *)
Inductive Update : Type :=
  | Render (ev : RenderEvent)
  | SetVisitedCount (n : nat)
  | SetPathLength (n : nat)
  | SetIsRunning (b : bool).

#[global] Instance Update_eq_dec : EqDecision Update.
Proof. solve_decision. Defined.

(** What the [async] function does to the state from some point on, in
    program order.  [Await] is an [await new Promise(...)] on a timer it
    has just set: the updates up to the next [Await] are those of the
    timer's callback and of the code that resumes when the callback
    resolves the promise, before anything else can happen. *)
Inductive Action : Type :=
  | Do (u : Update)
  | Await.

#[global] Instance Action_eq_dec : EqDecision Action.
Proof. solve_decision. Defined.

(** The [useState] cells of [PathfinderVisualizer], and [pending]: for
    each timer the run in progress has still to wait for, in order, the
    updates made when it fires. *)
Record Session : Type := mkSession {
  grid : Grid;
  isRunning : bool;
  drawMode : DrawMode;
  startCell : option Coord;
  endCell : option Coord;
  pathLength : option nat;
  visitedCount : nat;
  pending : list (list Update)
}.

#[global] Instance Session_eq_dec : EqDecision Session.
Proof. solve_decision. Defined.

(** ** [initializeGrid] *)

Definition freshCell (r c : Z) : Cell :=
  mkCell r c TEmpty POSITIVE_INFINITY None false.

Definition emptyGrid : Grid :=
  (fun r => (fun c => freshCell r c) <$> seqZ 0 GRID_COLS) <$> seqZ 0 GRID_ROWS.

Definition defaultStart : Coord := (12, 10).
Definition defaultEnd : Coord := (12, 40).

Definition initializeGrid (s : Session) : Result Session :=
  g1 ← setType TStart defaultStart emptyGrid;
  g2 ← setType TEnd defaultEnd g1;
  Ok (mkSession g2 (isRunning s) (drawMode s) (Some defaultStart) (Some defaultEnd)
        None 0%nat (pending s)).

(** State before the first effect runs: [useState] initial values. *)
Definition mountState : Session :=
  mkSession [] false ModeWall None None None 0%nat [].

(** ** [handleCellClick] *)

(** "Clear previous start" / "Clear previous end". *)
Definition clearPrevious (holder : option Coord) (g : Grid) : Result Grid :=
  match holder with
  | Some p => setType TEmpty p g
  | None => Ok g
  end.

(** The updater passed to [setGrid] works on a copy of the grid and
    throws as soon as it touches a property of an undefined cell, in each
    of the three modes; when it throws, no new grid is returned and the
    state keeps the old one.  Every failure is the same [TypeError], so
    the order of the failing accesses does not show in the result. *)
Definition handleCellClick (s : Session) (r c : Z) : Result Session :=
  if isRunning s then Ok s
  else
    let newGrid := grid s in
    cell ← ofOption (cellAt newGrid (r, c));
    match drawMode s with
    | ModeStart =>
        g1 ← clearPrevious (startCell s) newGrid;
        g2 ← setType TStart (r, c) g1;
        Ok (mkSession g2 (isRunning s) (drawMode s) (Some (r, c)) (endCell s)
              (pathLength s) (visitedCount s) (pending s))
    | ModeEnd =>
        g1 ← clearPrevious (endCell s) newGrid;
        g2 ← setType TEnd (r, c) g1;
        Ok (mkSession g2 (isRunning s) (drawMode s) (startCell s) (Some (r, c))
              (pathLength s) (visitedCount s) (pending s))
    | ModeWall =>
        let g1 :=
          match type cell with
          | TEmpty => updCell (with_type TWall) (r, c) newGrid
          | TWall => updCell (with_type TEmpty) (r, c) newGrid
          | _ => newGrid
          end in
        Ok (mkSession g1 (isRunning s) (drawMode s) (startCell s) (endCell s)
              (pathLength s) (visitedCount s) (pending s))
    end.

Definition setDrawMode (m : DrawMode) (s : Session) : Session :=
  mkSession (grid s) (isRunning s) m (startCell s) (endCell s)
    (pathLength s) (visitedCount s) (pending s).

(** A click on one of the three "Draw Mode" buttons, [disabled] while a
    run is in progress. *)
Definition selectDrawMode (m : DrawMode) (s : Session) : Session :=
  if isRunning s then s else setDrawMode m s.

(** [paint(row, col, mode)] of the specification: select the mode, click
    the cell. *)
Definition paint (s : Session) (r c : Z) (m : DrawMode) : Result Session :=
  handleCellClick (selectDrawMode m s) r c.

(** ** [getNeighbors] *)

(** Up, Right, Down, Left *)
Definition directions : list (Z * Z) := [(-1, 0); (0, 1); (1, 0); (0, -1)].

Definition inBounds (p : Coord) : bool :=
  (0 <=? p.1) && (p.1 <? GRID_ROWS) && (0 <=? p.2) && (p.2 <? GRID_COLS).

(** Returns the positions of the pushed [grid[newRow][newCol]] objects. *)
Fixpoint collectNeighbors (g : Grid) (r c : Z) (ds : list (Z * Z)) : Result (list Ref) :=
  match ds with
  | [] => Ok []
  | (dRow, dCol) :: ds' =>
      let newRow := r + dRow in
      let newCol := c + dCol in
      if inBounds (newRow, newCol) then
        _ ← ofOption (cellAt g (newRow, newCol));
        rest ← collectNeighbors g r c ds';
        Ok ((newRow, newCol) :: rest)
      else collectNeighbors g r c ds'
  end.

Definition getNeighbors (cell : Cell) (g : Grid) : Result (list Ref) :=
  collectNeighbors g (row cell) (col cell) directions.

(** ** [dijkstra] *)

(** The [type] normalisation shared by the run and by [clearPath]:
    ["path" | "visited" | "current"] become ["empty"]. *)
Definition persistentType (t : CellType) : CellType :=
  match t with
  | TPath | TVisited | TCurrent => TEmpty
  | _ => t
  end.

(** "Get current grid state": the private working copy. *)
Definition workingCell (startCell : Coord) (cell : Cell) : Cell :=
  mkCell (row cell) (col cell) (persistentType (type cell))
    (if decide (row cell = startCell.1 /\ col cell = startCell.2)
     then Finite 0 else POSITIVE_INFINITY)
    None false.

Definition workingCopy (startCell : Coord) (g : Grid) : Grid :=
  (fun cells : list Cell => workingCell startCell <$> cells) <$> g.

(** "Add all non-wall cells to unvisited", row by row. *)
Fixpoint collectUnvisited (g : Grid) (ps : list Ref) : Result (list Ref) :=
  match ps with
  | [] => Ok []
  | p :: ps' =>
      cell ← ofOption (cellAt g p);
      rest ← collectUnvisited g ps';
      Ok (if decide (type cell = TWall) then rest else p :: rest)
  end.

Definition allPositions : list Ref :=
  r ← seqZ 0 GRID_ROWS; (fun c => (r, c)) <$> seqZ 0 GRID_COLS.

(** [unvisitedNodes.sort((a, b) => a.distance - b.distance)].  The
    comparator's value is a number; [Infinity - Infinity] is [NaN], which
    the sort treats as [+0].  Only its sign matters. *)
Definition compareFn (a b : Cell) : comparison :=
  match distance a, distance b with
  | Finite m, Finite n => Nat.compare m n
  | Finite _, POSITIVE_INFINITY => Lt
  | POSITIVE_INFINITY, Finite _ => Gt
  | POSITIVE_INFINITY, POSITIVE_INFINITY => Eq
  end.

(** [Array.prototype.sort] is stable, and this comparator is consistent,
    so the result is the stable ordering by [distance]: an element goes
    in front of the first one that does not compare smaller. *)
Fixpoint insertNode (x : Ref * Cell) (l : list (Ref * Cell)) : list (Ref * Cell) :=
  match l with
  | [] => [x]
  | y :: l' =>
      match compareFn x.2 y.2 with
      | Gt => y :: insertNode x l'
      | _ => x :: l
      end
  end.

Definition sortNodes (l : list (Ref * Cell)) : list (Ref * Cell) :=
  foldr insertNode [] l.

(** The objects a list of references points to, read at this moment. *)
Fixpoint resolve (g : Grid) (ps : list Ref) : Result (list (Ref * Cell)) :=
  match ps with
  | [] => Ok []
  | p :: ps' =>
      cell ← ofOption (cellAt g p);
      rest ← resolve g ps';
      Ok ((p, cell) :: rest)
  end.

Definition ltDistance (n : nat) (d : Distance) : bool :=
  match d with
  | Finite m => (n <? m)%nat
  | POSITIVE_INFINITY => true
  end.

(** "Update neighbors": one pass of the [for (const neighbor of neighbors)]
    loop; [currentNode] sits at [cur] and has distance [d]. *)
Fixpoint relax (cur : Ref) (d : nat) (neighbors : list Ref) (g : Grid) : Result Grid :=
  match neighbors with
  | [] => Ok g
  | n :: rest =>
      neighbor ← ofOption (cellAt g n);
      if isVisited neighbor || bool_decide (type neighbor = TWall)
      then relax cur d rest g
      else
        let tentativeDistance := (d + 1)%nat in
        if ltDistance tentativeDistance (distance neighbor)
        then relax cur d rest
               (updCell (with_relaxed (Finite tentativeDistance) (Some cur)) n g)
        else relax cur d rest g
  end.

(** [while (current !== null) { path.unshift(current); current = current.previous }] *)
Fixpoint reconstruct (fuel : nat) (g : Grid) (current : option Ref) (path : list Cell)
  : Result (list Cell) :=
  match current with
  | None => Ok path
  | Some p =>
      match fuel with
      | O => OutOfFuel
      | S fuel' =>
          cell ← ofOption (cellAt g p);
          reconstruct fuel' g (previous cell) (cell :: path)
      end
  end.

Definition coordOf (c : Cell) : Coord := (row c, col c).

(** The guard [currentNode.type !== "start" && currentNode.type !== "end"]
    around the two display updates of a finalized node. *)
Definition displayed (c : Cell) : bool :=
  negb (bool_decide (type c = TStart)) && negb (bool_decide (type c = TEnd)).

(** "Animate path": [for (let i = 1; i < path.length - 1; i++)]. *)
Definition pathEvents (path : list Cell) : list RenderEvent :=
  (fun c => EvPath (coordOf c)) <$> take (length path - 2) (drop 1 path).

(** The local variables of the loop.  Each loop turn re-sorts
    [unvisitedNodes] and removes its head. *)
Record RunState : Type := mkRunState {
  currentGrid : Grid;
  unvisitedNodes : list Ref;
  visitedCounter : nat
}.

(** What one turn of the [while] loop does. *)
Inductive Turn : Type :=
  | PoolEmpty
  | MinInfinite
  | Reached (currentNode : Cell) (counter : nat) (path : list Cell)
  | Continue (currentNode : Cell) (s' : RunState).

Definition loopBody (endCell : Coord) (s : RunState) : Result Turn :=
  match unvisitedNodes s with
  | [] => Ok PoolEmpty
  | _ :: _ =>
      nodes ← resolve (currentGrid s) (unvisitedNodes s);
      match sortNodes nodes with
      | [] => TypeError
      | (cur, currentNode) :: rest =>
          match distance currentNode with
          | POSITIVE_INFINITY => Ok MinInfinite
          | Finite d =>
              let g1 := updCell (with_isVisited true) cur (currentGrid s) in
              let counter := S (visitedCounter s) in
              if decide (row currentNode = endCell.1 /\ col currentNode = endCell.2)
              then
                path ← reconstruct counter g1 (Some cur) [];
                Ok (Reached currentNode counter path)
              else
                neighbors ← getNeighbors currentNode g1;
                g2 ← relax cur d neighbors g1;
                Ok (Continue currentNode (mkRunState g2 rest.*1 counter))
          end
      end
  end.

(** How the run ended, with what it showed on the way. *)
Inductive Exit : Type := ExitReached | ExitInfinite | ExitEmpty.

#[global] Instance Exit_eq_dec : EqDecision Exit.
Proof. solve_decision. Defined.

(** [events]: the display updates, in order.  [finalizedNodes]: the nodes
    in the order [isVisited] was set, each as it was at that moment.
    [runPath]: the array [path], empty when the end was not reached.
    [runPathLength], [runVisitedCount]: the values the run leaves in
    [pathLength] and [visitedCount].  [script]: the setter calls and the
    awaits of the loop, in program order. *)
Record Run : Type := mkRun {
  events : list RenderEvent;
  finalizedNodes : list Cell;
  runPath : list Cell;
  runPathLength : option nat;
  runVisitedCount : nat;
  runExit : Exit;
  script : list Action
}.

Definition finalize (currentNode : Cell) (evs : list RenderEvent) (steps : list Action)
    (r : Run) : Run :=
  mkRun (evs ++ events r) (currentNode :: finalizedNodes r) (runPath r)
    (runPathLength r) (runVisitedCount r) (runExit r) (steps ++ script r).

Definition showCurrent (c : Cell) : list RenderEvent :=
  if displayed c then [EvCurrent (coordOf c)] else [].

Definition showVisited (c : Cell) : list RenderEvent :=
  if displayed c then [EvCurrent (coordOf c); EvVisited (coordOf c)] else [].

(** A turn that goes on: "Update UI", then, behind a timer, "Mark as
    visited in UI" and [setVisitedCount(visitedCounter)]. *)
Definition turnSteps (c : Cell) (counter : nat) : list Action :=
  (Do <$> (Render <$> showCurrent c)) ++
  Await ::
  (if displayed c then [Do (Render (EvVisited (coordOf c)))] else []) ++
  [Do (SetVisitedCount counter)].

(** The turn that reaches the end: "Update UI", one timer per interior
    cell of the path, then the three setter calls before [return]. *)
Definition reachedSteps (c : Cell) (counter : nat) (path : list Cell) : list Action :=
  (Do <$> (Render <$> showCurrent c)) ++
  (pathEvents path ≫= fun ev => [Await; Do (Render ev)]) ++
  [Do (SetPathLength (length path - 1)%nat); Do (SetVisitedCount counter);
   Do (SetIsRunning false)].

Fixpoint whileLoop (fuel : nat) (endCell : Coord) (s : RunState) : Result Run :=
  match fuel with
  | O => OutOfFuel
  | S fuel' =>
      turn ← loopBody endCell s;
      match turn with
      | PoolEmpty => Ok (mkRun [] [] [] None (visitedCounter s) ExitEmpty [])
      | MinInfinite => Ok (mkRun [] [] [] None (visitedCounter s) ExitInfinite [])
      | Reached currentNode counter path =>
          Ok (mkRun (showCurrent currentNode ++ pathEvents path) [currentNode] path
                (Some (length path - 1)%nat) counter ExitReached
                (reachedSteps currentNode counter path))
      | Continue currentNode s' =>
          finalize currentNode (showVisited currentNode)
            (turnSteps currentNode (visitedCounter s'))
            <$> whileLoop fuel' endCell s'
      end
  end.

Definition initialRunState (g : Grid) (startCell : Coord) : Result RunState :=
  let currentGrid := workingCopy startCell g in
  unvisitedNodes ← collectUnvisited currentGrid allPositions;
  Ok (mkRunState currentGrid unvisitedNodes 0).

(** The search of [dijkstra] on the displayed grid [g]. *)
Definition search (g : Grid) (startCell endCell : Coord) : Result Run :=
  s ← initialRunState g startCell;
  whileLoop (S (length (unvisitedNodes s))) endCell s.

(** ** The run inside the component *)

(** The "Reset grid" updater at the head of [dijkstra], and the updater of
    [clearPath]: both drop the display types and the search fields. *)
Definition clearedCell (cell : Cell) : Cell :=
  mkCell (row cell) (col cell) (persistentType (type cell)) POSITIVE_INFINITY None false.

Definition clearedGrid (g : Grid) : Grid :=
  (fun cells : list Cell => clearedCell <$> cells) <$> g.

Definition with_distance (d : Distance) (c : Cell) : Cell :=
  mkCell (row c) (col c) (type c) d (previous c) (isVisited c).

Definition eventType (ev : RenderEvent) : CellType * Coord :=
  match ev with
  | EvCurrent p => (TCurrent, p)
  | EvVisited p => (TVisited, p)
  | EvPath p => (TPath, p)
  end.

(** One setter call of a run takes effect.  The display updaters write
    [newGrid[row][col].type] on a copy of the displayed grid. *)
Definition applyUpdate (u : Update) (s : Session) : Result Session :=
  match u with
  | Render ev =>
      g ← setType (eventType ev).1 (eventType ev).2 (grid s);
      Ok (mkSession g (isRunning s) (drawMode s) (startCell s) (endCell s)
            (pathLength s) (visitedCount s) (pending s))
  | SetVisitedCount n =>
      Ok (mkSession (grid s) (isRunning s) (drawMode s) (startCell s) (endCell s)
            (pathLength s) n (pending s))
  | SetPathLength n =>
      Ok (mkSession (grid s) (isRunning s) (drawMode s) (startCell s) (endCell s)
            (Some n) (visitedCount s) (pending s))
  | SetIsRunning b =>
      Ok (mkSession (grid s) b (drawMode s) (startCell s) (endCell s)
            (pathLength s) (visitedCount s) (pending s))
  end.

Fixpoint applyUpdates (us : list Update) (s : Session) : Result Session :=
  match us with
  | [] => Ok s
  | u :: us' => s' ← applyUpdate u s; applyUpdates us' s'
  end.

(** The steps up to the first [Await], and those behind each [Await]. *)
Fixpoint splitAwait (steps : list Action) : list Update * list (list Update) :=
  match steps with
  | [] => ([], [])
  | Do u :: rest => let (now, later) := splitAwait rest in (u :: now, later)
  | Await :: rest => let (now, later) := splitAwait rest in ([], now :: later)
  end.

(** [setIsRunning(false)] after the loop, not reached by the [return]
    of the turn that finds the end. *)
Definition afterLoop (e : Exit) : list Action :=
  match e with
  | ExitReached => []
  | ExitInfinite | ExitEmpty => [Do (SetIsRunning false)]
  end.

(** [dijkstra]: the guard on [startCell] and [endCell], the first setter
    calls and the display reset, then the run.  The search works on its
    own copy of [grid] and reads no state afterwards, so all it will do
    is determined when it starts.  What it does before its first [await]
    takes effect with the click; the rest is left pending, timer by
    timer.  A run that never awaits is over when the click returns.
    The "Find Path" button is [disabled] while a run is in progress. *)
Definition dijkstra (s : Session) : Result Session :=
  match startCell s, endCell s with
  | Some st, Some en =>
      shown ← ofOption (cellAt (clearedGrid (grid s)) st);
      run ← search (grid s) st en;
      let (now, later) := splitAwait (script run ++ afterLoop (runExit run)) in
      applyUpdates now
        (mkSession (updCell (with_distance (Finite 0)) st (clearedGrid (grid s)))
           true (drawMode s) (startCell s) (endCell s) None 0%nat later)
  | _, _ => Ok s
  end.

(** The timer the run is waiting for fires: its callback runs and the
    run resumes, up to its next [await] or its end. *)
Definition tick (s : Session) : Result Session :=
  match pending s with
  | [] => Ok s
  | us :: rest =>
      applyUpdates us
        (mkSession (grid s) (isRunning s) (drawMode s) (startCell s) (endCell s)
           (pathLength s) (visitedCount s) rest)
  end.

Fixpoint ticks (n : nat) (s : Session) : Result Session :=
  match n with
  | O => Ok s
  | S n' => s' ← tick s; ticks n' s'
  end.

(** ** [clearPath] and [resetGrid] *)

Definition clearPath (s : Session) : Session :=
  if isRunning s then s
  else mkSession (clearedGrid (grid s)) (isRunning s) (drawMode s)
         (startCell s) (endCell s) None 0%nat (pending s).

(** [clearTimeout(animationRef.current)] unschedules the run's timer. *)
Definition resetGrid (s : Session) : Result Session :=
  if isRunning s then Ok s
  else
    initializeGrid
      (mkSession (grid s) (isRunning s) (drawMode s) (startCell s) (endCell s)
         (pathLength s) (visitedCount s) []).

(** The states in which the [while] condition is evaluated during a run. *)
Fixpoint loopStates (fuel : nat) (endCell : Coord) (s : RunState) : list RunState :=
  match fuel with
  | O => []
  | S fuel' =>
      s :: match loopBody endCell s with
           | Ok (Continue _ s') => loopStates fuel' endCell s'
           | _ => []
           end
  end.

(** ** Well-formed grids and the states used as examples *)

(** The matrix of positions of a [GRID_ROWS] by [GRID_COLS] grid. *)
Definition positions : list (list Coord) :=
  (fun r => (fun c => (r, c)) <$> seqZ 0 GRID_COLS) <$> seqZ 0 GRID_ROWS.

(** A grid as [initializeGrid] builds it and every updater keeps it: full
    size, each cell recording its own position. *)
Definition wellFormed (g : Grid) : Prop :=
  (fun cells : list Cell => coordOf <$> cells) <$> g = positions.

Definition initialGrid : Grid :=
  updCell (with_type TEnd) defaultEnd (updCell (with_type TStart) defaultStart emptyGrid).

(** The state after the mount effect has run [initializeGrid]. *)
Definition initialSession : Session :=
  mkSession initialGrid false ModeWall (Some defaultStart) (Some defaultEnd) None 0%nat [].

Definition typeAt (g : Grid) (p : Coord) : option CellType := type <$> cellAt g p.

Definition countType (t : CellType) (g : Grid) : nat :=
  length (filter (fun c => type c = t) (concat g)).

(** A finished run on a small instance: end moved next to the start, the
    search run, and all its timers fired. *)
Definition exploredSession : Result Session :=
  s1 ← paint initialSession 12 12 ModeEnd;
  s2 ← dijkstra s1;
  ticks 40 s2.

(** A run that has just been started. *)
Definition runningSession : Result Session :=
  s1 ← paint initialSession 12 12 ModeEnd;
  dijkstra s1.

(** ** Notions used to state the properties of the search *)

(** The order of [distance] values, [Infinity] on top. *)
Definition dle (a b : Distance) : Prop :=
  match a, b with
  | Finite m, Finite n => (m <= n)%nat
  | _, POSITIVE_INFINITY => True
  | POSITIVE_INFINITY, Finite _ => False
  end.

Definition offsetBy (p d : Coord) : Coord := (p.1 + d.1, p.2 + d.2).

(** The in-bounds positions one step Up, Right, Down or Left of [p]. *)
Definition neighborsOf (p : Coord) : list Coord :=
  filter (fun q => inBounds q = true) (offsetBy p <$> directions).

(** The test of the relaxation loop on one neighbour. *)
Definition relaxable (d : nat) (c : Cell) : bool :=
  negb (isVisited c) && negb (bool_decide (type c = TWall)) &&
  ltDistance (d + 1) (distance c).

(** What relaxing the neighbours [ns] of the node at [cur] does to the
    object at [q]. *)
Definition relaxCell (cur : Ref) (d : nat) (ns : list Ref) (q : Ref) (c : Cell) : Cell :=
  if bool_decide (q ∈ ns) && relaxable d c
  then with_relaxed (Finite (d + 1)) (Some cur) c
  else c.

(** What one full turn on the node at [cur] does to the object at [q]. *)
Definition turnCell (cur : Ref) (d : nat) (q : Ref) (c : Cell) : Cell :=
  if bool_decide (q = cur) then with_isVisited true c
  else relaxCell cur d (neighborsOf cur) q c.

(** Cells the search can walk to from [st] over non-wall cells. *)
Inductive reachable (g : Grid) (st : Coord) : Coord -> Prop :=
  | reachable_start c :
      cellAt g st = Some c -> type c <> TWall -> reachable g st st
  | reachable_step p q c :
      reachable g st p -> q ∈ neighborsOf p ->
      cellAt g q = Some c -> type c <> TWall -> reachable g st q.

Definition noWalls (g : Grid) : Prop :=
  Forall (Forall (fun c => type c <> TWall)) g.

Definition manhattan (p q : Coord) : nat :=
  Z.to_nat (Z.abs (p.1 - q.1) + Z.abs (p.2 - q.2)).

(** ** The loop invariant *)

(** The [previous] link of the object at [p]: absent while the distance is
    infinite and at the start cell, otherwise a finalized node one step
    closer to the start. *)
Definition chainOk (g : Grid) (st : Coord) (p : Ref) (c : Cell) : Prop :=
  match distance c with
  | POSITIVE_INFINITY => previous c = None
  | Finite O => previous c = None /\ p = st
  | Finite (S n) =>
      exists q cq, previous c = Some q /\ cellAt g q = Some cq /\
                   isVisited cq = true /\ distance cq = Finite n
  end.

(** What holds of the local variables whenever the [while] condition is
    evaluated, for a run on the displayed grid [g0] from [st] to [en]. *)
Record Inv (g0 : Grid) (st en : Coord) (s : RunState) : Prop := mkInv {
  inv_fixed : forall p,
    (fun c => (coordOf c, type c)) <$> cellAt (currentGrid s) p =
    (fun c => (coordOf c, persistentType (type c))) <$> cellAt g0 p;
  inv_nodup : NoDup (unvisitedNodes s);
  inv_pool : forall p,
    p ∈ unvisitedNodes s <->
    exists c, cellAt (currentGrid s) p = Some c /\ isVisited c = false /\ type c <> TWall;
  inv_chain : forall p c,
    cellAt (currentGrid s) p = Some c -> chainOk (currentGrid s) st p c;
  inv_start : forall c,
    cellAt (currentGrid s) st = Some c -> distance c = Finite 0;
  inv_count : forall p c n,
    cellAt (currentGrid s) p = Some c -> distance c = Finite n ->
    (n <= visitedCounter s)%nat;
  inv_visited : forall p c,
    cellAt (currentGrid s) p = Some c -> isVisited c = true ->
    p <> en /\ type c <> TWall /\
    exists n, distance c = Finite n /\
      forall q cq, q ∈ neighborsOf p -> cellAt (currentGrid s) q = Some cq ->
                   type cq <> TWall ->
                   isVisited cq = true \/ dle (distance cq) (Finite (n + 1));
  inv_reach : forall p c n,
    cellAt (currentGrid s) p = Some c -> type c <> TWall ->
    distance c = Finite n -> reachable g0 st p
}.

(** On a grid without walls a finite distance is never below the
    Manhattan distance, and a finalized one equals it. *)
Record Open (st : Coord) (s : RunState) : Prop := mkOpen {
  open_lower : forall p c n,
    cellAt (currentGrid s) p = Some c -> distance c = Finite n ->
    (manhattan st p <= n)%nat;
  open_exact : forall p c n,
    cellAt (currentGrid s) p = Some c -> isVisited c = true ->
    distance c = Finite n -> n = manhattan st p
}.

(** The node a turn takes: a member of the pool with the least distance. *)
Definition Pick (s : RunState) (cur : Ref) (c : Cell) : Prop :=
  cur ∈ unvisitedNodes s /\ cellAt (currentGrid s) cur = Some c /\
  forall q cq, q ∈ unvisitedNodes s -> cellAt (currentGrid s) q = Some cq ->
               dle (distance c) (distance cq).

(** The effect of a turn that finalizes [cur] at distance [d] and goes on. *)
Definition Step (s : RunState) (cur : Ref) (d : nat) (s' : RunState) : Prop :=
  visitedCounter s' = S (visitedCounter s) /\
  cur :: unvisitedNodes s' ≡ₚ unvisitedNodes s /\
  forall q, cellAt (currentGrid s') q = turnCell cur d q <$> cellAt (currentGrid s) q.

(** The reconstructed path: it starts with the start cell, ends with the
    node just finalized, and holds cells of the grid. *)
Definition pathOk (st : Coord) (c : Cell) (d : nat) (path : list Cell) : Prop :=
  length path = S d /\
  (exists c0 rest, path = c0 :: rest /\ coordOf c0 = st /\
                   distance c0 = Finite 0 /\ previous c0 = None) /\
  (exists front, path = front ++ [with_isVisited true c]) /\
  Forall (fun c => inBounds (coordOf c) = true) path.

(** A list of finalized nodes whose distances never go down. *)
Definition nondecreasing (l : list Cell) : Prop :=
  forall i j ci cj, (i <= j)%nat -> l !! i = Some ci -> l !! j = Some cj ->
                    dle (distance ci) (distance cj).

Definition cellLe (a b : Cell) : Prop := dle (distance a) (distance b).

(** The order the sort establishes on resolved nodes. *)
Definition nodeLe (x y : Ref * Cell) : Prop := dle (distance x.2) (distance y.2).

(** ** A wall barrier *)

(** The initial grid with column 25 walled over all rows, between the
    default start and end. *)
Definition barrierGrid : Grid :=
  (fun cells : list Cell =>
     (fun c => if decide (col c = 25) then with_type TWall c else c) <$> cells)
    <$> initialGrid.

(** The session reached from the initial one by painting that wall, cell
    by cell. *)
Definition barrierSession : Session :=
  mkSession barrierGrid false ModeWall (Some defaultStart) (Some defaultEnd) None 0%nat [].

Fixpoint paintWalls (ps : list Coord) (s : Session) : Result Session :=
  match ps with
  | [] => Ok s
  | p :: ps' => s' ← paint s p.1 p.2 ModeWall; paintWalls ps' s'
  end.

Definition notWallAt (g : Grid) (p : Ref) : Prop := typeAt g p <> Some TWall.


(** ** Statements of the specification that the code does not meet,
    as predicates *)

(** Wall paint turns a cell whose persistent kind is empty into a wall. *)
Definition wallToggles (s : Session) (p : Coord) : Prop :=
  forall cell,
    isRunning s = false ->
    cellAt (grid s) p = Some cell ->
    persistentType (type cell) = TEmpty ->
    exists s', paint s p.1 p.2 ModeWall = Ok s' /\
               persistentType <$> typeAt (grid s') p = Some TWall.

(** [paint] applied twice in succession. *)
Definition paintTwice (s : Session) (r c : Z) (m : DrawMode) : Result Session :=
  s1 ← paint s r c m; paint s1 r c m.

(** A clear or reset requested during a run discards what the run has
    scheduled. *)
Definition cancelsRun (s : Session) : Prop :=
  isRunning s = true ->
  pending (clearPath s) = [] /\ (pending <$> resetGrid s) = Ok [].

(** ** A run as the component sees it *)

Definition with_pending (p : list (list Update)) (s : Session) : Session :=
  mkSession (grid s) (isRunning s) (drawMode s) (startCell s) (endCell s)
    (pathLength s) (visitedCount s) p.

(** The setter calls among the steps, and the display updates among the
    setter calls, in order. *)
Definition updatesOf (steps : list Action) : list Update :=
  steps ≫= fun st => match st with Do u => [u] | Await => [] end.

Definition rendersOf (us : list Update) : list RenderEvent :=
  us ≫= fun u => match u with Render ev => [ev] | _ => [] end.

(** A display update that writes inside the grid. *)
Definition inGrid (u : Update) : Prop :=
  match u with
  | Render ev => inBounds (eventType ev).2 = true
  | _ => True
  end.

(** A setter call other than [setIsRunning]. *)
Definition keepsRunning (u : Update) : Prop :=
  match u with
  | SetIsRunning _ => False
  | _ => True
  end.

(** ** Walks over the grid *)

(** [walk g st p n]: [p] is reached from [st] in [n] steps Up, Right, Down
    or Left over non-wall cells of [g]. *)
Inductive walk (g : Grid) (st : Coord) : Coord -> nat -> Prop :=
  | walk_start c :
      cellAt g st = Some c -> type c <> TWall -> walk g st st 0
  | walk_step p q c n :
      walk g st p n -> q ∈ neighborsOf p ->
      cellAt g q = Some c -> type c <> TWall -> walk g st q (S n).

(** A finite distance is the length of a walk, and the distance of a
    finalized node is the length of a shortest one. *)
Record Shortest (g0 : Grid) (st : Coord) (s : RunState) : Prop := mkShortest {
  sh_walk : forall p c n,
    cellAt (currentGrid s) p = Some c -> type c <> TWall ->
    distance c = Finite n -> walk g0 st p n;
  sh_min : forall p c n,
    cellAt (currentGrid s) p = Some c -> isVisited c = true ->
    distance c = Finite n -> forall m, walk g0 st p m -> (n <= m)%nat
}.

(** The positions of a walk from [st], in order, [st] included. *)
Inductive trail (g : Grid) (st : Coord) : Coord -> list Coord -> Prop :=
  | trail_start c :
      cellAt g st = Some c -> type c <> TWall -> trail g st st [st]
  | trail_step p q c ps :
      trail g st p ps -> q ∈ neighborsOf p ->
      cellAt g q = Some c -> type c <> TWall -> trail g st q (ps ++ [q]).

(** A [previous] link points to a cell one step away. *)
Definition Linked (g : Grid) : Prop :=
  forall p c q, cellAt g p = Some c -> previous c = Some q -> p ∈ neighborsOf q.

(** The cells strictly between the first and the last of a path. *)
Definition interior {A} (path : list A) : list A :=
  take (length path - 2) (drop 1 path).

(** What the search shows for a finalized node: the end only turns
    "current", the others "current" and then "visited". *)
Definition shownFor (en : Coord) (c : Cell) : list RenderEvent :=
  if decide (coordOf c = en) then showCurrent c else showVisited c.

(** What the proofs about a run carry from turn to turn. *)
Definition Sound (g0 : Grid) (st en : Coord) (s : RunState) : Prop :=
  Inv g0 st en s /\ Shortest g0 st s /\ Linked (currentGrid s).

(** The node at [w] has been finalized. *)
Definition finalizedIn (s : RunState) (w : Coord) : Prop :=
  exists c, cellAt (currentGrid s) w = Some c /\ isVisited c = true.

(** ** Kinds *)

(** A display update that lands on a cell whose persistent kind is
    empty. *)
Definition onEmptyKind (g : Grid) (ev : RenderEvent) : Prop :=
  exists c, cellAt g (eventType ev).2 = Some c /\ persistentType (type c) = TEmpty.

(** A setter call that changes the kind of no cell of [g]. *)
Definition keepsKinds (g : Grid) (u : Update) : Prop :=
  match u with
  | Render ev => onEmptyKind g ev
  | _ => True
  end.

(** The start and end types sit nowhere but at the recorded positions. *)
Definition marksAt (g : Grid) (st en : option Coord) : Prop :=
  forall p c, cellAt g p = Some c ->
    (type c = TStart -> st = Some p) /\ (type c = TEnd -> en = Some p).

(** ** Mouse handlers and buttons *)

(** The component with its [isDrawing] state. *)
Record Page : Type := mkPage {
  session : Session;
  isDrawing : bool
}.

(** [handleMouseDown]: [setIsDrawing(true)], then the click. *)
Definition handleMouseDown (pg : Page) (r c : Z) : Result Page :=
  s' ← handleCellClick (session pg) r c;
  Ok (mkPage s' true).

(** [handleMouseEnter]: a click, when drawing in wall mode. *)
Definition handleMouseEnter (pg : Page) (r c : Z) : Result Page :=
  if isDrawing pg && bool_decide (drawMode (session pg) = ModeWall)
  then s' ← handleCellClick (session pg) r c; Ok (mkPage s' (isDrawing pg))
  else Ok pg.

(** [handleMouseUp], also bound to [onMouseLeave] of the grid. *)
Definition handleMouseUp (pg : Page) : Page := mkPage (session pg) false.

(** The "Find Path" button:
    [disabled={isRunning || !startCell || !endCell}]. *)
Definition findPathDisabled (s : Session) : bool :=
  isRunning s || bool_decide (startCell s = None) || bool_decide (endCell s = None).

Definition clickFindPath (s : Session) : Result Session :=
  if findPathDisabled s then Ok s else dijkstra s.

(** What can happen to the mounted component: the mouse over the grid,
    the buttons, and a timer of the run in progress. *)
Inductive Event : Type :=
  | MouseDown (r c : Z)
  | MouseEnter (r c : Z)
  | MouseUp
  | ClickMode (m : DrawMode)
  | ClickFindPath
  | ClickClearPath
  | ClickResetGrid
  | TimerFires.

Definition onSession (f : Session -> Result Session) (pg : Page) : Result Page :=
  s' ← f (session pg); Ok (mkPage s' (isDrawing pg)).

Definition handle (ev : Event) (pg : Page) : Result Page :=
  match ev with
  | MouseDown r c => handleMouseDown pg r c
  | MouseEnter r c => handleMouseEnter pg r c
  | MouseUp => Ok (handleMouseUp pg)
  | ClickMode m => onSession (fun s => Ok (selectDrawMode m s)) pg
  | ClickFindPath => onSession clickFindPath pg
  | ClickClearPath => onSession (fun s => Ok (clearPath s)) pg
  | ClickResetGrid => onSession resetGrid pg
  | TimerFires => onSession tick pg
  end.

Fixpoint handleAll (evs : list Event) (pg : Page) : Result Page :=
  match evs with
  | [] => Ok pg
  | ev :: evs' => pg' ← handle ev pg; handleAll evs' pg'
  end.

(** The page after the mount effect. *)
Definition initialPage : Page := mkPage initialSession false.

(** The mouse events of the grid carry the indices of a rendered cell. *)
Definition overGrid (ev : Event) : Prop :=
  match ev with
  | MouseDown r c | MouseEnter r c => inBounds (r, c) = true
  | _ => True
  end.

(** What every state of the component satisfies.  While a run is in
    progress there are timers to wait for: the display updates they make
    write inside the grid, and [setIsRunning(false)] is the last call of
    the last of them and is made nowhere else. *)
Record Stable (s : Session) : Prop := mkStable {
  stable_grid : wellFormed (grid s);
  stable_start : exists p, startCell s = Some p /\ inBounds p = true;
  stable_end : exists p, endCell s = Some p /\ inBounds p = true;
  stable_marks : marksAt (grid s) (startCell s) (endCell s);
  stable_pending :
    if isRunning s
    then exists batches final,
           pending s = batches ++ [final ++ [SetIsRunning false]] /\
           Forall (Forall keepsRunning) batches /\ Forall keepsRunning final /\
           Forall (Forall inGrid) (pending s)
    else pending s = []
}.

(** The wall branch of [handleCellClick] on one cell. *)
Definition toggleWall (c : Cell) : Cell :=
  match type c with
  | TEmpty => with_type TWall c
  | TWall => with_type TEmpty c
  | _ => c
  end.

(** A stroke: the button goes down over [p], the pointer enters the cells
    [ps] in turn, the button goes up. *)
Fixpoint enterAll (ps : list Coord) (pg : Page) : Result Page :=
  match ps with
  | [] => Ok pg
  | p :: ps' => pg' ← handleMouseEnter pg p.1 p.2; enterAll ps' pg'
  end.

Definition stroke (pg : Page) (p : Coord) (ps : list Coord) : Result Page :=
  pg1 ← handleMouseDown pg p.1 p.2;
  pg2 ← enterAll ps pg1;
  Ok (handleMouseUp pg2).

Definition occurrences (q : Coord) (ps : list Coord) : nat :=
  length (filter (fun p => p = q) ps).



(** ** [getCellClassName] *)

Section ClassName.
Import Stdlib.Strings.String.

(** The string literals of the [CellType] union. *)
Definition typeName (t : CellType) : string :=
  match t with
  | TEmpty => "empty"
  | TWall => "wall"
  | TStart => "start"
  | TEnd => "end"
  | TPath => "path"
  | TVisited => "visited"
  | TCurrent => "current"
  end%string.

Definition getCellClassName (cell : Cell) : string :=
  let baseClass := "grid-cell w-4 h-4 cursor-pointer"%string in
  append baseClass (append " grid-cell-" (typeName (type cell))).

End ClassName.

(** * Properties *)

(** ** The grid as a store *)

Lemma index_Some {A} (l : list A) i x :
  index l i = Some x <-> 0 <= i /\ l !! Z.to_nat i = Some x.
Proof. unfold index. case_decide; naive_solver. Qed.

Lemma cellAt_Some g p c :
  cellAt g p = Some c <->
  0 <= p.1 /\ 0 <= p.2 /\
  exists cells, g !! Z.to_nat p.1 = Some cells /\ cells !! Z.to_nat p.2 = Some c.
Proof.
  unfold cellAt. split.
  - intros H. apply bind_Some in H as (cells & H1 & H2).
    apply index_Some in H1, H2. naive_solver.
  - intros (H1 & H2 & cells & H3 & H4). apply bind_Some. exists cells.
    split; apply index_Some; done.
Qed.

Lemma cellAt_updCell f p q g :
  cellAt (updCell f p g) q =
  if decide (p = q) then f <$> cellAt g q else cellAt g q.
Proof.
  destruct p as [pr pc], q as [qr qc]. unfold updCell, cellAt, index. simpl.
  destruct (decide (0 <= pr /\ 0 <= pc)) as [[Hpr Hpc]|Hp].
  - destruct (decide (0 <= qr)) as [Hr|Hr]; simpl.
    + destruct (decide (pr = qr)) as [->|Hne].
      * rewrite list_lookup_alter_eq.
        destruct (g !! Z.to_nat qr) as [cells|] eqn:E; simpl.
        -- destruct (decide (0 <= qc)) as [Hc|Hc].
           ++ destruct (decide (pc = qc)) as [->|Hne].
              ** rewrite decide_True by done. by rewrite list_lookup_alter_eq.
              ** rewrite decide_False by congruence.
                 rewrite list_lookup_alter_ne by lia. done.
           ++ by repeat case_match.
        -- by repeat case_match.
      * rewrite list_lookup_alter_ne by lia.
        rewrite decide_False by congruence. reflexivity.
    + by repeat case_match.
  - destruct (decide ((pr, pc) = (qr, qc))) as [E|E]; [|reflexivity]. simplify_eq.
    destruct (decide (0 <= qr)); simpl; [|done].
    destruct (g !! Z.to_nat qr); simpl; [|done].
    destruct (decide (0 <= qc)); [tauto|done].
Qed.

Lemma cellAt_updCell_eq f p g :
  cellAt (updCell f p g) p = f <$> cellAt g p.
Proof. rewrite cellAt_updCell. by rewrite decide_True. Qed.

Lemma cellAt_updCell_ne f p q g :
  p <> q -> cellAt (updCell f p g) q = cellAt g q.
Proof. intros. rewrite cellAt_updCell. by rewrite decide_False. Qed.

(** Two grids with the same cells at every position are equal. *)
Lemma grid_ext (g1 g2 : Grid) :
  length g1 = length g2 ->
  (forall i r1 r2, g1 !! i = Some r1 -> g2 !! i = Some r2 -> length r1 = length r2) ->
  (forall p, cellAt g1 p = cellAt g2 p) -> g1 = g2.
Proof.
  intros Hlen Hrows Hcells.
  apply (list_eq_same_length _ _ (length g1)); [done..|].
  intros i r1 r2 _ H1 H2.
  apply (list_eq_same_length _ _ (length r1)); [symmetry; by eapply Hrows|done|].
  intros j c1 c2 _ Hc1 Hc2.
  assert (cellAt g1 (Z.of_nat i, Z.of_nat j) = Some c1) as E1.
  { apply cellAt_Some. simpl. rewrite !Nat2Z.id. split_and!; [lia..|eauto]. }
  assert (cellAt g2 (Z.of_nat i, Z.of_nat j) = Some c2) as E2.
  { apply cellAt_Some. simpl. rewrite !Nat2Z.id. split_and!; [lia..|eauto]. }
  rewrite Hcells in E1. congruence.
Qed.

Lemma updCell_length f p g : length (updCell f p g) = length g.
Proof. unfold updCell. case_decide; [|done]. by rewrite length_alter. Qed.

Lemma updCell_row_length f p g i r1 r2 :
  updCell f p g !! i = Some r1 -> g !! i = Some r2 -> length r1 = length r2.
Proof.
  unfold updCell. case_decide; [|congruence].
  intros H1 H2. destruct (decide (Z.to_nat p.1 = i)) as [<-|].
  - rewrite list_lookup_alter_eq, H2 in H1. simplify_eq/=. by rewrite length_alter.
  - rewrite list_lookup_alter_ne in H1 by done. congruence.
Qed.

(** A write that leaves the addressed object as it was leaves the grid
    as it was. *)
Lemma updCell_id f p g :
  (forall c, cellAt g p = Some c -> f c = c) -> updCell f p g = g.
Proof.
  intros Hf. apply grid_ext.
  - apply updCell_length.
  - intros. by eapply updCell_row_length.
  - intros q. rewrite cellAt_updCell. case_decide; [|done]. subst.
    destruct (cellAt g q) eqn:E; [|done]. simpl. by rewrite Hf.
Qed.

Lemma updCell_updCell f1 f2 p g :
  updCell f1 p (updCell f2 p g) = updCell (f1 ∘ f2) p g.
Proof.
  apply grid_ext.
  - by rewrite !updCell_length.
  - intros i r1 r2 H1 H2.
    destruct (updCell f2 p g !! i) as [r3|] eqn:E3.
    + destruct (g !! i) as [r4|] eqn:E4.
      * rewrite (updCell_row_length _ _ _ _ _ _ H1 E3).
        rewrite (updCell_row_length _ _ _ _ _ _ H2 E4).
        by rewrite (updCell_row_length _ _ _ _ _ _ E3 E4).
      * apply lookup_ge_None in E4. apply lookup_lt_Some in H2.
        rewrite updCell_length in H2. lia.
    + apply lookup_ge_None in E3. apply lookup_lt_Some in H1.
      rewrite !updCell_length in *. lia.
  - intros q. rewrite !cellAt_updCell. case_decide; [|done].
    by destruct (cellAt g q).
Qed.

(** ** Well-formed grids *)

Lemma positions_lookup (p : Coord) :
  (cells ← index positions p.1; index cells p.2) =
  if inBounds p then Some p else None.
Proof.
  destruct p as [r c]. unfold index, inBounds, positions. cbn [fst snd].
  destruct (decide (0 <= r)) as [Hr|Hr].
  2: { rewrite (proj2 (Z.leb_gt _ _)) by lia. done. }
  rewrite (proj2 (Z.leb_le _ _)) by lia.
  rewrite list_lookup_fmap.
  destruct (decide (r < GRID_ROWS)) as [Hr'|Hr'].
  2: { rewrite lookup_seqZ_ge by lia. rewrite (proj2 (Z.ltb_ge _ _)) by lia. done. }
  rewrite lookup_seqZ_lt by lia. rewrite (proj2 (Z.ltb_lt _ _)) by lia. cbn [fmap option_fmap option_map mbind option_bind].
  destruct (decide (0 <= c)) as [Hc|Hc].
  2: { rewrite (proj2 (Z.leb_gt _ _)) by lia. done. }
  rewrite (proj2 (Z.leb_le _ _)) by lia.
  rewrite list_lookup_fmap.
  destruct (decide (c < GRID_COLS)) as [Hc'|Hc'].
  2: { rewrite lookup_seqZ_ge by lia. rewrite (proj2 (Z.ltb_ge _ _)) by lia. done. }
  rewrite lookup_seqZ_lt by lia. rewrite (proj2 (Z.ltb_lt _ _)) by lia. cbn.
  do 2 f_equal; lia.
Qed.

Lemma cellAt_fmap (f : Cell -> Cell) (g : Grid) p :
  cellAt ((fun cells : list Cell => f <$> cells) <$> g) p = f <$> cellAt g p.
Proof.
  unfold cellAt, index. destruct (decide (0 <= p.1)); [|done].
  rewrite list_lookup_fmap. destruct (g !! Z.to_nat p.1) as [cells|]; [|done]. simpl.
  destruct (decide (0 <= p.2)); [|done]. by rewrite list_lookup_fmap.
Qed.

Lemma wellFormed_coord g p :
  wellFormed g ->
  coordOf <$> cellAt g p = if inBounds p then Some p else None.
Proof.
  intros Hwf. rewrite <- positions_lookup, <- Hwf.
  unfold cellAt, index. destruct (decide (0 <= p.1)); [|done].
  rewrite list_lookup_fmap. destruct (g !! Z.to_nat p.1) as [cells|]; [|done]. simpl.
  destruct (decide (0 <= p.2)); [|done]. by rewrite list_lookup_fmap.
Qed.

Lemma wellFormed_Some g p c :
  wellFormed g -> cellAt g p = Some c -> inBounds p = true /\ coordOf c = p.
Proof.
  intros Hwf Hc. pose proof (wellFormed_coord g p Hwf) as H. rewrite Hc in H.
  simpl in H. destruct (inBounds p); naive_solver.
Qed.

Lemma wellFormed_inBounds g p :
  wellFormed g -> inBounds p = true -> exists c, cellAt g p = Some c /\ coordOf c = p.
Proof.
  intros Hwf Hp. pose proof (wellFormed_coord g p Hwf) as H. rewrite Hp in H.
  destruct (cellAt g p) as [c|]; [|done]. exists c. naive_solver.
Qed.


Lemma fmap_updCell {B} (h : Cell -> B) f p (g : Grid) :
  (forall c, h (f c) = h c) ->
  (fun cells : list Cell => h <$> cells) <$> updCell f p g =
  (fun cells : list Cell => h <$> cells) <$> g.
Proof.
  intros Hf. unfold updCell. case_decide; [|done].
  rewrite (list_fmap_alter _ _ id).
  - by apply list_alter_id.
  - apply Forall_forall. intros cells _. unfold id.
    rewrite (list_fmap_alter _ _ id).
    + by apply list_alter_id.
    + apply Forall_forall. intros c _. apply Hf.
Qed.

Lemma wellFormed_updCell f p g :
  (forall c, coordOf (f c) = coordOf c) -> wellFormed g -> wellFormed (updCell f p g).
Proof. intros Hf Hwf. unfold wellFormed. by rewrite fmap_updCell. Qed.

(** ** Painting *)

Lemma setType_Ok t p g c :
  cellAt g p = Some c -> setType t p g = Ok (updCell (with_type t) p g).
Proof. intros H. unfold setType. by rewrite H. Qed.

Lemma setType_inv t p g g' :
  setType t p g = Ok g' -> g' = updCell (with_type t) p g /\ is_Some (cellAt g p).
Proof. unfold setType. destruct (cellAt g p); naive_solver. Qed.

Lemma bindR_Ok {A B} (r : Result A) (k : A -> Result B) b :
  r ≫= k = Ok b <-> exists a, r = Ok a /\ k a = Ok b.
Proof. destruct r; simpl; naive_solver. Qed.

Lemma ofOption_Ok {A} (o : option A) a : ofOption o = Ok a <-> o = Some a.
Proof. destruct o; simpl; naive_solver. Qed.

Lemma initializeGrid_mount : initializeGrid mountState = Ok initialSession.
Proof. vm_compute. reflexivity. Qed.

Lemma wellFormed_initialGrid : wellFormed initialGrid.
Proof. vm_compute. reflexivity. Qed.

Lemma with_type_with_type t1 t2 c : with_type t1 (with_type t2 c) = with_type t1 c.
Proof. done. Qed.

Lemma with_type_same c : with_type (type c) c = c.
Proof. by destruct c. Qed.

Lemma wall_click s r c cell :
  isRunning s = false ->
  cellAt (grid s) (r, c) = Some cell ->
  paint s r c ModeWall =
  Ok (mkSession
        (match type cell with
         | TEmpty => updCell (with_type TWall) (r, c) (grid s)
         | TWall => updCell (with_type TEmpty) (r, c) (grid s)
         | _ => grid s
         end)
        false ModeWall (startCell s) (endCell s) (pathLength s) (visitedCount s)
        (pending s)).
Proof.
  intros Hrun Hcell. unfold paint, selectDrawMode, handleCellClick. rewrite Hrun.
  cbn. rewrite Hrun, Hcell. reflexivity.
Qed.

(** C6, as amended.  Outside a run, a wall-mode click on an in-bounds cell
    turns type empty into wall and wall into empty, and leaves the grid
    as it is for every other type: start, end, and the display types
    path, visited and current.  No other cell changes, nor do the
    recorded start and end positions. *)
Theorem wall_paint_toggles_empty_and_wall (s : Session) (r c : Z) (cell : Cell) :
  isRunning s = false ->
  cellAt (grid s) (r, c) = Some cell ->
  exists s',
    paint s r c ModeWall = Ok s' /\
    (type cell = TEmpty -> cellAt (grid s') (r, c) = Some (with_type TWall cell)) /\
    (type cell = TWall -> cellAt (grid s') (r, c) = Some (with_type TEmpty cell)) /\
    (type cell <> TEmpty -> type cell <> TWall -> grid s' = grid s) /\
    (forall q, q <> (r, c) -> cellAt (grid s') q = cellAt (grid s) q) /\
    startCell s' = startCell s /\ endCell s' = endCell s.
Proof.
  intros Hrun Hcell. eexists. split; [by apply wall_click|]. simpl.
  split_and!; try done.
  - intros ->. by rewrite cellAt_updCell_eq, Hcell.
  - intros ->. by rewrite cellAt_updCell_eq, Hcell.
  - intros. by destruct (type cell).
  - intros q Hq. destruct (type cell); try done; by rewrite cellAt_updCell_ne.
Qed.

(** C6, witness: a wall painted on the empty cell (3, 4) of the initial
    grid. *)
Lemma wall_paint_toggles_witness :
  exists s', paint initialSession 3 4 ModeWall = Ok s' /\
             typeAt (grid s') (3, 4) = Some TWall /\
             typeAt (grid s') (12, 10) = Some TStart.
Proof.
  destruct (wall_paint_toggles_empty_and_wall initialSession 3 4 (freshCell 3 4))
    as (s' & Hp & He & _ & _ & Ho & _).
  - reflexivity.
  - vm_compute. reflexivity.
  - exists s'. split; [exact Hp|]. unfold typeAt. split.
    + rewrite He; reflexivity.
    + rewrite Ho by discriminate. vm_compute. reflexivity.
Defined.

Lemma exploredSession_facts :
  match exploredSession with
  | Ok s =>
      bool_decide (isRunning s = false) &&
      bool_decide (cellAt (grid s) (11, 10) =
                   Some (mkCell 11 10 TVisited POSITIVE_INFINITY None false)) &&
      bool_decide (paint s 11 10 ModeWall = Ok (setDrawMode ModeWall s))
  | _ => false
  end = true.
Proof. vm_compute. reflexivity. Qed.

(** C6, counterexample.  After a finished run the cell (11, 10) is
    displayed as visited; its persistent kind is empty, yet a wall-mode
    click leaves it as it is. *)
Lemma wall_paint_skips_explored_cell :
  exists s, exploredSession = Ok s /\ isRunning s = false /\
            typeAt (grid s) (11, 10) = Some TVisited /\
            paint s 11 10 ModeWall = Ok (setDrawMode ModeWall s) /\
            ~ wallToggles s (11, 10).
Proof.
  pose proof exploredSession_facts as H.
  destruct exploredSession as [s| |]; [|done..]. exists s.
  apply andb_true_iff in H as [H H3]. apply andb_true_iff in H as [H1 H2].
  apply bool_decide_eq_true in H1, H2, H3.
  split_and!; try done.
  - unfold typeAt. by rewrite H2.
  - intros Htog. destruct (Htog _ H1 H2 eq_refl) as (s' & Hp & Ht).
    cbn [fst snd] in Hp. rewrite H3 in Hp. injection Hp as <-.
    unfold typeAt in Ht. cbn [grid setDrawMode] in Ht. rewrite H2 in Ht. discriminate.
Qed.

(** C7, counterexample.  On the initial grid, painting a wall on (0, 0)
    twice does not give the state that painting it once gives. *)
Lemma wall_paint_not_idempotent :
  paintTwice initialSession 0 0 ModeWall <> paint initialSession 0 0 ModeWall.
Proof. vm_compute. discriminate. Qed.

Lemma paint_inv s r c m s1 :
  paint s r c m = Ok s1 ->
  isRunning s1 = isRunning s /\
  (isRunning s = true -> s1 = s) /\
  (isRunning s = false -> drawMode s1 = m /\ is_Some (cellAt (grid s) (r, c))).
Proof.
  unfold paint, selectDrawMode, handleCellClick. destruct (isRunning s) eqn:Hrun.
  { rewrite Hrun. intros [= <-]. naive_solver. }
  cbn. rewrite Hrun.
  intros H. apply bindR_Ok in H as (cell & Hcell & H). apply ofOption_Ok in Hcell.
  destruct m.
  - injection H as <-. simpl. naive_solver.
  - apply bindR_Ok in H as (g1 & _ & H). apply bindR_Ok in H as (g2 & _ & H).
    injection H as <-. simpl. naive_solver.
  - apply bindR_Ok in H as (g1 & _ & H). apply bindR_Ok in H as (g2 & _ & H).
    injection H as <-. simpl. naive_solver.
Qed.

Lemma repaint_holder t p g1 c :
  cellAt g1 p = Some c ->
  (g1' ← clearPrevious (Some p) (updCell (with_type t) p g1);
   setType t p g1') = Ok (updCell (with_type t) p g1).
Proof.
  intros Hc. simpl.
  rewrite (setType_Ok _ _ _ (with_type t c)) by (by rewrite cellAt_updCell_eq, Hc).
  simpl.
  rewrite (setType_Ok _ _ _ (with_type TEmpty (with_type t c)))
    by (by rewrite !cellAt_updCell_eq, Hc).
  f_equal. rewrite !updCell_updCell. done.
Qed.

(** C7, as amended.  Painting start or end on the same cell a second
    time changes nothing.  Painting a wall a second time undoes the
    first: the state is the one before the first paint (with wall mode
    selected). *)
Theorem paint_start_end_idempotent_wall_involutive
    (s : Session) (r c : Z) (m : DrawMode) (s1 : Session) :
  paint s r c m = Ok s1 ->
  (m <> ModeWall -> paint s1 r c m = Ok s1) /\
  (m = ModeWall -> paint s1 r c m = Ok (selectDrawMode ModeWall s)).
Proof.
  intros H. destruct (isRunning s) eqn:Hrun.
  { assert (paint s r c m = Ok s) as E.
    { unfold paint, selectDrawMode, handleCellClick. rewrite Hrun. by rewrite Hrun. }
    rewrite E in H. injection H as <-. rewrite E. split; [done|].
    intros _. unfold selectDrawMode. by rewrite Hrun. }
  revert H. unfold paint at 1. unfold selectDrawMode, handleCellClick.
  rewrite Hrun. cbn. rewrite Hrun.
  intros H. apply bindR_Ok in H as (cell & Hcell & H). apply ofOption_Ok in Hcell.
  destruct m.
  - split; [done|]. intros _. injection H as <-.
    destruct (type cell) eqn:Ht.
    1: rewrite (wall_click _ _ _ (with_type TWall cell));
         [|done|cbn; by rewrite cellAt_updCell_eq, Hcell].
    2: rewrite (wall_click _ _ _ (with_type TEmpty cell));
         [|done|cbn; by rewrite cellAt_updCell_eq, Hcell].
    3-7: rewrite (wall_click _ _ _ cell); [|done..].
    all: cbn; unfold selectDrawMode, setDrawMode; rewrite ?Ht, Hrun; try done.
    all: do 2 f_equal; rewrite updCell_updCell; apply updCell_id; intros c' Hc';
         rewrite Hcell in Hc'; injection Hc' as <-; cbn;
         rewrite <- Ht; by destruct cell.
  - split; [|done]. intros _.
    apply bindR_Ok in H as (g1 & Hg1 & H). apply bindR_Ok in H as (g2 & Hg2 & H).
    injection H as <-. apply setType_inv in Hg2 as [-> [c1 Hc1]].
    unfold paint, selectDrawMode, handleCellClick. cbn.
    rewrite cellAt_updCell_eq, Hc1. simpl.
    pose proof (repaint_holder TStart (r, c) g1 c1 Hc1) as Hre. simpl in Hre.
    destruct (setType TEmpty (r, c) (updCell (with_type TStart) (r, c) g1)) as [g'| |];
      simpl in *; try done.
    by rewrite Hre.
  - split; [|done]. intros _.
    apply bindR_Ok in H as (g1 & Hg1 & H). apply bindR_Ok in H as (g2 & Hg2 & H).
    injection H as <-. apply setType_inv in Hg2 as [-> [c1 Hc1]].
    unfold paint, selectDrawMode, handleCellClick. cbn.
    rewrite cellAt_updCell_eq, Hc1. simpl.
    pose proof (repaint_holder TEnd (r, c) g1 c1 Hc1) as Hre. simpl in Hre.
    destruct (setType TEmpty (r, c) (updCell (with_type TEnd) (r, c) g1)) as [g'| |];
      simpl in *; try done.
    by rewrite Hre.
Qed.

(** C7, witness: start painted on (3, 4) of the initial grid, twice. *)
Lemma paint_start_end_idempotent_witness :
  exists s1, paint initialSession 3 4 ModeStart = Ok s1 /\
             paint s1 3 4 ModeStart = Ok s1.
Proof.
  assert (exists s1, paint initialSession 3 4 ModeStart = Ok s1) as [s1 H1].
  { vm_compute. eexists. reflexivity. }
  exists s1. split; [exact H1|].
  apply (paint_start_end_idempotent_wall_involutive initialSession 3 4 ModeStart s1 H1).
  discriminate.
Defined.

(** ** Neighbours *)


Lemma collectNeighbors_wellFormed g r c ds :
  wellFormed g ->
  collectNeighbors g r c ds =
  Ok (filter (fun p => inBounds p = true) (offsetBy (r, c) <$> ds)).
Proof.
  intros Hwf. induction ds as [|[dr dc] ds IH]; cbn [collectNeighbors]; [done|].
  rewrite fmap_cons. unfold offsetBy at 1. cbn [fst snd].
  destruct (inBounds (r + dr, c + dc)) eqn:Hb.
  - destruct (wellFormed_inBounds _ _ Hwf Hb) as (cell & -> & _).
    rewrite IH. cbn [ofOption mbind Result_bind bindR]. by rewrite filter_cons_True.
  - rewrite IH. by rewrite filter_cons_False by (by rewrite Hb).
Qed.



(** C4, evaluated at the input where the code departs from it.  On the
    initial grid, painting start onto the end cell (12, 40) leaves one
    cell of type start and no cell of type end, with [startCell] and
    [endCell] both at (12, 40).  Painting end elsewhere then clears
    [grid[endCell]], which is the start cell: no cell of type start is
    left, and the position recorded in [startCell] can be painted as a
    wall. *)
Theorem paint_start_over_end_leaves_no_end :
  (s1 ← paint initialSession 12 40 ModeStart;
   s2 ← paint s1 0 0 ModeEnd;
   s3 ← paint s2 12 40 ModeWall;
   Ok (countType TStart (grid s1), countType TEnd (grid s1),
       startCell s1, endCell s1,
       countType TStart (grid s2), countType TEnd (grid s2),
       startCell s3, typeAt (grid s3) (12, 40)))
  = Ok (1%nat, 0%nat, Some (12, 40), Some (12, 40),
        0%nat, 1%nat, Some (12, 40), Some TWall).
Proof. vm_compute. reflexivity. Qed.

Lemma runningSession_facts :
  match runningSession with
  | Ok s => bool_decide (isRunning s = true) &&
            bool_decide (length (pending s) = 11%nat) &&
            bool_decide (pending (clearPath s) = pending s)
  | _ => false
  end = true.
Proof. vm_compute. reflexivity. Qed.

(** C3, counterexample.  In a session whose run has just started,
    [clearPath] leaves all scheduled updates of the run in place: the
    run is not cancelled. *)
Lemma clear_does_not_cancel_run :
  exists s, runningSession = Ok s /\ ~ cancelsRun s.
Proof.
  pose proof runningSession_facts as H.
  destruct runningSession as [s| |]; [|done..]. exists s. split; [done|].
  apply andb_true_iff in H as [H H3]. apply andb_true_iff in H as [H1 H2].
  apply bool_decide_eq_true in H1, H2, H3.
  intros Hc. destruct (Hc H1) as [Hp _]. rewrite H3 in Hp. by rewrite Hp in H2.
Qed.

(** C3, as amended.  While a run is in progress, [clearPath] and
    [resetGrid] return at their [isRunning] guard: the state is unchanged,
    the updates the run has scheduled stay pending, and the next one
    still fires as it would have. *)
Theorem clear_and_reset_ignored_while_running (s : Session) :
  isRunning s = true ->
  clearPath s = s /\ resetGrid s = Ok s /\
  pending (clearPath s) = pending s /\ tick (clearPath s) = tick s.
Proof.
  intros Hrun. unfold clearPath, resetGrid. rewrite Hrun. done.
Qed.

(** C3, witness: the session of a run that has just started. *)
Lemma clear_and_reset_ignored_witness :
  exists s, runningSession = Ok s /\ clearPath s = s /\ resetGrid s = Ok s /\
            pending s <> [].
Proof.
  pose proof runningSession_facts as H.
  destruct runningSession as [s| |]; [|discriminate..]. exists s.
  apply andb_true_iff in H as [H H3]. apply andb_true_iff in H as [H1 H2].
  apply bool_decide_eq_true in H1, H2.
  destruct (clear_and_reset_ignored_while_running s H1) as (Hc & Hr & _).
  split_and!; try done. intros E. by rewrite E in H2.
Defined.

(** ** The pieces of one turn of the loop *)

Lemma dle_refl a : dle a a.
Proof. destruct a; simpl; lia. Qed.

Lemma dle_trans a b c : dle a b -> dle b c -> dle a c.
Proof. destruct a, b, c; simpl; try done; lia. Qed.

Lemma compareFn_not_Gt a b : compareFn a b <> Gt <-> dle (distance a) (distance b).
Proof.
  unfold compareFn, dle. destruct (distance a) as [m|], (distance b) as [n|]; try done.
  rewrite Nat.compare_gt_iff. lia.
Qed.

Lemma compareFn_Gt a b : compareFn a b = Gt -> dle (distance b) (distance a).
Proof.
  unfold compareFn, dle. destruct (distance a) as [m|], (distance b) as [n|]; try done.
  rewrite Nat.compare_gt_iff. lia.
Qed.

Lemma insertNode_perm x l : insertNode x l ≡ₚ x :: l.
Proof.
  induction l as [|y l IH]; simpl; [done|].
  destruct (compareFn x.2 y.2); try done.
  rewrite IH. apply Permutation_swap.
Qed.

Lemma sortNodes_perm l : sortNodes l ≡ₚ l.
Proof.
  induction l as [|x l IH]; simpl; [done|].
  rewrite insertNode_perm. by rewrite IH.
Qed.

Lemma insertNode_sorted x l :
  StronglySorted nodeLe l -> StronglySorted nodeLe (insertNode x l).
Proof.
  induction 1 as [|y l Hs IH Hy]; simpl.
  { repeat constructor. }
  destruct (compareFn x.2 y.2) eqn:E.
  - constructor; [by constructor|]. constructor.
    + apply compareFn_not_Gt. congruence.
    + eapply list.Forall_impl; [exact Hy|]. intros z Hz. unfold nodeLe in *.
      eapply dle_trans; [|exact Hz]. apply compareFn_not_Gt. congruence.
  - constructor; [by constructor|]. constructor.
    + apply compareFn_not_Gt. congruence.
    + eapply list.Forall_impl; [exact Hy|]. intros z Hz. unfold nodeLe in *.
      eapply dle_trans; [|exact Hz]. apply compareFn_not_Gt. congruence.
  - constructor; [done|]. rewrite insertNode_perm. constructor; [|done].
    by apply compareFn_Gt.
Qed.

Lemma sortNodes_sorted l : StronglySorted nodeLe (sortNodes l).
Proof.
  induction l as [|x l IH]; simpl; [constructor|]. by apply insertNode_sorted.
Qed.

(** The node taken by [shift()] after the sort is a closest one. *)
Lemma sortNodes_head l x rest :
  sortNodes l = x :: rest ->
  x ∈ l /\ x :: rest ≡ₚ l /\ Forall (nodeLe x) l.
Proof.
  intros H. pose proof (sortNodes_perm l) as Hp. pose proof (sortNodes_sorted l) as Hs.
  rewrite H in Hp, Hs. split_and!.
  - rewrite <- Hp. apply list_elem_of_here.
  - done.
  - rewrite <- Hp. apply StronglySorted_inv in Hs as [_ Hall].
    constructor; [apply dle_refl|done].
Qed.

Lemma resolve_Ok g ps :
  Forall (fun p => is_Some (cellAt g p)) ps ->
  exists nodes, resolve g ps = Ok nodes /\ nodes.*1 = ps /\
                Forall (fun x => cellAt g x.1 = Some x.2) nodes.
Proof.
  induction 1 as [|p ps [c Hc] _ (nodes & IH1 & IH2 & IH3)]; cbn [resolve].
  { by exists []. }
  rewrite Hc, IH1. cbn. exists ((p, c) :: nodes). split_and!; try done.
  - cbn. by rewrite IH2.
  - by constructor.
Qed.

Lemma ltDistance_spec n d : ltDistance n d = true <-> ~ dle d (Finite n).
Proof. destruct d as [m|]; simpl; [rewrite Nat.ltb_lt; lia|tauto]. Qed.

Lemma relax_spec cur d ns g :
  Forall (fun n => is_Some (cellAt g n)) ns ->
  exists g', relax cur d ns g = Ok g' /\
             forall q, cellAt g' q = relaxCell cur d ns q <$> cellAt g q.
Proof.
  revert g. induction ns as [|n ns IH]; intros g Hns; cbn [relax].
  { exists g. split; [done|]. intros q. unfold relaxCell.
    rewrite bool_decide_eq_false_2 by apply not_elem_of_nil. cbn.
    by destruct (cellAt g q). }
  apply list.Forall_cons in Hns as [[c Hc] Hns]. rewrite Hc. cbn [ofOption mbind Result_bind bindR].
  destruct (isVisited c || bool_decide (type c = TWall)) eqn:Hskip.
  - destruct (IH g Hns) as (g' & Hg' & Hspec). exists g'. split; [done|].
    intros q. rewrite Hspec. destruct (cellAt g q) as [cq|] eqn:Hq; [|done]. cbn.
    f_equal. unfold relaxCell. destruct (decide (q = n)) as [->|Hne].
    + assert (relaxable d cq = false) as ->.
      { rewrite Hc in Hq. injection Hq as ->. unfold relaxable.
        destruct (isVisited cq); [done|]. cbn in *. by rewrite Hskip. }
      by rewrite !andb_false_r.
    + assert (bool_decide (q ∈ n :: ns) = bool_decide (q ∈ ns)) as ->; [|done].
      apply bool_decide_ext. rewrite elem_of_cons. naive_solver.
  - destruct (ltDistance (d + 1) (distance c)) eqn:Hlt.
    + destruct (IH (updCell (with_relaxed (Finite (d + 1)) (Some cur)) n g))
        as (g' & Hg' & Hspec).
      { eapply list.Forall_impl; [exact Hns|]. intros q [cq Hq].
        rewrite cellAt_updCell. destruct (decide (n = q)); rewrite Hq; simpl; by eexists. }
      exists g'. split; [done|]. intros q. rewrite Hspec, cellAt_updCell.
      destruct (decide (n = q)) as [->|Hne].
      * rewrite Hc. cbn. f_equal. unfold relaxCell.
        rewrite (bool_decide_eq_true_2 (q ∈ q :: ns)) by apply list_elem_of_here.
        assert (relaxable d c = true) as ->.
        { unfold relaxable. apply orb_false_iff in Hskip as [-> ->]. by rewrite Hlt. }
        assert (relaxable d (with_relaxed (Finite (d + 1)) (Some cur) c) = false) as ->.
        { unfold relaxable, with_relaxed. cbn [distance ltDistance]. rewrite Nat.ltb_irrefl. by rewrite andb_false_r. }
        by rewrite andb_false_r.
      * destruct (cellAt g q) as [cq|]; [|done]. cbn. f_equal. unfold relaxCell.
        assert (bool_decide (q ∈ n :: ns) = bool_decide (q ∈ ns)) as ->; [|done].
        apply bool_decide_ext. rewrite elem_of_cons. naive_solver.
    + destruct (IH g Hns) as (g' & Hg' & Hspec). exists g'. split; [done|].
      intros q. rewrite Hspec. destruct (cellAt g q) as [cq|] eqn:Hq; [|done]. cbn.
      f_equal. unfold relaxCell. destruct (decide (q = n)) as [->|Hne].
      * assert (relaxable d cq = false) as ->.
        { rewrite Hc in Hq. injection Hq as ->. unfold relaxable.
          by rewrite Hlt, andb_false_r. }
        by rewrite !andb_false_r.
      * assert (bool_decide (q ∈ n :: ns) = bool_decide (q ∈ ns)) as ->; [|done].
        apply bool_decide_ext. rewrite elem_of_cons. naive_solver.
Qed.

Lemma persistentType_wall t : persistentType t = TWall <-> t = TWall.
Proof. destruct t; simpl; naive_solver. Qed.

Lemma reconstruct_chain g st :
  (forall p c, cellAt g p = Some c -> chainOk g st p c) ->
  forall n fuel p c acc,
    cellAt g p = Some c -> distance c = Finite n -> (n < fuel)%nat ->
    exists path, reconstruct fuel g (Some p) acc = Ok (path ++ acc) /\
                 length path = S n /\
                 (exists c0 rest, path = c0 :: rest /\ cellAt g st = Some c0 /\
                                  distance c0 = Finite 0 /\ previous c0 = None) /\
                 (exists front, path = front ++ [c]) /\
                 Forall (fun c => exists q, cellAt g q = Some c) path.
Proof.
  intros Hchain. induction n as [|n IH]; intros fuel p c acc Hc Hd Hfuel.
  - destruct fuel as [|fuel]; [lia|]. cbn [reconstruct]. rewrite Hc.
    cbn [ofOption mbind Result_bind bindR].
    pose proof (Hchain _ _ Hc) as Hch. unfold chainOk in Hch. rewrite Hd in Hch.
    destruct Hch as [Hprev ->]. rewrite Hprev.
    exists [c]. split_and!.
    + by destruct fuel.
    + done.
    + by exists c, [].
    + by exists [].
    + constructor; [by exists st|constructor].
  - destruct fuel as [|fuel]; [lia|]. cbn [reconstruct]. rewrite Hc.
    cbn [ofOption mbind Result_bind bindR].
    pose proof (Hchain _ _ Hc) as Hch. unfold chainOk in Hch. rewrite Hd in Hch.
    destruct Hch as (q & cq & Hprev & Hq & _ & Hdq). rewrite Hprev.
    destruct (IH fuel q cq (c :: acc) Hq Hdq)
      as (path & Hr & Hlen & Hhead & Hlast & Hall); [lia|].
    exists (path ++ [c]). rewrite <- app_assoc. split_and!.
    + done.
    + rewrite length_app. cbn. lia.
    + destruct Hhead as (c0 & rest & -> & ?). exists c0, (rest ++ [c]). done.
    + by exists path.
    + apply Forall_app. split; [done|]. constructor; [by exists p|constructor].
Qed.

Section Run.
Variables (g0 : Grid) (st en : Coord).
Hypothesis Hwf : wellFormed g0.

Abbreviation Inv := (Inv g0 st en).

Lemma Inv_cell s p c :
  Inv s -> cellAt (currentGrid s) p = Some c ->
  inBounds p = true /\ coordOf c = p /\
  exists c0, cellAt g0 p = Some c0 /\ type c = persistentType (type c0).
Proof.
  intros HI Hc. pose proof (inv_fixed _ _ _ _ HI p) as Hf. rewrite Hc in Hf.
  destruct (cellAt g0 p) as [c0|] eqn:Hc0; [|done]. cbn in Hf.
  assert (coordOf c = coordOf c0 /\ type c = persistentType (type c0)) as [Hco Hty]
    by (split; congruence).
  destruct (wellFormed_Some _ _ _ Hwf Hc0) as [Hb Hco0].
  split_and!; [done|congruence|by exists c0].
Qed.

Lemma Inv_inBounds s p :
  Inv s -> inBounds p = true -> is_Some (cellAt (currentGrid s) p).
Proof.
  intros HI Hb. pose proof (inv_fixed _ _ _ _ HI p) as Hf.
  destruct (wellFormed_inBounds _ _ Hwf Hb) as (c0 & Hc0 & _). rewrite Hc0 in Hf.
  destruct (cellAt (currentGrid s) p); [by eexists|done].
Qed.

Lemma collectNeighbors_total g r c ds :
  (forall p, inBounds p = true -> is_Some (cellAt g p)) ->
  collectNeighbors g r c ds =
  Ok (filter (fun p => inBounds p = true) (offsetBy (r, c) <$> ds)).
Proof.
  intros Htot. induction ds as [|[dr dc] ds IH]; cbn [collectNeighbors]; [done|].
  rewrite fmap_cons. unfold offsetBy at 1. cbn [fst snd].
  destruct (inBounds (r + dr, c + dc)) eqn:Hb.
  - destruct (Htot _ Hb) as [cell ->].
    rewrite IH. cbn [ofOption mbind Result_bind bindR]. by rewrite filter_cons_True.
  - rewrite IH. by rewrite filter_cons_False by (by rewrite Hb).
Qed.

Lemma turnCell_fixed cur d q c :
  coordOf (turnCell cur d q c) = coordOf c /\ type (turnCell cur d q c) = type c.
Proof.
  unfold turnCell, relaxCell. destruct (bool_decide (q = cur)); [done|].
  by destruct (bool_decide (q ∈ neighborsOf cur) && relaxable d c).
Qed.

Lemma turnCell_isVisited cur d q c :
  isVisited (turnCell cur d q c) = bool_decide (q = cur) || isVisited c.
Proof.
  unfold turnCell, relaxCell. destruct (bool_decide (q = cur)); [done|].
  by destruct (bool_decide (q ∈ neighborsOf cur) && relaxable d c).
Qed.

(** A finalized object is left alone by later turns. *)
Lemma turnCell_visited cur d q c :
  isVisited c = true -> q <> cur -> turnCell cur d q c = c.
Proof.
  intros Hv Hq. unfold turnCell, relaxCell, relaxable.
  rewrite bool_decide_eq_false_2 by done. rewrite Hv. cbn.
  by rewrite andb_false_r.
Qed.

Lemma turnCell_distance cur d q c :
  (distance (turnCell cur d q c) = distance c /\
   previous (turnCell cur d q c) = previous c) \/
  (q <> cur /\ q ∈ neighborsOf cur /\ relaxable d c = true /\
   turnCell cur d q c = with_relaxed (Finite (d + 1)) (Some cur) c).
Proof.
  unfold turnCell, relaxCell. destruct (bool_decide (q = cur)) eqn:E1; [by left|].
  apply bool_decide_eq_false in E1.
  destruct (bool_decide (q ∈ neighborsOf cur)) eqn:E2; [|by left].
  apply bool_decide_eq_true in E2.
  destruct (relaxable d c) eqn:E3; [|by left]. by right.
Qed.

Lemma relaxable_inv d c :
  relaxable d c = true ->
  isVisited c = false /\ type c <> TWall /\ ~ dle (distance c) (Finite (d + 1)).
Proof.
  unfold relaxable. intros H. apply andb_true_iff in H as [H H3].
  apply andb_true_iff in H as [H1 H2]. apply negb_true_iff in H1, H2.
  apply bool_decide_eq_false in H2. by apply ltDistance_spec in H3.
Qed.

Lemma not_relaxable d c :
  relaxable d c = false ->
  isVisited c = true \/ type c = TWall \/ dle (distance c) (Finite (d + 1)).
Proof.
  unfold relaxable. intros H. apply andb_false_iff in H as [H|H].
  - apply andb_false_iff in H as [H|H]; apply negb_false_iff in H.
    + by left.
    + apply bool_decide_eq_true in H. by right; left.
  - right; right. destruct (distance c) as [m|]; [|done].
    cbn in *. apply Nat.ltb_ge in H. lia.
Qed.

Lemma loopBody_pick s :
  Inv s -> unvisitedNodes s <> [] ->
  exists cur c, Pick s cur c /\
    match distance c with
    | POSITIVE_INFINITY => loopBody en s = Ok MinInfinite
    | Finite d =>
        if decide (cur = en)
        then exists path,
               loopBody en s = Ok (Reached c (S (visitedCounter s)) path) /\
               pathOk st c d path
        else exists s', loopBody en s = Ok (Continue c s') /\ Step s cur d s'
    end.
Proof.
  intros HI Hne. unfold loopBody.
  destruct (unvisitedNodes s) as [|p0 ps] eqn:Hpool; [done|]. rewrite <- Hpool. clear Hne.
  destruct (resolve_Ok (currentGrid s) (unvisitedNodes s)) as (nodes & -> & Hfst & Hcells).
  { apply list.Forall_forall. intros p Hp. apply (inv_pool _ _ _ _ HI) in Hp as (c & -> & _).
    by eexists. }
  cbn [mbind Result_bind bindR].
  rewrite list.Forall_forall in Hcells.
  destruct (sortNodes nodes) as [|[cur c] rest] eqn:Hsort.
  { pose proof (sortNodes_perm nodes) as Hp. rewrite Hsort in Hp.
    apply Permutation_nil_l in Hp. subst nodes. cbn in Hfst. congruence. }
  destruct (sortNodes_head _ _ _ Hsort) as (Hin & Hperm & Hmin).
  rewrite list.Forall_forall in Hmin.
  assert (cellAt (currentGrid s) cur = Some c) as Hc by apply (Hcells _ Hin).
  assert (Pick s cur c) as HP.
  { split_and!; try done.
    - rewrite <- Hfst. apply list_elem_of_fmap. by exists (cur, c).
    - intros q cq Hq Hcq. rewrite <- Hfst in Hq.
      apply list_elem_of_fmap in Hq as ([q' cq'] & -> & Hq').
      pose proof (Hcells _ Hq') as E. cbn in E, Hcq. rewrite Hcq in E. injection E as <-.
      apply (Hmin _ Hq'). }
  exists cur, c. split; [done|].
  destruct (distance c) as [d|] eqn:Hd; [|done].
  destruct (Inv_cell _ _ _ HI Hc) as (Hb & Hco & _).
  assert (forall q, cellAt (updCell (with_isVisited true) cur (currentGrid s)) q =
                    (if decide (cur = q) then with_isVisited true else id) <$>
                      cellAt (currentGrid s) q) as Hg1.
  { intros q. rewrite cellAt_updCell. destruct (decide (cur = q)); [done|].
    by destruct (cellAt (currentGrid s) q). }
  assert (row c = en.1 /\ col c = en.2 <-> cur = en) as Hiff.
  { rewrite <- Hco. unfold coordOf. destruct en. cbn. naive_solver. }
  destruct (decide (cur = en)) as [Hen|Hen];
    destruct (decide (row c = en.1 /\ col c = en.2)) as [Hen'|Hen']; try tauto.
  - destruct (reconstruct_chain (updCell (with_isVisited true) cur (currentGrid s)) st)
      with (n := d) (fuel := S (visitedCounter s)) (p := cur)
           (c := with_isVisited true c) (acc := @nil Cell)
      as (path & Hr & Hlen & (c0 & tl & Hpath & Hc0 & Hd0 & Hp0) & Hlast & Hall).
    + intros p cp. rewrite Hg1. intros Hcp.
      destruct (cellAt (currentGrid s) p) as [cp0|] eqn:Hcp0; [|done].
      injection Hcp as <-.
      pose proof (inv_chain _ _ _ _ HI p cp0 Hcp0) as Hch. unfold chainOk in *.
      assert (distance ((if decide (cur = p) then with_isVisited true else id) cp0)
              = distance cp0) as -> by (by destruct (decide (cur = p))).
      assert (previous ((if decide (cur = p) then with_isVisited true else id) cp0)
              = previous cp0) as -> by (by destruct (decide (cur = p))).
      destruct (distance cp0) as [[|n]|]; try done.
      destruct Hch as (q & cq & Hprev & Hq & Hv & Hdq).
      exists q, ((if decide (cur = q) then with_isVisited true else id) cq).
      rewrite Hg1, Hq. split_and!; try done; by destruct (decide (cur = q)).
    + by rewrite Hg1, Hc, decide_True.
    + done.
    + pose proof (inv_count _ _ _ _ HI _ _ _ Hc Hd). lia.
    + rewrite app_nil_r in Hr. rewrite Hr. cbn [mbind Result_bind bindR].
      exists path. split; [done|]. split_and!; try done.
      * exists c0, tl. split_and!; try done.
        rewrite Hg1 in Hc0. destruct (cellAt (currentGrid s) st) as [cst|] eqn:Hst; [|done].
        destruct (Inv_cell _ _ _ HI Hst) as (_ & <- & _). injection Hc0 as <-.
        by destruct (decide (cur = coordOf cst)).
      * eapply list.Forall_impl; [exact Hall|]. intros cp [q Hq]. cbn.
        rewrite Hg1 in Hq. destruct (cellAt (currentGrid s) q) as [cq|] eqn:Hcq; [|done].
        destruct (Inv_cell _ _ _ HI Hcq) as (Hbq & Hcoq & _). injection Hq as <-.
        assert (coordOf ((if decide (cur = q) then with_isVisited true else id) cq)
                = coordOf cq) as -> by (by destruct (decide (cur = q))).
        by rewrite Hcoq.
  - unfold getNeighbors. rewrite collectNeighbors_total.
    2: { intros p Hp. rewrite Hg1. destruct (Inv_inBounds _ _ HI Hp) as [cp ->].
         by eexists. }
    cbn [mbind Result_bind bindR].
    change (row c, col c) with (coordOf c). rewrite Hco.
    change (filter (λ p, inBounds p = true) (offsetBy cur <$> directions))
      with (neighborsOf cur).
    destruct (relax_spec cur d (neighborsOf cur)
                (updCell (with_isVisited true) cur (currentGrid s)))
      as (g2 & -> & Hg2).
    { apply list.Forall_forall. intros p Hp. apply list_elem_of_filter in Hp as [Hp _].
      rewrite Hg1. destruct (Inv_inBounds _ _ HI Hp) as [cp ->]. by eexists. }
    cbn [mbind Result_bind bindR]. eexists. split; [done|].
    split_and!; cbn [visitedCounter unvisitedNodes currentGrid].
    + done.
    + rewrite <- Hfst, <- Hperm. done.
    + intros q. rewrite Hg2, Hg1. destruct (cellAt (currentGrid s) q) as [cq|]; [|done].
      cbn. f_equal. unfold turnCell. destruct (decide (cur = q)) as [<-|Hq].
      * rewrite bool_decide_eq_true_2 by done. unfold relaxCell, relaxable. cbn.
        by rewrite andb_false_r.
      * rewrite bool_decide_eq_false_2 by done. done.
Qed.

Lemma Step_cell s cur d s' q c' :
  Step s cur d s' -> cellAt (currentGrid s') q = Some c' ->
  exists c, cellAt (currentGrid s) q = Some c /\ c' = turnCell cur d q c.
Proof.
  intros (_ & _ & Hg) Hc'. rewrite Hg in Hc'.
  destruct (cellAt (currentGrid s) q) as [c|]; [|done].
  injection Hc' as <-. by exists c.
Qed.

Lemma Step_pool s cur d s' q :
  NoDup (unvisitedNodes s) -> Step s cur d s' ->
  q ∈ unvisitedNodes s' <-> q ∈ unvisitedNodes s /\ q <> cur.
Proof.
  intros Hnd (_ & Hperm & _). rewrite <- Hperm in Hnd.
  apply list.NoDup_cons in Hnd as [Hnotin _].
  rewrite <- Hperm, elem_of_cons. naive_solver.
Qed.

(** The invariant survives a turn that goes on. *)
Lemma Inv_step s cur c d s' :
  Inv s -> Pick s cur c -> distance c = Finite d -> cur <> en ->
  Step s cur d s' -> Inv s'.
Proof.
  intros HI (Hcur & Hc & Hmin) Hd Hen HS.
  pose proof (proj1 (inv_pool _ _ _ _ HI cur) Hcur) as (c_ & Hc_ & Hcv & Hcw).
  rewrite Hc in Hc_. injection Hc_ as <-.
  assert (cellAt (currentGrid s') cur = Some (with_isVisited true c)) as Hcur'.
  { destruct HS as (_ & _ & Hg). rewrite Hg, Hc. cbn. unfold turnCell.
    by rewrite bool_decide_eq_true_2. }
  assert (forall q cq, cellAt (currentGrid s) q = Some cq -> isVisited cq = true ->
                       cellAt (currentGrid s') q = Some cq) as Hkeep.
  { intros q cq Hq Hv. destruct HS as (_ & _ & Hg). rewrite Hg, Hq. cbn.
    rewrite turnCell_visited; [done..|]. intros ->. congruence. }
  constructor.
  - intros p. destruct HS as (_ & _ & Hg). rewrite Hg.
    rewrite <- (inv_fixed _ _ _ _ HI p).
    destruct (cellAt (currentGrid s) p) as [cp|]; [|done]. cbn.
    destruct (turnCell_fixed cur d p cp) as [-> ->]. done.
  - destruct HS as (_ & Hperm & _). pose proof (inv_nodup _ _ _ _ HI) as Hnd.
    rewrite <- Hperm in Hnd. by apply list.NoDup_cons in Hnd as [_ ?].
  - intros p. rewrite (Step_pool _ _ _ _ _ (inv_nodup _ _ _ _ HI) HS).
    rewrite (inv_pool _ _ _ _ HI p). destruct HS as (_ & _ & Hg). rewrite Hg. split.
    + intros [(cp & Hcp & Hv & Hw) Hne]. exists (turnCell cur d p cp).
      rewrite Hcp. split; [done|]. rewrite turnCell_isVisited.
      destruct (turnCell_fixed cur d p cp) as [_ ->].
      rewrite bool_decide_eq_false_2 by done. done.
    + intros (cp' & Hcp' & Hv & Hw).
      destruct (cellAt (currentGrid s) p) as [cp|] eqn:Hcp; [|done].
      injection Hcp' as <-. rewrite turnCell_isVisited in Hv.
      apply orb_false_iff in Hv as [Hne Hv]. apply bool_decide_eq_false in Hne.
      destruct (turnCell_fixed cur d p cp) as [_ Ht]. rewrite Ht in Hw.
      split; [|done]. by exists cp.
  - intros p cp' Hcp'. destruct (Step_cell _ _ _ _ _ _ HS Hcp') as (cp & Hcp & ->).
    pose proof (inv_chain _ _ _ _ HI p cp Hcp) as Hch.
    destruct (turnCell_distance cur d p cp) as [[Hdd Hpp]|(Hne & Hnb & Hrel & ->)].
    + unfold chainOk in *. rewrite Hdd, Hpp.
      destruct (distance cp) as [[|n]|]; try done.
      destruct Hch as (q & cq & Hprev & Hq & Hv & Hdq).
      exists q, cq. split_and!; try done. by apply Hkeep.
    + unfold chainOk, with_relaxed. cbn [distance previous].
      rewrite Nat.add_1_r. exists cur, (with_isVisited true c). done.
  - intros cst' Hcst'. destruct (Step_cell _ _ _ _ _ _ HS Hcst') as (cst & Hcst & ->).
    pose proof (inv_start _ _ _ _ HI cst Hcst) as H0.
    destruct (turnCell_distance cur d st cst) as [[Hdd _]|(_ & _ & Hrel & _)].
    + congruence.
    + apply relaxable_inv in Hrel as (_ & _ & Hlt). rewrite H0 in Hlt. cbn in Hlt. lia.
  - intros p cp' n Hcp' Hn. destruct (Step_cell _ _ _ _ _ _ HS Hcp') as (cp & Hcp & ->).
    destruct HS as (-> & _ & _).
    destruct (turnCell_distance cur d p cp) as [[Hdd _]|(_ & _ & _ & E)].
    + rewrite Hdd in Hn. pose proof (inv_count _ _ _ _ HI _ _ _ Hcp Hn). lia.
    + rewrite E in Hn. cbn in Hn. injection Hn as <-.
      pose proof (inv_count _ _ _ _ HI _ _ _ Hc Hd). lia.
  - intros p cp' Hcp' Hv'. destruct (Step_cell _ _ _ _ _ _ HS Hcp') as (cp & Hcp & ->).
    rewrite turnCell_isVisited in Hv'. destruct (turnCell_fixed cur d p cp) as [_ Hty].
    rewrite Hty. destruct (decide (p = cur)) as [->|Hne].
    + rewrite Hc in Hcp. injection Hcp as <-. split_and!; try done.
      exists d. split.
      { unfold turnCell. by rewrite bool_decide_eq_true_2. }
      intros q cq' Hq Hcq' Hw. destruct (Step_cell _ _ _ _ _ _ HS Hcq') as (cq & Hcq & ->).
      destruct (turnCell_fixed cur d q cq) as [_ Htq]. rewrite Htq in Hw.
      rewrite turnCell_isVisited.
      destruct (decide (q = cur)) as [->|Hqne].
      { left. by rewrite bool_decide_eq_true_2. }
      unfold turnCell. rewrite (bool_decide_eq_false_2 (q = cur)) by done.
      unfold relaxCell. rewrite (bool_decide_eq_true_2 (q ∈ neighborsOf cur)) by done.
      cbn [andb orb]. destruct (relaxable d cq) eqn:Hrel.
      * right. cbn. lia.
      * destruct (not_relaxable _ _ Hrel) as [Hv|[Hw'|Hle]]; [by left|done|by right].
    + rewrite bool_decide_eq_false_2 in Hv' by done. cbn in Hv'.
      destruct (inv_visited _ _ _ _ HI p cp Hcp Hv') as (Hpen & Hw & n & Hn & Hclosed).
      split_and!; try done. exists n. rewrite turnCell_visited by done.
      split; [done|].
      intros q cq' Hq Hcq' Hwq. destruct (Step_cell _ _ _ _ _ _ HS Hcq') as (cq & Hcq & ->).
      destruct (turnCell_fixed cur d q cq) as [_ Htq]. rewrite Htq in Hwq.
      rewrite turnCell_isVisited.
      destruct (Hclosed q cq Hq Hcq Hwq) as [Hvq|Hle].
      { left. rewrite Hvq. by rewrite orb_true_r. }
      destruct (turnCell_distance cur d q cq) as [[Hdd _]|(_ & _ & Hrel & E)].
      * right. by rewrite Hdd.
      * right. rewrite E. cbn [distance with_relaxed].
        apply relaxable_inv in Hrel as (_ & _ & Hlt).
        destruct (distance cq) as [m|]; cbn in *; [lia|done].
  - intros p cp' n Hcp' Hw Hn. destruct (Step_cell _ _ _ _ _ _ HS Hcp') as (cp & Hcp & ->).
    destruct (turnCell_fixed cur d p cp) as [_ Hty]. rewrite Hty in Hw.
    destruct (turnCell_distance cur d p cp) as [[Hdd _]|(_ & Hnb & _ & _)].
    + rewrite Hdd in Hn. by eapply (inv_reach _ _ _ _ HI).
    + destruct (Inv_cell _ _ _ HI Hcp) as (_ & _ & cp0 & Hcp0 & Htp).
      eapply reachable_step; [|exact Hnb|exact Hcp0|].
      * by eapply (inv_reach _ _ _ _ HI cur c d).
      * intros E. apply Hw. rewrite Htp, E. done.
Qed.
End Run.

(** ** The start of a run *)

Lemma elem_of_allPositions p : p ∈ allPositions <-> inBounds p = true.
Proof.
  unfold allPositions, inBounds. rewrite list_elem_of_bind. split.
  - intros (r & Hp & Hr). apply list_elem_of_fmap in Hp as (c & -> & Hc).
    apply elem_of_seqZ in Hr, Hc. cbn.
    repeat (apply andb_true_iff; split); lia.
  - intros H. apply andb_true_iff in H as [H H4]. apply andb_true_iff in H as [H H3].
    apply andb_true_iff in H as [H1 H2].
    exists p.1. split.
    + apply list_elem_of_fmap. exists p.2. split; [by destruct p|].
      apply elem_of_seqZ. lia.
    + apply elem_of_seqZ. lia.
Qed.

Lemma NoDup_allPositions : NoDup allPositions.
Proof.
  unfold allPositions. apply NoDup_bind.
  - intros r1 r2 p _ _ H1 H2.
    apply list_elem_of_fmap in H1 as (c1 & -> & _).
    apply list_elem_of_fmap in H2 as (c2 & E & _). congruence.
  - intros r _. apply NoDup_fmap_2_strong; [|apply NoDup_seqZ]. congruence.
  - apply NoDup_seqZ.
Qed.

Lemma collectUnvisited_spec g ps :
  Forall (fun p => is_Some (cellAt g p)) ps ->
  collectUnvisited g ps = Ok (filter (notWallAt g) ps).
Proof.
  induction 1 as [|p ps [c Hc] _ IH]; cbn [collectUnvisited]; [done|].
  rewrite Hc, IH. cbn [ofOption mbind Result_bind bindR]. f_equal.
  destruct (decide (type c = TWall)) as [E|E].
  - rewrite filter_cons_False; [done|]. unfold notWallAt, typeAt. rewrite Hc. cbn.
    intros H. apply H. by rewrite E.
  - rewrite filter_cons_True; [done|]. unfold notWallAt, typeAt. rewrite Hc. cbn.
    congruence.
Qed.

Section Start.
Variables (g0 : Grid) (st en : Coord).
Hypothesis Hwf : wellFormed g0.

Lemma workingCopy_cell p :
  cellAt (workingCopy st g0) p = workingCell st <$> cellAt g0 p.
Proof. apply cellAt_fmap. Qed.

Lemma initialRunState_Ok :
  exists s0, initialRunState g0 st = Ok s0 /\ Inv g0 st en s0 /\
             visitedCounter s0 = 0%nat /\
             (forall p c, cellAt (currentGrid s0) p = Some c -> isVisited c = false).
Proof.
  unfold initialRunState. rewrite collectUnvisited_spec.
  2: { apply list.Forall_forall. intros p Hp. apply elem_of_allPositions in Hp.
       rewrite workingCopy_cell.
       destruct (wellFormed_inBounds _ _ Hwf Hp) as (c & -> & _). by eexists. }
  cbn [mbind Result_bind bindR]. eexists. split; [done|].
  assert (forall p c, cellAt (workingCopy st g0) p = Some c ->
            exists c0, cellAt g0 p = Some c0 /\ c = workingCell st c0 /\
                       inBounds p = true /\ coordOf c0 = p) as Hcell.
  { intros p c. rewrite workingCopy_cell. intros Hc.
    destruct (cellAt g0 p) as [c0|] eqn:Hc0; [|done]. injection Hc as <-.
    destruct (wellFormed_Some _ _ _ Hwf Hc0). by exists c0. }
  split_and!; cbn [visitedCounter]; try done.
  2: { intros p c Hc. cbn in Hc. by destruct (Hcell _ _ Hc) as (c0 & _ & -> & _). }
  constructor; cbn [currentGrid unvisitedNodes visitedCounter].
  - intros p. rewrite workingCopy_cell. by destruct (cellAt g0 p).
  - apply list.NoDup_filter, NoDup_allPositions.
  - intros p. rewrite list_elem_of_filter, elem_of_allPositions.
    unfold notWallAt, typeAt. split.
    + intros [Hw Hb]. rewrite workingCopy_cell in *.
      destruct (wellFormed_inBounds _ _ Hwf Hb) as (c0 & Hc0 & _). rewrite Hc0 in *.
      eexists. split; [done|]. cbn in *. split; [done|]. congruence.
    + intros (c & Hc & _ & Hw). destruct (Hcell _ _ Hc) as (c0 & _ & _ & Hb & _).
      rewrite Hc. cbn. split; [congruence|done].
  - intros p c Hc. destruct (Hcell _ _ Hc) as (c0 & Hc0 & -> & Hb & Hco).
    unfold chainOk, workingCell. cbn [distance previous].
    destruct (decide (row c0 = st.1 /\ col c0 = st.2)) as [[E1 E2]|]; [|done].
    split; [done|]. rewrite <- Hco. unfold coordOf. destruct st. cbn in *. congruence.
  - intros c Hc. destruct (Hcell _ _ Hc) as (c0 & Hc0 & -> & Hb & Hco).
    unfold workingCell. cbn [distance].
    rewrite decide_True; [done|]. unfold coordOf in Hco. destruct st. cbn in *.
    split; congruence.
  - intros p c n Hc Hn. destruct (Hcell _ _ Hc) as (c0 & Hc0 & -> & Hb & Hco).
    unfold workingCell in Hn. cbn [distance] in Hn.
    destruct (decide (row c0 = st.1 /\ col c0 = st.2)); [|done]. injection Hn as <-. lia.
  - intros p c Hc Hv. by destruct (Hcell _ _ Hc) as (c0 & Hc0 & -> & Hb & Hco).
  - intros p c n Hc Hw Hn. destruct (Hcell _ _ Hc) as (c0 & Hc0 & -> & Hb & Hco).
    unfold workingCell in Hn, Hw. cbn [distance type] in Hn, Hw.
    destruct (decide (row c0 = st.1 /\ col c0 = st.2)) as [[E1 E2]|]; [|done].
    assert (p = st) as ->.
    { rewrite <- Hco. unfold coordOf. destruct st. cbn in *. congruence. }
    eapply reachable_start; [exact Hc0|]. intros E. apply Hw. by rewrite E.
Qed.
End Start.

Lemma StronglySorted_nondecreasing l :
  StronglySorted cellLe l -> nondecreasing l.
Proof.
  induction 1 as [|c l Hs IH Hall]; intros i j ci cj Hij Hi Hj; [done|].
  destruct i as [|i], j as [|j]; cbn in Hi, Hj.
  - simplify_eq. apply dle_refl.
  - simplify_eq. rewrite list.Forall_forall in Hall. apply Hall.
    by eapply list_elem_of_lookup_2.
  - lia.
  - apply (IH i j); [lia|done..].
Qed.

Section Loop.
Variables (g0 : Grid) (st en : Coord).
Hypothesis Hwf : wellFormed g0.

Abbreviation Inv := (Inv g0 st en).

(** Proof rule for the [while] loop: [P] holds at every evaluation of
    the loop condition, [Q] relates such a state to what the rest of
    the run produces. *)
Lemma whileLoop_rule (P : RunState -> Prop) (Q : RunState -> Run -> Prop) :
  (forall s, P s -> Inv s) ->
  (forall s, P s -> unvisitedNodes s = [] ->
     Q s (mkRun [] [] [] None (visitedCounter s) ExitEmpty [])) ->
  (forall s cur c, P s -> Pick s cur c -> distance c = POSITIVE_INFINITY ->
     Q s (mkRun [] [] [] None (visitedCounter s) ExitInfinite [])) ->
  (forall s c d path, P s -> Pick s en c -> distance c = Finite d ->
     pathOk st c d path ->
     Q s (mkRun (showCurrent c ++ pathEvents path) [c] path
            (Some (length path - 1)%nat) (S (visitedCounter s)) ExitReached
            (reachedSteps c (S (visitedCounter s)) path))) ->
  (forall s cur c d s', P s -> Pick s cur c -> distance c = Finite d -> cur <> en ->
     Step s cur d s' -> Inv s' ->
     P s' /\ forall run, Q s' run -> Q s (finalize c (showVisited c) (turnSteps c (visitedCounter s')) run)) ->
  forall fuel s, P s -> (length (unvisitedNodes s) < fuel)%nat ->
    exists run, whileLoop fuel en s = Ok run /\ Q s run.
Proof.
  intros HPI Hempty Hinf Hreach Hcont. induction fuel as [|fuel IH]; intros s HP Hfuel.
  { lia. }
  cbn [whileLoop]. destruct (decide (unvisitedNodes s = [])) as [E|E].
  { unfold loopBody. rewrite E. cbn [mbind Result_bind bindR]. eexists.
    split; [done|]. by apply Hempty. }
  destruct (loopBody_pick g0 st en Hwf s (HPI _ HP) E) as (cur & c & HPick & Hbody).
  destruct (distance c) as [d|] eqn:Hd.
  - destruct (decide (cur = en)) as [->|Hen].
    + destruct Hbody as (path & -> & Hpath). cbn [mbind Result_bind bindR].
      eexists. split; [done|]. by eapply Hreach.
    + destruct Hbody as (s' & -> & HS). cbn [mbind Result_bind bindR].
      pose proof (Inv_step g0 st en Hwf _ _ _ _ _ (HPI _ HP) HPick Hd Hen HS) as HI'.
      destruct (Hcont _ _ _ _ _ HP HPick Hd Hen HS HI') as [HP' HQ].
      destruct (IH s' HP') as (run & -> & Hrun).
      { destruct HS as (_ & Hperm & _). apply Permutation_length in Hperm.
        cbn in Hperm. lia. }
      cbn. eexists. split; [done|]. by apply HQ.
  - rewrite Hbody. cbn [mbind Result_bind bindR]. eexists. split; [done|].
    by eapply Hinf.
Qed.

Lemma loopStates_Inv fuel s s' :
  Inv s -> s' ∈ loopStates fuel en s -> Inv s'.
Proof.
  revert s. induction fuel as [|fuel IH]; intros s HI; cbn [loopStates].
  { by intros ?%elem_of_nil. }
  intros [->|Hin]%elem_of_cons; [done|].
  destruct (decide (unvisitedNodes s = [])) as [E|E].
  { unfold loopBody in Hin. rewrite E in Hin. by apply elem_of_nil in Hin. }
  destruct (loopBody_pick g0 st en Hwf s HI E) as (cur & c & HPick & Hbody).
  destruct (distance c) as [d|] eqn:Hd.
  - destruct (decide (cur = en)) as [->|Hen].
    + destruct Hbody as (path & Hb & _). rewrite Hb in Hin. by apply elem_of_nil in Hin.
    + destruct Hbody as (s1 & Hb & HS). rewrite Hb in Hin.
      apply (IH s1); [|done]. by eapply Inv_step.
  - rewrite Hbody in Hin. by apply elem_of_nil in Hin.
Qed.

(** The run returns; its finalization order is by non-decreasing
    distance. *)
Lemma whileLoop_sorted fuel s :
  Inv s -> (length (unvisitedNodes s) < fuel)%nat ->
  exists run, whileLoop fuel en s = Ok run /\
    forall k, (forall q cq, q ∈ unvisitedNodes s ->
                 cellAt (currentGrid s) q = Some cq -> dle k (distance cq)) ->
              Forall (fun c => dle k (distance c)) (finalizedNodes run) /\
              StronglySorted cellLe (finalizedNodes run).
Proof.
  revert fuel s.
  apply (whileLoop_rule (fun s => Inv s)
           (fun s run => forall k,
              (forall q cq, q ∈ unvisitedNodes s ->
                 cellAt (currentGrid s) q = Some cq -> dle k (distance cq)) ->
              Forall (fun c => dle k (distance c)) (finalizedNodes run) /\
              StronglySorted cellLe (finalizedNodes run))).
  - done.
  - intros. cbn. split; constructor.
  - intros. cbn. split; constructor.
  - intros s c d path _ (Hin & Hc & _) Hd _ k Hk. cbn. split.
    + constructor; [|constructor]. by eapply Hk.
    + repeat constructor.
  - intros s cur c d s' HI (Hin & Hc & Hmin) Hd Hen HS HI'. split; [done|].
    intros run Hrun k Hk. cbn [finalizedNodes finalize].
    destruct (Hrun (Finite d)) as [Hall Hsorted].
    { intros q cq' Hq Hcq'. destruct (Step_cell _ _ _ _ _ _ HS Hcq') as (cq & Hcq & ->).
      apply (Step_pool _ _ _ _ _ (inv_nodup _ _ _ _ HI) HS) in Hq as [Hq _].
      pose proof (Hmin _ _ Hq Hcq) as Hle. rewrite Hd in Hle.
      destruct (turnCell_distance cur d q cq) as [[-> _]|(_ & _ & _ & ->)]; [done|].
      cbn. lia. }
    pose proof (Hk _ _ Hin Hc) as Hkc. split.
    + constructor; [done|]. eapply list.Forall_impl; [exact Hall|].
      intros x Hx. cbn in Hx. eapply dle_trans; [exact Hkc|]. by rewrite Hd.
    + constructor; [done|]. eapply list.Forall_impl; [exact Hall|].
      intros x Hx. unfold cellLe. by rewrite Hd.
Qed.
End Loop.

(** C2.  On every well-formed grid the search returns, and the nodes
    in the order they were finalized have non-decreasing distances. *)
Theorem finalization_order_nondecreasing (g : Grid) (st en : Coord) :
  wellFormed g ->
  exists run, search g st en = Ok run /\ nondecreasing (finalizedNodes run).
Proof.
  intros Hwf. unfold search.
  destruct (initialRunState_Ok g st en Hwf) as (s0 & -> & HI & _).
  cbn [mbind Result_bind bindR].
  destruct (whileLoop_sorted g st en Hwf (S (length (unvisitedNodes s0))) s0 HI)
    as (run & Hrun & Hsorted); [lia|].
  exists run. split; [done|]. apply StronglySorted_nondecreasing.
  apply (Hsorted (Finite 0)). intros q cq _ _. destruct (distance cq); cbn; [lia|done].
Qed.

(** C2, witness: the run on the initial grid. *)
Lemma finalization_order_witness :
  exists run, search initialGrid defaultStart defaultEnd = Ok run /\
              nondecreasing (finalizedNodes run).
Proof.
  apply (finalization_order_nondecreasing initialGrid defaultStart defaultEnd).
  vm_compute. reflexivity.
Defined.

Lemma notWallAt_cell g p c : cellAt g p = Some c -> notWallAt g p <-> type c <> TWall.
Proof. intros H. unfold notWallAt, typeAt. rewrite H. cbn. split; congruence. Qed.

Section Outcomes.
Variables (g0 : Grid) (st en : Coord).
Hypothesis Hwf : wellFormed g0.

Abbreviation Inv := (Inv g0 st en).

(** While the loop runs, the end cell is in the pool if it is a cell of
    the grid and not a wall. *)
Lemma end_in_pool s :
  Inv s -> inBounds en = true -> notWallAt g0 en -> en ∈ unvisitedNodes s.
Proof.
  intros HI Hb Hw. destruct (Inv_inBounds _ _ _ Hwf _ _ HI Hb) as [c Hc].
  apply (inv_pool _ _ _ _ HI). exists c. split; [done|].
  destruct (Inv_cell _ _ _ Hwf _ _ _ HI Hc) as (_ & _ & c0 & Hc0 & Hty).
  split.
  - destruct (isVisited c) eqn:Hv; [|done].
    by destruct (inv_visited _ _ _ _ HI _ _ Hc Hv) as [? _].
  - rewrite Hty. rewrite persistentType_wall. by apply (notWallAt_cell _ _ _ Hc0).
Qed.


Lemma whileLoop_coincident fuel s :
  st = en ->
  Inv s -> visitedCounter s = 0%nat ->
  (exists c, cellAt (currentGrid s) st = Some c /\ isVisited c = false /\
             type c <> TWall) ->
  (0 < fuel)%nat ->
  exists run, whileLoop fuel en s = Ok run /\
    runPathLength run = Some 0%nat /\ runVisitedCount run = 1%nat /\
    (forall q, EvPath q ∉ events run) /\
    length (finalizedNodes run) = 1%nat /\ length (runPath run) = 1%nat /\
    runExit run = ExitReached /\
    coordOf <$> runPath run = [st] /\ Await ∉ script run.
Proof.
  intros Hse HI Hcount (cst & Hcst & Hv & Hw) Hfuel.
  destruct fuel as [|fuel]; [lia|]. cbn [whileLoop].
  assert (st ∈ unvisitedNodes s) as Hin.
  { apply (inv_pool _ _ _ _ HI). by exists cst. }
  destruct (loopBody_pick g0 st en Hwf s HI) as (cur & c & (Hcur & Hc & Hmin) & Hbody).
  { intros E. rewrite E in Hin. by apply elem_of_nil in Hin. }
  pose proof (Hmin _ _ Hin Hcst) as Hle.
  rewrite (inv_start _ _ _ _ HI _ Hcst) in Hle.
  destruct (distance c) as [[|d]|] eqn:Hd; cbn in Hle; try lia; try done.
  pose proof (inv_chain _ _ _ _ HI _ _ Hc) as Hch. unfold chainOk in Hch.
  rewrite Hd in Hch. destruct Hch as [_ ->].
  rewrite decide_True in Hbody by done.
  destruct Hbody as (path & -> & Hlen & (c0 & rest & -> & Hco & _) & _).
  cbn [mbind Result_bind bindR].
  destruct rest as [|c1 rest]; [|done].
  eexists. split; [done|].
  cbn [runPathLength runVisitedCount events finalizedNodes runPath runExit script].
  rewrite Hcount. split_and!; try done.
  - intros q. rewrite elem_of_app. unfold pathEvents. cbn.
    intros [Hq|Hq]; [|by apply elem_of_nil in Hq].
    unfold showCurrent in Hq. destruct (displayed c).
    + apply elem_of_cons in Hq as [Hq|Hq]; [done|]. by apply elem_of_nil in Hq.
    + by apply elem_of_nil in Hq.
  - cbn. by rewrite Hco.
  - unfold reachedSteps, showCurrent, pathEvents. destruct (displayed c); cbn;
      intros H; repeat (apply elem_of_cons in H as [H|H]; [discriminate|]);
      by apply elem_of_nil in H.
Qed.

Lemma whileLoop_total fuel s :
  Inv s -> (length (unvisitedNodes s) < fuel)%nat ->
  exists run, whileLoop fuel en s = Ok run /\
    (runExit run = ExitReached ->
     exists c0 rest cn front,
       runPath run = c0 :: rest /\ coordOf c0 = st /\
       distance c0 = Finite 0 /\ previous c0 = None /\
       runPath run = front ++ [cn] /\ coordOf cn = en /\
       runPathLength run = Some (length rest)).
Proof.
  revert fuel s.
  apply (whileLoop_rule g0 st en Hwf (fun s => Inv s)
           (fun s run =>
              runExit run = ExitReached ->
              exists c0 rest cn front,
                runPath run = c0 :: rest /\ coordOf c0 = st /\
                distance c0 = Finite 0 /\ previous c0 = None /\
                runPath run = front ++ [cn] /\ coordOf cn = en /\
                runPathLength run = Some (length rest))).
  - done.
  - done.
  - done.
  - intros s c d path HI (Hin & Hc & _) Hd (Hlen & (c0 & rest & -> & H0) & (front & Hf) & _) _.
    cbn. exists c0, rest, (with_isVisited true c), front.
    destruct (Inv_cell g0 st en Hwf _ _ _ HI Hc) as (_ & Hco & _).
    split_and!; try tauto. cbn. f_equal. lia.
  - intros s cur c d s' HI _ _ _ _ HI'. split; [done|]. intros run Hrun. cbn. done.
Qed.
End Outcomes.


Lemma search_coincident (g : Grid) (p : Coord) :
  wellFormed g ->
  inBounds p = true ->
  notWallAt g p ->
  exists run, search g p p = Ok run /\
    runPathLength run = Some 0%nat /\ runVisitedCount run = 1%nat /\
    (forall q, EvPath q ∉ events run) /\
    length (finalizedNodes run) = 1%nat /\ length (runPath run) = 1%nat /\
    runExit run = ExitReached /\
    coordOf <$> runPath run = [p] /\ Await ∉ script run.
Proof.
  intros Hwf Hb Hw. unfold search.
  destruct (initialRunState_Ok g p p Hwf) as (s0 & -> & HI & Hcount & Hfresh).
  cbn [mbind Result_bind bindR]. apply (whileLoop_coincident g p p Hwf); try done; [|lia].
  destruct (Inv_inBounds _ _ _ Hwf _ _ HI Hb) as [c Hc]. exists c.
  split_and!; [done|by eapply Hfresh|].
  destruct (Inv_cell _ _ _ Hwf _ _ _ HI Hc) as (_ & _ & c0 & Hc0 & ->).
  rewrite persistentType_wall. by apply (notWallAt_cell _ _ _ Hc0).
Qed.

(** C10.  At every evaluation of the loop condition the start cell has
    distance 0 and no predecessor.  The search returns, and when it
    reached the end, the reconstructed path begins with the start cell,
    where the walk over [previous] stopped, and ends with the end cell. *)
Theorem start_cell_never_relaxed (g : Grid) (st en : Coord) :
  wellFormed g ->
  inBounds st = true ->
  exists s0, initialRunState g st = Ok s0 /\
    (forall s, s ∈ loopStates (S (length (unvisitedNodes s0))) en s0 ->
       exists c, cellAt (currentGrid s) st = Some c /\
                 distance c = Finite 0 /\ previous c = None) /\
    exists run, search g st en = Ok run /\
      (runExit run = ExitReached ->
       exists c0 rest cn front,
         runPath run = c0 :: rest /\ coordOf c0 = st /\
         distance c0 = Finite 0 /\ previous c0 = None /\
         runPath run = front ++ [cn] /\ coordOf cn = en /\
         runPathLength run = Some (length rest)).
Proof.
  intros Hwf Hb. unfold search.
  destruct (initialRunState_Ok g st en Hwf) as (s0 & E & HI & _). rewrite E.
  exists s0. split; [done|]. split.
  - intros s Hs. pose proof (loopStates_Inv g st en Hwf _ _ _ HI Hs) as HIs.
    destruct (Inv_inBounds _ _ _ Hwf _ _ HIs Hb) as [c Hc]. exists c.
    split; [done|]. pose proof (inv_start _ _ _ _ HIs _ Hc) as Hd. split; [done|].
    pose proof (inv_chain _ _ _ _ HIs _ _ Hc) as Hch. unfold chainOk in Hch.
    rewrite Hd in Hch. tauto.
  - cbn [mbind Result_bind bindR]. apply (whileLoop_total g st en Hwf); [done|lia].
Qed.

(** ** Grids without walls *)

Lemma inBounds_spec p :
  inBounds p = true <-> 0 <= p.1 < GRID_ROWS /\ 0 <= p.2 < GRID_COLS.
Proof.
  unfold inBounds. rewrite !andb_true_iff, !Z.leb_le, !Z.ltb_lt. lia.
Qed.

Lemma elem_of_neighborsOf p q :
  q ∈ neighborsOf p <->
  inBounds q = true /\ exists d, d ∈ directions /\ q = offsetBy p d.
Proof.
  unfold neighborsOf. rewrite list_elem_of_filter, list_elem_of_fmap. naive_solver.
Qed.

Lemma manhattan_neighbor st p q :
  q ∈ neighborsOf p -> (manhattan st q <= manhattan st p + 1)%nat.
Proof.
  intros (_ & d & Hd & ->)%elem_of_neighborsOf. unfold manhattan, offsetBy, directions in *.
  repeat (apply elem_of_cons in Hd as [->|Hd]); [..|by apply elem_of_nil in Hd];
    cbn; lia.
Qed.

(** Away from the start there is always an in-bounds step back towards it. *)
Lemma step_towards st w n :
  inBounds st = true -> inBounds w = true -> manhattan st w = S n ->
  exists w', inBounds w' = true /\ manhattan st w' = n /\ w ∈ neighborsOf w'.
Proof.
  intros Hst%inBounds_spec Hw Hm. pose proof Hw as Hw'%inBounds_spec.
  destruct st as [sr sc], w as [wr wc]. unfold manhattan in *. cbn [fst snd] in *.
  destruct (Z.lt_trichotomy wr sr) as [H|[H|H]].
  - exists (wr + 1, wc). split_and!.
    + apply inBounds_spec. cbn. lia.
    + cbn. lia.
    + apply elem_of_neighborsOf. split; [done|]. exists (-1, 0). split.
      * unfold directions. apply list_elem_of_here.
      * unfold offsetBy. cbn. f_equal; lia.
  - destruct (Z.lt_trichotomy wc sc) as [H'|[H'|H']].
    + exists (wr, wc + 1). split_and!.
      * apply inBounds_spec. cbn. lia.
      * cbn. lia.
      * apply elem_of_neighborsOf. split; [done|]. exists (0, -1). split.
        -- unfold directions. do 3 apply list_elem_of_further. apply list_elem_of_here.
        -- unfold offsetBy. cbn. f_equal; lia.
    + lia.
    + exists (wr, wc - 1). split_and!.
      * apply inBounds_spec. cbn. lia.
      * cbn. lia.
      * apply elem_of_neighborsOf. split; [done|]. exists (0, 1). split.
        -- unfold directions. apply list_elem_of_further, list_elem_of_here.
        -- unfold offsetBy. cbn. f_equal; lia.
  - exists (wr - 1, wc). split_and!.
    + apply inBounds_spec. cbn. lia.
    + cbn. lia.
    + apply elem_of_neighborsOf. split; [done|]. exists (1, 0). split.
      * unfold directions. do 2 apply list_elem_of_further. apply list_elem_of_here.
      * unfold offsetBy. cbn. f_equal; lia.
Qed.

Lemma noWalls_cell g p c : noWalls g -> cellAt g p = Some c -> type c <> TWall.
Proof.
  intros Hnw (_ & _ & cells & Hr & Hc)%cellAt_Some.
  unfold noWalls in Hnw. rewrite list.Forall_forall in Hnw.
  pose proof (Hnw cells (list_elem_of_lookup_2 _ _ _ Hr)) as Hcells.
  rewrite list.Forall_forall in Hcells. apply Hcells. by eapply list_elem_of_lookup_2.
Qed.

Section OpenGrid.
Variables (g0 : Grid) (st en : Coord).
Hypothesis Hwf : wellFormed g0.
Hypothesis Hnw : noWalls g0.
Hypothesis Hst : inBounds st = true.
Hypothesis Hen : inBounds en = true.

Abbreviation Inv := (Inv g0 st en).

Lemma open_notWall s p c : Inv s -> cellAt (currentGrid s) p = Some c -> type c <> TWall.
Proof.
  intros HI Hc. destruct (Inv_cell _ _ _ Hwf _ _ _ HI Hc) as (_ & _ & c0 & Hc0 & ->).
  rewrite persistentType_wall. by eapply noWalls_cell.
Qed.

(** Some node of the pool is at most as far as any cell not yet
    finalized. *)
Lemma frontier s :
  Inv s -> Open st s ->
  forall n w, manhattan st w = n -> inBounds w = true ->
    (exists cw, cellAt (currentGrid s) w = Some cw /\ isVisited cw = true) \/
    (exists x cx, x ∈ unvisitedNodes s /\ cellAt (currentGrid s) x = Some cx /\
                  dle (distance cx) (Finite n)).
Proof.
  intros HI HO. induction n as [|n IH]; intros w Hm Hw.
  - assert (w = st) as ->.
    { apply inBounds_spec in Hst, Hw. unfold manhattan in Hm.
      destruct st, w. cbn in *. f_equal; lia. }
    destruct (Inv_inBounds _ _ _ Hwf _ _ HI Hst) as [c Hc].
    destruct (isVisited c) eqn:Hv; [left; by exists c|]. right. exists st, c.
    split_and!; [|done|].
    + apply (inv_pool _ _ _ _ HI). exists c. split_and!; try done. by eapply open_notWall.
    + rewrite (inv_start _ _ _ _ HI _ Hc). cbn. lia.
  - destruct (step_towards st w n Hst Hw Hm) as (w' & Hw' & Hm' & Hnb).
    destruct (IH w' Hm' Hw') as [(cw' & Hcw' & Hv')|(x & cx & Hx & Hcx & Hle)].
    + destruct (inv_visited _ _ _ _ HI _ _ Hcw' Hv') as (_ & _ & m & Hdm & Hclosed).
      pose proof (open_exact _ _ HO _ _ _ Hcw' Hv' Hdm) as ->. rewrite Hm' in *.
      destruct (Inv_inBounds _ _ _ Hwf _ _ HI Hw) as [cw Hcw].
      pose proof (open_notWall _ _ _ HI Hcw) as Hnwall.
      destruct (Hclosed w cw Hnb Hcw Hnwall) as [Hv|Hle].
      * left. by exists cw.
      * destruct (isVisited cw) eqn:Hv; [left; by exists cw|]. right. exists w, cw.
        split_and!; [|done|].
        -- apply (inv_pool _ _ _ _ HI). by exists cw.
        -- by rewrite Nat.add_1_r in Hle.
    + right. exists x, cx. split_and!; try done.
      eapply dle_trans; [exact Hle|]. cbn. lia.
Qed.

(** The node taken by a turn is at its Manhattan distance. *)
Lemma pick_exact s cur c d :
  Inv s -> Open st s -> Pick s cur c -> distance c = Finite d ->
  d = manhattan st cur.
Proof.
  intros HI HO (Hin & Hc & Hmin) Hd.
  pose proof (open_lower _ _ HO _ _ _ Hc Hd) as Hlow.
  destruct (Inv_cell _ _ _ Hwf _ _ _ HI Hc) as (Hb & _).
  destruct (frontier s HI HO _ cur eq_refl Hb) as [(c' & Hc' & Hv)|(x & cx & Hx & Hcx & Hle)].
  - apply (inv_pool _ _ _ _ HI) in Hin as (c'' & Hc'' & Hv'' & _). congruence.
  - pose proof (Hmin _ _ Hx Hcx) as Hle'. rewrite Hd in Hle'.
    destruct (distance cx) as [m|]; cbn in *; [lia|done].
Qed.

Lemma pick_finite s cur c :
  Inv s -> Open st s -> Pick s cur c -> distance c <> POSITIVE_INFINITY.
Proof.
  intros HI HO (Hin & Hc & Hmin) Hd.
  destruct (Inv_cell _ _ _ Hwf _ _ _ HI Hc) as (Hb & _).
  destruct (frontier s HI HO _ cur eq_refl Hb) as [(c' & Hc' & Hv)|(x & cx & Hx & Hcx & Hle)].
  - apply (inv_pool _ _ _ _ HI) in Hin as (c'' & Hc'' & Hv'' & _). congruence.
  - pose proof (Hmin _ _ Hx Hcx) as Hle'. rewrite Hd in Hle'.
    destruct (distance cx) as [m|]; cbn in *; done.
Qed.

Lemma whileLoop_open fuel s :
  Inv s -> Open st s -> (length (unvisitedNodes s) < fuel)%nat ->
  exists run, whileLoop fuel en s = Ok run /\
    runPathLength run = Some (manhattan st en) /\
    length (runPath run) = S (manhattan st en) /\
    runExit run = ExitReached.
Proof.
  intros HI HO. revert HI HO.
  enough (forall fuel s, Inv s /\ Open st s ->
            (length (unvisitedNodes s) < fuel)%nat ->
            exists run, whileLoop fuel en s = Ok run /\
              runPathLength run = Some (manhattan st en) /\
              length (runPath run) = S (manhattan st en) /\
              runExit run = ExitReached) as H by (intros; by apply H).
  clear fuel s.
  apply (whileLoop_rule g0 st en Hwf (fun s => Inv s /\ Open st s)
           (fun s run =>
              runPathLength run = Some (manhattan st en) /\
              length (runPath run) = S (manhattan st en) /\
              runExit run = ExitReached)).
  - by intros s [? ?].
  - intros s [HI HO] E. exfalso.
    assert (en ∈ unvisitedNodes s) as Hin.
    { apply (end_in_pool g0 st en Hwf s HI Hen).
      destruct (wellFormed_inBounds _ _ Hwf Hen) as (c0 & Hc0 & _).
      apply (notWallAt_cell _ _ _ Hc0). by eapply noWalls_cell. }
    rewrite E in Hin. by apply elem_of_nil in Hin.
  - intros s cur c [HI HO] HP Hd. exfalso. by eapply pick_finite.
  - intros s c d path [HI HO] HP Hd (Hlen & _). cbn.
    rewrite (pick_exact _ _ _ _ HI HO HP Hd) in Hlen. rewrite Hlen.
    split_and!; try done. f_equal. lia.
  - intros s cur c d s' [HI HO] HP Hd Hne HS HI'. split; [|by intros run ?].
    split; [done|]. pose proof HP as (Hin & Hc & Hmin).
    pose proof (pick_exact _ _ _ _ HI HO HP Hd) as Hdc. constructor.
    + intros p cp' n Hcp' Hn. destruct (Step_cell _ _ _ _ _ _ HS Hcp') as (cp & Hcp & ->).
      destruct (turnCell_distance cur d p cp) as [[Hdd _]|(_ & Hnb & _ & E)].
      * rewrite Hdd in Hn. by eapply (open_lower _ _ HO).
      * rewrite E in Hn. cbn in Hn. injection Hn as <-.
        pose proof (manhattan_neighbor st _ _ Hnb). lia.
    + intros p cp' n Hcp' Hv' Hn. destruct (Step_cell _ _ _ _ _ _ HS Hcp') as (cp & Hcp & ->).
      rewrite turnCell_isVisited in Hv'. destruct (decide (p = cur)) as [->|Hpc].
      * rewrite Hc in Hcp. injection Hcp as <-. unfold turnCell in Hn.
        rewrite bool_decide_eq_true_2 in Hn by done. cbn in Hn. congruence.
      * rewrite bool_decide_eq_false_2 in Hv' by done. cbn in Hv'.
        rewrite turnCell_visited in Hn by done. by eapply (open_exact _ _ HO).
Qed.
End OpenGrid.

Lemma search_open_grid (g : Grid) (st en : Coord) :
  wellFormed g ->
  noWalls g ->
  inBounds st = true ->
  inBounds en = true ->
  exists run, search g st en = Ok run /\
    runPathLength run = Some (manhattan st en) /\
    Z.of_nat (manhattan st en) = Z.abs (st.1 - en.1) + Z.abs (st.2 - en.2) /\
    length (runPath run) = S (manhattan st en) /\
    runExit run = ExitReached.
Proof.
  intros Hwf Hnw Hst Hen. unfold search.
  destruct (initialRunState_Ok g st en Hwf) as (s0 & -> & HI & Hcount & Hfresh).
  cbn [mbind Result_bind bindR].
  destruct (whileLoop_open g st en Hwf Hnw Hst Hen (S (length (unvisitedNodes s0))) s0)
    as (run & Hrun & H1 & H2 & H3); [done| |lia|].
  - constructor.
    + intros p c n Hc Hn. pose proof (inv_chain _ _ _ _ HI _ _ Hc) as Hch.
      unfold chainOk in Hch. rewrite Hn in Hch. destruct n as [|n].
      * destruct Hch as [_ ->]. unfold manhattan. lia.
      * destruct Hch as (q & cq & _ & Hq & Hv & _). by rewrite (Hfresh _ _ Hq) in Hv.
    + intros p c n Hc Hv. by rewrite (Hfresh _ _ Hc) in Hv.
  - exists run. split_and!; try done. unfold manhattan. lia.
Qed.

(** C10, witness: the run on the initial grid. *)
Lemma start_cell_never_relaxed_witness :
  exists s0 c run,
    initialRunState initialGrid defaultStart = Ok s0 /\
    cellAt (currentGrid s0) defaultStart = Some c /\
    distance c = Finite 0 /\ previous c = None /\
    search initialGrid defaultStart defaultEnd = Ok run.
Proof.
  destruct (start_cell_never_relaxed initialGrid defaultStart defaultEnd)
    as (s0 & Hs0 & Hstates & run & Hrun & _).
  - vm_compute. reflexivity.
  - reflexivity.
  - destruct (Hstates s0) as (c & Hc & Hd & Hp).
    + cbn [loopStates]. apply list_elem_of_here.
    + exists s0, c, run. exact (conj Hs0 (conj Hc (conj Hd (conj Hp Hrun)))).
Defined.

(** ** The grid stays well formed *)

Lemma wellFormed_fmap (f : Cell -> Cell) (g : Grid) :
  (forall c, coordOf (f c) = coordOf c) ->
  wellFormed g -> wellFormed ((fun cells : list Cell => f <$> cells) <$> g).
Proof.
  intros Hf Hwf. unfold wellFormed in *. rewrite <- Hwf, <- list_fmap_compose.
  apply list_fmap_ext. intros _ cells _. cbn. rewrite <- list_fmap_compose.
  apply list_fmap_ext. intros _ c _. apply Hf.
Qed.

Lemma setType_wellFormed t p g g' :
  wellFormed g -> setType t p g = Ok g' -> wellFormed g'.
Proof.
  intros Hwf [-> _]%setType_inv. by apply wellFormed_updCell.
Qed.

Lemma clearPrevious_wellFormed h g g' :
  wellFormed g -> clearPrevious h g = Ok g' -> wellFormed g'.
Proof.
  destruct h; cbn; [apply setType_wellFormed|]. by intros ? [= <-].
Qed.

Lemma handleCellClick_wellFormed s r c s' :
  wellFormed (grid s) -> handleCellClick s r c = Ok s' -> wellFormed (grid s').
Proof.
  intros Hwf. unfold handleCellClick. destruct (isRunning s); [by intros [= <-]|].
  intros (cell & _ & H)%bindR_Ok. destruct (drawMode s).
  - injection H as <-. cbn. destruct (type cell); try done; by apply wellFormed_updCell.
  - apply bindR_Ok in H as (g1 & Hg1 & H). apply bindR_Ok in H as (g2 & Hg2 & H).
    injection H as <-. cbn.
    eauto using setType_wellFormed, clearPrevious_wellFormed.
  - apply bindR_Ok in H as (g1 & Hg1 & H). apply bindR_Ok in H as (g2 & Hg2 & H).
    injection H as <-. cbn.
    eauto using setType_wellFormed, clearPrevious_wellFormed.
Qed.

Lemma clearPath_wellFormed s : wellFormed (grid s) -> wellFormed (grid (clearPath s)).
Proof.
  intros Hwf. unfold clearPath. destruct (isRunning s); [done|]. cbn.
  by apply wellFormed_fmap.
Qed.

Lemma applyUpdate_wellFormed u s s' :
  wellFormed (grid s) -> applyUpdate u s = Ok s' -> wellFormed (grid s').
Proof.
  intros Hwf. destruct u as [ev|n|n|b]; cbn [applyUpdate].
  - intros (g & Hg & H)%bindR_Ok. injection H as <-. cbn.
    by eapply setType_wellFormed.
  - by intros [= <-].
  - by intros [= <-].
  - by intros [= <-].
Qed.

Lemma applyUpdates_wellFormed us s s' :
  wellFormed (grid s) -> applyUpdates us s = Ok s' -> wellFormed (grid s').
Proof.
  revert s. induction us as [|u us IH]; intros s Hwf; cbn [applyUpdates].
  { by intros [= <-]. }
  intros (s1 & H1 & H)%bindR_Ok. eapply IH; [|exact H].
  by eapply applyUpdate_wellFormed.
Qed.

Lemma tick_wellFormed s s' :
  wellFormed (grid s) -> tick s = Ok s' -> wellFormed (grid s').
Proof.
  intros Hwf. unfold tick. destruct (pending s) as [|us rest].
  - by intros [= <-].
  - by apply applyUpdates_wellFormed.
Qed.

Lemma dijkstra_wellFormed s s' :
  wellFormed (grid s) -> dijkstra s = Ok s' -> wellFormed (grid s').
Proof.
  intros Hwf. unfold dijkstra. destruct (startCell s) as [st|]; [|by intros [= <-]].
  destruct (endCell s) as [en|]; [|by intros [= <-]].
  intros (shown & _ & H)%bindR_Ok. apply bindR_Ok in H as (run & _ & H).
  destruct (splitAwait _) as [now later]. revert H. apply applyUpdates_wellFormed.
  cbn. apply wellFormed_updCell; [done|]. by apply wellFormed_fmap.
Qed.

(** ** From the search to the state of the component *)

Lemma whileLoop_events g0 st en fuel s :
  wellFormed g0 ->
  Inv g0 st en s -> (length (unvisitedNodes s) < fuel)%nat ->
  exists run, whileLoop fuel en s = Ok run /\
              Forall (fun ev => inBounds (eventType ev).2 = true) (events run).
Proof.
  intros Hwf. revert fuel s.
  apply (whileLoop_rule g0 st en Hwf (fun s => Inv g0 st en s)
           (fun s run => Forall (fun ev => inBounds (eventType ev).2 = true) (events run))).
  - done.
  - intros. constructor.
  - intros. constructor.
  - intros s c d path HI (_ & Hc & _) _ (_ & _ & _ & Hall). cbn.
    destruct (Inv_cell g0 st en Hwf _ _ _ HI Hc) as (Hb & Hco & _).
    apply Forall_app. split.
    + unfold showCurrent. destruct (displayed c); repeat constructor. cbn. by rewrite Hco.
    + unfold pathEvents. apply Forall_fmap.
      apply Forall_take, Forall_drop. eapply list.Forall_impl; [exact Hall|]. done.
  - intros s cur c d s' HI (_ & Hc & _) _ _ _ HI'. split; [done|]. intros run Hrun. cbn.
    destruct (Inv_cell g0 st en Hwf _ _ _ HI Hc) as (Hb & Hco & _).
    apply Forall_app. split; [|done].
    unfold showVisited. destruct (displayed c); repeat constructor; cbn; by rewrite Hco.
Qed.

(** *** Setter calls *)

Lemma updatesOf_app l1 l2 : updatesOf (l1 ++ l2) = updatesOf l1 ++ updatesOf l2.
Proof. unfold updatesOf. apply bind_app. Qed.

Lemma rendersOf_app l1 l2 : rendersOf (l1 ++ l2) = rendersOf l1 ++ rendersOf l2.
Proof. unfold rendersOf. apply bind_app. Qed.

Lemma updatesOf_cons_Do u l : updatesOf (Do u :: l) = u :: updatesOf l.
Proof. done. Qed.

Lemma updatesOf_cons_Await l : updatesOf (Await :: l) = updatesOf l.
Proof. done. Qed.

Lemma rendersOf_cons_Render ev l : rendersOf (Render ev :: l) = ev :: rendersOf l.
Proof. done. Qed.

Lemma updatesOf_Do us : updatesOf (Do <$> us) = us.
Proof.
  induction us as [|u us IH]; [done|]. rewrite fmap_cons, updatesOf_cons_Do.
  by rewrite IH.
Qed.

Lemma rendersOf_Render evs : rendersOf (Render <$> evs) = evs.
Proof.
  induction evs as [|ev evs IH]; [done|]. rewrite fmap_cons, rendersOf_cons_Render.
  by rewrite IH.
Qed.

Lemma rendersOf_Forall (P : RenderEvent -> Prop) us :
  Forall P (rendersOf us) <->
  Forall (fun u => match u with Render ev => P ev | _ => True end) us.
Proof.
  induction us as [|u us IH]; [by split; constructor|].
  rewrite list.Forall_cons. change (rendersOf (u :: us)) with
    ((match u with Render ev => [ev] | _ => [] end) ++ rendersOf us).
  rewrite Forall_app, IH. destruct u; cbn; rewrite ?list.Forall_singleton;
    split; try tauto; intros [_ ?]; split; by try constructor.
Qed.

Lemma pathSteps_updates evs :
  updatesOf (evs ≫= fun ev => [Await; Do (Render ev)]) = Render <$> evs.
Proof.
  induction evs as [|ev evs IH]; [done|]. rewrite fmap_cons, <- IH. done.
Qed.

Lemma turnSteps_renders c k : rendersOf (updatesOf (turnSteps c k)) = showVisited c.
Proof. unfold turnSteps, showCurrent, showVisited. by destruct (displayed c). Qed.

Lemma reachedSteps_renders c k path :
  rendersOf (updatesOf (reachedSteps c k path)) = showCurrent c ++ pathEvents path.
Proof.
  unfold reachedSteps. rewrite !updatesOf_app, !rendersOf_app, updatesOf_Do.
  rewrite pathSteps_updates, !rendersOf_Render. cbn. by rewrite app_nil_r.
Qed.

Lemma applyUpdates_app us1 us2 s :
  applyUpdates (us1 ++ us2) s = (s1 ← applyUpdates us1 s; applyUpdates us2 s1).
Proof.
  revert s. induction us1 as [|u us1 IH]; intros s; [done|]. cbn [app applyUpdates].
  destruct (applyUpdate u s) as [s1| |]; [|done..]. apply IH.
Qed.

Lemma applyUpdate_pending p u s :
  applyUpdate u (with_pending p s) = with_pending p <$> applyUpdate u s.
Proof.
  destruct u as [ev|n|n|b]; cbn [applyUpdate]; try done.
  cbn [with_pending grid]. by destruct (setType _ _ _).
Qed.

Lemma applyUpdates_pending p us s :
  applyUpdates us (with_pending p s) = with_pending p <$> applyUpdates us s.
Proof.
  revert s. induction us as [|u us IH]; intros s; [done|]. cbn [applyUpdates].
  rewrite applyUpdate_pending. destruct (applyUpdate u s) as [s1| |]; [|done..].
  apply IH.
Qed.

Lemma applyUpdate_frame u s s' :
  applyUpdate u s = Ok s' ->
  drawMode s' = drawMode s /\ startCell s' = startCell s /\
  endCell s' = endCell s /\ pending s' = pending s.
Proof.
  destruct u as [ev|n|n|b]; cbn [applyUpdate]; try by intros [= <-].
  intros (g & _ & H)%bindR_Ok. by injection H as <-.
Qed.

Lemma applyUpdates_frame us s s' :
  applyUpdates us s = Ok s' ->
  drawMode s' = drawMode s /\ startCell s' = startCell s /\
  endCell s' = endCell s /\ pending s' = pending s.
Proof.
  revert s. induction us as [|u us IH]; intros s; cbn [applyUpdates].
  { by intros [= <-]. }
  intros (s1 & H1 & H)%bindR_Ok. destruct (applyUpdate_frame _ _ _ H1) as (? & ? & ? & ?).
  destruct (IH _ H) as (? & ? & ? & ?). split_and!; congruence.
Qed.

(** On a well-formed grid the updates that write inside the grid all
    apply. *)
Lemma applyUpdates_Ok us s :
  wellFormed (grid s) -> Forall inGrid us ->
  exists s', applyUpdates us s = Ok s' /\ wellFormed (grid s').
Proof.
  revert s. induction us as [|u us IH]; intros s Hwf Hall; cbn [applyUpdates].
  { by exists s. }
  apply list.Forall_cons in Hall as [Hu Hall].
  assert (exists s1, applyUpdate u s = Ok s1) as [s1 H1].
  { destruct u as [ev|n|n|b]; cbn [applyUpdate]; try by eexists.
    destruct (wellFormed_inBounds _ _ Hwf Hu) as (c & Hc & _).
    rewrite (setType_Ok _ _ _ _ Hc). by eexists. }
  rewrite H1. cbn [mbind Result_bind bindR]. apply IH; [|done].
  by eapply applyUpdate_wellFormed.
Qed.

Lemma applyUpdates_keepsRunning us s s' :
  Forall keepsRunning us -> applyUpdates us s = Ok s' -> isRunning s' = isRunning s.
Proof.
  revert s. induction us as [|u us IH]; intros s Hall; cbn [applyUpdates].
  { by intros [= <-]. }
  apply list.Forall_cons in Hall as [Hu Hall].
  intros (s1 & H1 & H)%bindR_Ok. rewrite (IH _ Hall H).
  destruct u as [ev|n|n|b]; cbn [applyUpdate] in H1; try done; try by injection H1 as <-.
  apply bindR_Ok in H1 as (g & _ & H1). by injection H1 as <-.
Qed.

(** *** Timers *)

Lemma splitAwait_updates steps :
  (splitAwait steps).1 ++ concat (splitAwait steps).2 = updatesOf steps.
Proof.
  induction steps as [|[u|] steps IH]; [done|..]; cbn [splitAwait];
    destruct (splitAwait steps) as [now later]; cbn [fst snd] in *.
  - by rewrite updatesOf_cons_Do, <- IH.
  - by rewrite updatesOf_cons_Await, <- IH.
Qed.

Lemma splitAwait_Forall (P : Update -> Prop) steps :
  Forall P (updatesOf steps) ->
  Forall P (splitAwait steps).1 /\ Forall (Forall P) (splitAwait steps).2.
Proof.
  induction steps as [|[u|] steps IH]; [by repeat constructor|..]; cbn [splitAwait];
    destruct (splitAwait steps) as [now later]; cbn [fst snd] in *.
  - rewrite updatesOf_cons_Do. intros [Hu Hall]%list.Forall_cons.
    destruct (IH Hall). split; [by constructor|done].
  - rewrite updatesOf_cons_Await. intros Hall. destruct (IH Hall).
    split; [constructor|by constructor].
Qed.

(** The last setter call of a script is made with the click when the
    script does not wait, and by the last timer when it does. *)
Lemma splitAwait_last steps u : forall now later,
  splitAwait (steps ++ [Do u]) = (now, later) ->
  (later = [] /\ now = updatesOf steps ++ [u]) \/
  (exists batches final,
     later = batches ++ [final ++ [u]] /\
     updatesOf steps = now ++ concat batches ++ final).
Proof.
  induction steps as [|[v|] steps IH]; intros now later; cbn [app splitAwait].
  - intros [= <- <-]. by left.
  - destruct (splitAwait (steps ++ [Do u])) as [n l]. intros [= <- <-].
    destruct (IH n l eq_refl) as [[-> ->]|(bs & f & -> & E)].
    + left. by rewrite updatesOf_cons_Do.
    + right. exists bs, f. split; [done|]. by rewrite updatesOf_cons_Do, E.
  - destruct (splitAwait (steps ++ [Do u])) as [n l]. intros [= <- <-].
    rewrite updatesOf_cons_Await.
    destruct (IH n l eq_refl) as [[-> ->]|(bs & f & -> & E)].
    + right. by exists [], (updatesOf steps).
    + right. exists (n :: bs), f. split; [done|]. rewrite E. cbn.
      by rewrite app_assoc.
Qed.

Lemma ticks_app n m s s1 :
  ticks n s = Ok s1 -> ticks (n + m) s = ticks m s1.
Proof.
  revert s. induction n as [|n IH]; intros s; cbn; [by intros [= ->]|].
  destruct (tick s) as [s'| |]; cbn; [apply IH|done..].
Qed.

Lemma tick_batch us rest s :
  pending s = us :: rest -> tick s = with_pending rest <$> applyUpdates us s.
Proof.
  intros Hpen. unfold tick. rewrite Hpen. apply (applyUpdates_pending rest us s).
Qed.

(** Firing all the timers makes the pending setter calls in order. *)
Lemma ticks_flat later : forall s,
  pending s = later ->
  ticks (length later) s = with_pending [] <$> applyUpdates (concat later) s.
Proof.
  induction later as [|us later IH]; intros s Hpen.
  { cbn. f_equal. unfold with_pending. destruct s. cbn in *. by subst. }
  cbn [length ticks concat]. rewrite (tick_batch _ _ _ Hpen), applyUpdates_app.
  destruct (applyUpdates us s) as [s1| |]; cbn [fmap Result_fmap bindR mbind Result_bind];
    [|done..].
  rewrite IH by done. rewrite applyUpdates_pending.
  by destruct (applyUpdates (concat later) s1).
Qed.

(** *** The script of a run *)

Lemma turnSteps_updates c k :
  updatesOf (turnSteps c k) = (Render <$> showVisited c) ++ [SetVisitedCount k].
Proof. unfold turnSteps, showCurrent, showVisited. by destruct (displayed c). Qed.

Lemma reachedSteps_updates c k path :
  updatesOf (reachedSteps c k path) =
  (Render <$> (showCurrent c ++ pathEvents path)) ++
  [SetPathLength (length path - 1)%nat; SetVisitedCount k; SetIsRunning false].
Proof.
  unfold reachedSteps. rewrite !updatesOf_app, updatesOf_Do, pathSteps_updates.
  by rewrite fmap_app, <- app_assoc.
Qed.

Lemma keepsRunning_renders evs : Forall keepsRunning (Render <$> evs).
Proof. apply list.Forall_fmap, list.Forall_forall. by intros ev _. Qed.

Lemma inGrid_renders evs :
  Forall (fun ev => inBounds (eventType ev).2 = true) evs -> Forall inGrid (Render <$> evs).
Proof. intros H. by apply list.Forall_fmap. Qed.

(** Display updates inside the grid apply and leave the rest of the
    state alone. *)
Lemma applyUpdates_renders evs s :
  wellFormed (grid s) ->
  Forall (fun ev => inBounds (eventType ev).2 = true) evs ->
  exists g, applyUpdates (Render <$> evs) s =
            Ok (mkSession g (isRunning s) (drawMode s) (startCell s) (endCell s)
                  (pathLength s) (visitedCount s) (pending s)) /\
            wellFormed g.
Proof.
  revert s. induction evs as [|ev evs IH]; intros s Hwf Hall.
  { exists (grid s). split; [|done]. cbn. by destruct s. }
  apply list.Forall_cons in Hall as [Hev Hall]. rewrite fmap_cons.
  cbn [applyUpdates applyUpdate].
  destruct (wellFormed_inBounds _ _ Hwf Hev) as (c & Hc & _).
  rewrite (setType_Ok _ _ _ _ Hc). cbn [mbind Result_bind bindR].
  match goal with |- context [applyUpdates _ ?s1] =>
    destruct (IH s1) as (g & -> & Hg) end.
  - cbn. by apply wellFormed_updCell.
  - done.
  - by exists g.
Qed.

(** What the script of a run holds: the display updates of the run, all
    inside the grid; [setIsRunning(false)] as the last call, once the
    call after the loop is added, and nowhere else; and setter calls
    that leave the component idle with the path length and the visited
    count of the run. *)
Lemma whileLoop_script g0 st en fuel s :
  wellFormed g0 ->
  Inv g0 st en s -> (length (unvisitedNodes s) < fuel)%nat ->
  exists run, whileLoop fuel en s = Ok run /\
    Forall inGrid (updatesOf (script run)) /\
    rendersOf (updatesOf (script run)) = events run /\
    (exists pre, script run ++ afterLoop (runExit run) = pre ++ [Do (SetIsRunning false)] /\
                 Forall keepsRunning (updatesOf pre)) /\
    forall sess, wellFormed (grid sess) -> visitedCount sess = visitedCounter s ->
      exists sess',
        applyUpdates (updatesOf (script run ++ afterLoop (runExit run))) sess = Ok sess' /\
        isRunning sess' = false /\
        pathLength sess' = match runPathLength run with
                           | Some n => Some n
                           | None => pathLength sess
                           end /\
        visitedCount sess' = runVisitedCount run.
Proof.
  intros Hwf. revert fuel s.
  apply (whileLoop_rule g0 st en Hwf (fun s => Inv g0 st en s)
    (fun s run =>
       Forall inGrid (updatesOf (script run)) /\
       rendersOf (updatesOf (script run)) = events run /\
       (exists pre, script run ++ afterLoop (runExit run) = pre ++ [Do (SetIsRunning false)] /\
                    Forall keepsRunning (updatesOf pre)) /\
       forall sess, wellFormed (grid sess) -> visitedCount sess = visitedCounter s ->
         exists sess',
           applyUpdates (updatesOf (script run ++ afterLoop (runExit run))) sess = Ok sess' /\
           isRunning sess' = false /\
           pathLength sess' = match runPathLength run with
                              | Some n => Some n
                              | None => pathLength sess
                              end /\
           visitedCount sess' = runVisitedCount run)).
  - done.
  - intros s _ _. cbn. split_and!; [constructor|done|by exists []|].
    intros sess _ Hv. eexists. split; [done|]. by cbn.
  - intros s cur c _ _ _. cbn. split_and!; [constructor|done|by exists []|].
    intros sess _ Hv. eexists. split; [done|]. by cbn.
  - intros s c d path HI (_ & Hc & _) _ (_ & _ & _ & Hall).
    destruct (Inv_cell g0 st en Hwf _ _ _ HI Hc) as (Hb & Hco & _).
    assert (Forall (fun ev => inBounds (eventType ev).2 = true)
              (showCurrent c ++ pathEvents path)) as Hevs.
    { apply Forall_app. split.
      - unfold showCurrent. destruct (displayed c); repeat constructor. cbn.
        by rewrite Hco.
      - unfold pathEvents. apply Forall_fmap.
        apply Forall_take, Forall_drop. eapply list.Forall_impl; [exact Hall|]. done. }
    cbn [script events runExit runPathLength runVisitedCount afterLoop].
    rewrite app_nil_r, reachedSteps_updates. split_and!.
    + apply Forall_app. split; [by apply inGrid_renders|by repeat constructor].
    + rewrite rendersOf_app, rendersOf_Render. cbn. by rewrite app_nil_r.
    + exists ((Do <$> (Render <$> showCurrent c)) ++
              (pathEvents path ≫= fun ev => [Await; Do (Render ev)]) ++
              [Do (SetPathLength (length path - 1)%nat);
               Do (SetVisitedCount (S (visitedCounter s)))]).
      split; [unfold reachedSteps; by rewrite <- !app_assoc|].
      rewrite !updatesOf_app, updatesOf_Do, pathSteps_updates.
      apply Forall_app; split; [apply keepsRunning_renders|].
      apply Forall_app; split; [apply keepsRunning_renders|by repeat constructor].
    + intros sess Hw _. rewrite applyUpdates_app.
      destruct (applyUpdates_renders _ sess Hw Hevs) as (g & -> & _).
      cbn. eexists. split; [done|]. by cbn.
  - intros s cur c d s' HI (_ & Hc & _) _ _ (Hk & _) HI'. split; [done|].
    intros run (Hin & Hren & (pre & Hpre & Hquiet) & Hout).
    destruct (Inv_cell g0 st en Hwf _ _ _ HI Hc) as (Hb & Hco & _).
    assert (Forall (fun ev => inBounds (eventType ev).2 = true) (showVisited c)) as Hevs.
    { unfold showVisited. destruct (displayed c); repeat constructor; cbn; by rewrite Hco. }
    cbn [finalize script events runExit runPathLength runVisitedCount].
    rewrite !updatesOf_app, turnSteps_updates. split_and!.
    + apply Forall_app; split; [|done].
      apply Forall_app; split; [by apply inGrid_renders|by repeat constructor].
    + rewrite !rendersOf_app, rendersOf_Render, Hren. cbn. by rewrite app_nil_r.
    + exists (turnSteps c (visitedCounter s') ++ pre). split.
      * by rewrite <- !app_assoc, Hpre.
      * rewrite updatesOf_app, turnSteps_updates.
        apply Forall_app; split; [|done].
        apply Forall_app; split; [apply keepsRunning_renders|by repeat constructor].
    + intros sess Hw Hv. rewrite <- app_assoc, !applyUpdates_app.
      destruct (applyUpdates_renders _ sess Hw Hevs) as (g & -> & Hg).
      cbn [mbind Result_bind bindR applyUpdates applyUpdate].
      match goal with |- context [applyUpdates _ ?s1] =>
        destruct (Hout s1) as (sess' & Hs' & Hr & Hp & Hc') end; [done|done|].
      rewrite <- updatesOf_app. exists sess'. split; [exact Hs'|]. by cbn in *.
Qed.

Lemma search_script g st en :
  wellFormed g ->
  exists run, search g st en = Ok run /\
    Forall inGrid (updatesOf (script run)) /\
    rendersOf (updatesOf (script run)) = events run /\
    (exists pre, script run ++ afterLoop (runExit run) = pre ++ [Do (SetIsRunning false)] /\
                 Forall keepsRunning (updatesOf pre)) /\
    forall sess, wellFormed (grid sess) -> visitedCount sess = 0%nat ->
      exists sess',
        applyUpdates (updatesOf (script run ++ afterLoop (runExit run))) sess = Ok sess' /\
        isRunning sess' = false /\
        pathLength sess' = match runPathLength run with
                           | Some n => Some n
                           | None => pathLength sess
                           end /\
        visitedCount sess' = runVisitedCount run.
Proof.
  intros Hwf. unfold search.
  destruct (initialRunState_Ok g st en Hwf) as (s0 & -> & HI & Hk & _).
  cbn [mbind Result_bind bindR].
  destruct (whileLoop_script g st en (S (length (unvisitedNodes s0))) s0 Hwf HI)
    as (run & Hrun & H1 & H2 & H3 & H4); [lia|].
  exists run. rewrite Hk in H4. done.
Qed.

(** [dijkstra] on a well-formed grid: the display reset, then the setter
    calls the run makes before it first waits. *)
Lemma dijkstra_unfold (s : Session) (st en : Coord) run :
  wellFormed (grid s) ->
  startCell s = Some st -> endCell s = Some en -> inBounds st = true ->
  search (grid s) st en = Ok run ->
  dijkstra s =
  applyUpdates (splitAwait (script run ++ afterLoop (runExit run))).1
    (mkSession (updCell (with_distance (Finite 0)) st (clearedGrid (grid s)))
       true (drawMode s) (Some st) (Some en) None 0%nat
       (splitAwait (script run ++ afterLoop (runExit run))).2).
Proof.
  intros Hwf Hst Hen Hb Hrun. unfold dijkstra. rewrite Hst, Hen, Hrun.
  assert (wellFormed (clearedGrid (grid s))) as Hwf' by (by apply wellFormed_fmap).
  destruct (wellFormed_inBounds _ _ Hwf' Hb) as (c & -> & _).
  cbn [ofOption mbind Result_bind bindR]. by destruct (splitAwait _).
Qed.

(** Started on a well-formed grid, [dijkstra] leaves the component,
    once all its timers have fired, idle and with the path length and
    visited count of the search. *)
Lemma dijkstra_reports_run (s : Session) (st en : Coord) :
  wellFormed (grid s) ->
  startCell s = Some st -> endCell s = Some en -> inBounds st = true ->
  exists run s1 s2,
    search (grid s) st en = Ok run /\
    dijkstra s = Ok s1 /\
    pending s1 = (splitAwait (script run ++ afterLoop (runExit run))).2 /\
    ticks (length (pending s1)) s1 = Ok s2 /\
    isRunning s2 = false /\ pending s2 = [] /\
    pathLength s2 = runPathLength run /\ visitedCount s2 = runVisitedCount run.
Proof.
  intros Hwf Hst Hen Hb.
  destruct (search_script (grid s) st en Hwf) as (run & Hrun & _ & _ & _ & Hout).
  rewrite (dijkstra_unfold s st en run Hwf Hst Hen Hb Hrun).
  set (now := (splitAwait (script run ++ afterLoop (runExit run))).1).
  set (later := (splitAwait (script run ++ afterLoop (runExit run))).2).
  set (s0 := mkSession (updCell (with_distance (Finite 0)) st (clearedGrid (grid s)))
               true (drawMode s) (Some st) (Some en) None 0%nat later).
  destruct (Hout s0) as (sess' & Hs' & Hr & Hp & Hv).
  { cbn. apply wellFormed_updCell; [done|]. by apply wellFormed_fmap. }
  { done. }
  rewrite <- splitAwait_updates, applyUpdates_app in Hs'. fold now later in Hs'.
  destruct (applyUpdates now s0) as [s1| |] eqn:Hs1; [|done..].
  cbn [mbind Result_bind bindR] in Hs'.
  destruct (applyUpdates_frame _ _ _ Hs1) as (_ & _ & _ & Hpen1). cbn in Hpen1.
  exists run, s1, (with_pending [] sess'). rewrite Hpen1.
  rewrite (ticks_flat later s1 Hpen1), Hs'. cbn in Hp.
  refine (conj Hrun (conj eq_refl (conj eq_refl (conj eq_refl
           (conj Hr (conj eq_refl (conj _ Hv))))))).
  cbn. rewrite Hp. by destruct (runPathLength run).
Qed.

(** ** The outcomes of a run *)

(** C1.  On a well-formed grid without walls, with start and end set
    inside the grid, the search returns and reports as path length the
    Manhattan distance between start and end; once the run's timers have
    fired, the component is idle with that value in [pathLength]. *)
Theorem open_grid_path_length_is_manhattan (s : Session) (st en : Coord) :
  wellFormed (grid s) ->
  noWalls (grid s) ->
  startCell s = Some st ->
  endCell s = Some en ->
  inBounds st = true ->
  inBounds en = true ->
  exists run s1 s2,
    search (grid s) st en = Ok run /\
    runPathLength run = Some (manhattan st en) /\
    Z.of_nat (manhattan st en) = Z.abs (st.1 - en.1) + Z.abs (st.2 - en.2) /\
    dijkstra s = Ok s1 /\
    ticks (length (pending s1)) s1 = Ok s2 /\
    isRunning s2 = false /\
    pathLength s2 = Some (manhattan st en).
Proof.
  intros Hwf Hnw Hst Hen Hbs Hbe.
  destruct (dijkstra_reports_run s st en Hwf Hst Hen Hbs)
    as (run & s1 & s2 & Hrun & Hd & _ & Ht & Hr & _ & Hl & _).
  destruct (search_open_grid (grid s) st en Hwf Hnw Hbs Hbe)
    as (run' & Hrun' & Hlen & Hz & _).
  rewrite Hrun in Hrun'. injection Hrun' as <-.
  exists run, s1, s2. split_and!; try done. by rewrite Hl.
Qed.

(** C1, witness: the initial grid, start (12, 10), end (12, 40). *)
Lemma open_grid_witness :
  exists run s1 s2,
    search initialGrid defaultStart defaultEnd = Ok run /\
    runPathLength run = Some 30%nat /\
    dijkstra initialSession = Ok s1 /\
    ticks (length (pending s1)) s1 = Ok s2 /\
    pathLength s2 = Some 30%nat.
Proof.
  destruct (open_grid_path_length_is_manhattan initialSession defaultStart defaultEnd)
    as (run & s1 & s2 & Hrun & Hlen & _ & Hd & Ht & _ & Hl).
  - vm_compute. reflexivity.
  - apply (bool_decide_eq_true_1 (noWalls initialGrid)). vm_compute. reflexivity.
  - reflexivity.
  - reflexivity.
  - reflexivity.
  - reflexivity.
  - exists run, s1, s2. exact (conj Hrun (conj Hlen (conj Hd (conj Ht Hl)))).
Defined.



Lemma barrierSession_painted :
  paintWalls ((fun r => (r, 25)) <$> seqZ 0 GRID_ROWS) initialSession = Ok barrierSession.
Proof. vm_compute. reflexivity. Qed.


Lemma splitAwait_no_await steps :
  Await ∉ steps -> splitAwait steps = (updatesOf steps, []).
Proof.
  induction steps as [|[u|] steps IH]; intros Hno; [done|..].
  - cbn [splitAwait]. rewrite IH; [done|]. intros H. apply Hno. by right.
  - exfalso. apply Hno. by left.
Qed.

(** C9.  When start and end are the same non-wall cell, the first turn
    of the loop ends the run: one node is finalized, the path is that
    one cell, the path length is 0 and the visited count 1, and there is
    no path display update.  The run never waits for a timer: when the
    call of [dijkstra] returns, the component is idle with nothing
    pending, [pathLength] 0 and [visitedCount] 1. *)
Theorem coincident_start_end_immediate (s : Session) (p : Coord) :
  wellFormed (grid s) ->
  startCell s = Some p ->
  endCell s = Some p ->
  inBounds p = true ->
  notWallAt (grid s) p ->
  exists run s1,
    search (grid s) p p = Ok run /\
    length (finalizedNodes run) = 1%nat /\
    coordOf <$> runPath run = [p] /\
    runPathLength run = Some 0%nat /\ runVisitedCount run = 1%nat /\
    (forall q, EvPath q ∉ events run) /\
    Await ∉ script run /\
    dijkstra s = Ok s1 /\
    isRunning s1 = false /\ pending s1 = [] /\
    pathLength s1 = Some 0%nat /\ visitedCount s1 = 1%nat.
Proof.
  intros Hwf Hst Hen Hb Hw.
  destruct (search_coincident (grid s) p Hwf Hb Hw)
    as (run & Hrun & Hlen & Hcount & Hev & Hfin & _ & Hex & Hpath & Hno).
  destruct (search_script (grid s) p p Hwf) as (run' & Hrun' & _ & _ & _ & Hout).
  rewrite Hrun in Hrun'. injection Hrun' as <-.
  rewrite (dijkstra_unfold s p p run Hwf Hst Hen Hb Hrun).
  rewrite Hex in *. cbn [afterLoop] in *. rewrite app_nil_r in *.
  rewrite (splitAwait_no_await _ Hno). cbn [fst snd].
  match goal with |- context [applyUpdates _ ?s0] =>
    destruct (Hout s0) as (s1 & Hs1 & Hr & Hp & Hv) end.
  { cbn. apply wellFormed_updCell; [done|]. by apply wellFormed_fmap. }
  { done. }
  destruct (applyUpdates_frame _ _ _ Hs1) as (_ & _ & _ & Hpen). cbn in Hpen.
  rewrite Hlen in Hp. rewrite Hcount in Hv.
  exists run, s1.
  exact (conj Hrun (conj Hfin (conj Hpath (conj Hlen (conj Hcount (conj Hev
          (conj Hno (conj Hs1 (conj Hr (conj Hpen (conj Hp Hv))))))))))).
Qed.

Lemma overlapSession_facts :
  match paint initialSession 12 40 ModeStart with
  | Ok s => bool_decide (startCell s = Some (12, 40)) &&
            bool_decide (endCell s = Some (12, 40)) &&
            bool_decide (wellFormed (grid s)) &&
            bool_decide (typeAt (grid s) (12, 40) = Some TStart)
  | _ => false
  end = true.
Proof. vm_compute. reflexivity. Qed.

(** C9, witness: the session after painting start onto the end cell. *)
Lemma coincident_start_end_witness :
  exists s run s1,
    paint initialSession 12 40 ModeStart = Ok s /\
    search (grid s) (12, 40) (12, 40) = Ok run /\
    coordOf <$> runPath run = [(12, 40)] /\
    dijkstra s = Ok s1 /\
    isRunning s1 = false /\ pending s1 = [] /\
    pathLength s1 = Some 0%nat /\ visitedCount s1 = 1%nat.
Proof.
  pose proof overlapSession_facts as H.
  destruct (paint initialSession 12 40 ModeStart) as [s| |]; [|discriminate..].
  apply andb_true_iff in H as [H H4]. apply andb_true_iff in H as [H H3].
  apply andb_true_iff in H as [H1 H2].
  apply bool_decide_eq_true in H1, H2, H3, H4.
  destruct (coincident_start_end_immediate s (12, 40))
    as (run & s1 & Hrun & _ & Hpath & _ & _ & _ & _ & Hd & Hr & Hp & Hl & Hv).
  - exact H3.
  - exact H1.
  - exact H2.
  - reflexivity.
  - unfold notWallAt. rewrite H4. discriminate.
  - exists s, run, s1.
    exact (conj eq_refl (conj Hrun (conj Hpath (conj Hd (conj Hr (conj Hp
            (conj Hl Hv))))))).
Defined.

(** * Further properties *)

(** ** Shortest paths *)

Lemma walk_reachable g st p n : walk g st p n -> reachable g st p.
Proof.
  induction 1 as [c Hc Hw|p q c n _ IH Hq Hc Hw].
  - by eapply reachable_start.
  - by eapply reachable_step.
Qed.

Lemma reachable_walk g st p : reachable g st p -> exists n, walk g st p n.
Proof.
  induction 1 as [c Hc Hw|p q c _ [n IH] Hq Hc Hw].
  - exists 0%nat. by eapply walk_start.
  - exists (S n). by eapply walk_step.
Qed.

Lemma walk_cell g st p n :
  walk g st p n -> exists c, cellAt g p = Some c /\ type c <> TWall.
Proof. destruct 1; eauto. Qed.

Section ShortestPaths.
Variables (g0 : Grid) (st en : Coord).
Hypothesis Hwf : wellFormed g0.

Abbreviation Inv := (Inv g0 st en).
Abbreviation Shortest := (Shortest g0 st).

Lemma Inv_cell_of s p c0 :
  Inv s -> cellAt g0 p = Some c0 ->
  exists c, cellAt (currentGrid s) p = Some c /\ type c = persistentType (type c0).
Proof.
  intros HI Hc0. pose proof (inv_fixed _ _ _ _ HI p) as Hf. rewrite Hc0 in Hf.
  destruct (cellAt (currentGrid s) p) as [c|]; [|done]. exists c. split; [done|].
  cbn in Hf. congruence.
Qed.

Lemma Inv_in_pool s p c0 c :
  Inv s -> cellAt g0 p = Some c0 -> type c0 <> TWall ->
  cellAt (currentGrid s) p = Some c -> isVisited c = false ->
  p ∈ unvisitedNodes s.
Proof.
  intros HI Hc0 Hw Hc Hv. apply (inv_pool _ _ _ _ HI). exists c. split_and!; try done.
  destruct (Inv_cell_of s p c0 HI Hc0) as (c' & Hc' & Hty).
  rewrite Hc in Hc'. injection Hc' as <-. rewrite Hty. by rewrite persistentType_wall.
Qed.

(** Some node of the pool is at most as far as the end of any walk that
    ends at a cell not yet finalized. *)
Lemma frontier_walk s :
  Inv s -> Shortest s ->
  forall w m, walk g0 st w m ->
    (exists cw, cellAt (currentGrid s) w = Some cw /\ isVisited cw = true) \/
    (exists x cx, x ∈ unvisitedNodes s /\ cellAt (currentGrid s) x = Some cx /\
                  dle (distance cx) (Finite m)).
Proof.
  intros HI HS w m Hwalk. induction Hwalk as [c0 Hc0 Hw|p q c0 n Hp IH Hq Hc0 Hw].
  - destruct (Inv_cell_of s st c0 HI Hc0) as (c & Hc & _).
    destruct (isVisited c) eqn:Hv; [left; by exists c|]. right. exists st, c.
    split_and!; [by eapply Inv_in_pool|done|].
    rewrite (inv_start _ _ _ _ HI _ Hc). cbn. lia.
  - destruct IH as [(cp & Hcp & Hv)|(x & cx & Hx & Hcx & Hle)].
    + destruct (inv_visited _ _ _ _ HI _ _ Hcp Hv) as (_ & _ & k & Hk & Hclosed).
      pose proof (sh_min _ _ _ HS _ _ _ Hcp Hv Hk _ Hp) as Hkn.
      destruct (Inv_cell_of s q c0 HI Hc0) as (cq & Hcq & Hty).
      assert (type cq <> TWall) as Hwq by (rewrite Hty; by rewrite persistentType_wall).
      destruct (isVisited cq) eqn:Hvq; [left; by exists cq|].
      destruct (Hclosed q cq Hq Hcq Hwq) as [?|Hle]; [congruence|].
      right. exists q, cq. split_and!; [by eapply Inv_in_pool|done|].
      eapply dle_trans; [exact Hle|]. cbn. lia.
    + right. exists x, cx. split_and!; try done.
      eapply dle_trans; [exact Hle|]. cbn. lia.
Qed.

(** The node a turn takes has the length of a shortest walk to it as
    its distance. *)
Lemma pick_shortest s cur c d :
  Inv s -> Shortest s -> Pick s cur c -> distance c = Finite d ->
  forall m, walk g0 st cur m -> (d <= m)%nat.
Proof.
  intros HI HS (Hin & Hc & Hmin) Hd m Hwalk.
  destruct (frontier_walk s HI HS _ _ Hwalk)
    as [(c' & Hc' & Hv)|(x & cx & Hx & Hcx & Hle)].
  - apply (inv_pool _ _ _ _ HI) in Hin as (c'' & Hc'' & Hv'' & _). congruence.
  - pose proof (Hmin _ _ Hx Hcx) as Hle'. rewrite Hd in Hle'.
    destruct (distance cx) as [k|]; cbn in *; [lia|done].
Qed.

Lemma Shortest_step s cur c d s' :
  Inv s -> Shortest s -> Pick s cur c -> distance c = Finite d ->
  Step s cur d s' -> Shortest s'.
Proof.
  intros HI HS HP Hd HStep. pose proof HP as (Hin & Hc & Hmin).
  pose proof (proj1 (inv_pool _ _ _ _ HI cur) Hin) as (c_ & Hc_ & Hcv & Hcw).
  rewrite Hc in Hc_. injection Hc_ as <-.
  constructor.
  - intros p cp' n Hcp' Hw Hn.
    destruct (Step_cell _ _ _ _ _ _ HStep Hcp') as (cp & Hcp & ->).
    destruct (turnCell_fixed cur d p cp) as [_ Hty]. rewrite Hty in Hw.
    destruct (turnCell_distance cur d p cp) as [[Hdd _]|(_ & Hnb & _ & E)].
    + rewrite Hdd in Hn. by eapply (sh_walk _ _ _ HS).
    + rewrite E in Hn. cbn in Hn. injection Hn as <-. rewrite Nat.add_1_r.
      destruct (Inv_cell g0 st en Hwf _ _ _ HI Hcp) as (_ & _ & cp0 & Hcp0 & Htp).
      eapply walk_step; [|exact Hnb|exact Hcp0|].
      * by eapply (sh_walk _ _ _ HS).
      * intros E'. apply Hw. rewrite Htp, E'. done.
  - intros p cp' n Hcp' Hv' Hn m Hwalk.
    destruct (Step_cell _ _ _ _ _ _ HStep Hcp') as (cp & Hcp & ->).
    rewrite turnCell_isVisited in Hv'. destruct (decide (p = cur)) as [->|Hpc].
    + rewrite Hc in Hcp. injection Hcp as <-. unfold turnCell in Hn.
      rewrite bool_decide_eq_true_2 in Hn by done. cbn in Hn.
      rewrite Hd in Hn. injection Hn as <-. by eapply pick_shortest.
    + rewrite bool_decide_eq_false_2 in Hv' by done. cbn in Hv'.
      rewrite turnCell_visited in Hn by done. by eapply (sh_min _ _ _ HS).
Qed.

Lemma Shortest_init s0 :
  initialRunState g0 st = Ok s0 -> Inv s0 ->
  (forall p c, cellAt (currentGrid s0) p = Some c -> isVisited c = false) ->
  Shortest s0.
Proof.
  intros _ HI Hfresh. constructor.
  - intros p c n Hc Hw Hn. pose proof (inv_chain _ _ _ _ HI _ _ Hc) as Hch.
    unfold chainOk in Hch. rewrite Hn in Hch. destruct n as [|n].
    + destruct Hch as [_ ->].
      destruct (Inv_cell g0 st en Hwf _ _ _ HI Hc) as (_ & _ & c0 & Hc0 & Hty).
      eapply walk_start; [exact Hc0|]. intros E. apply Hw. by rewrite Hty, E.
    + destruct Hch as (q & cq & _ & Hq & Hv & _). by rewrite (Hfresh _ _ Hq) in Hv.
  - intros p c n Hc Hv. by rewrite (Hfresh _ _ Hc) in Hv.
Qed.

Lemma whileLoop_shortest fuel s :
  Inv s -> Shortest s -> (length (unvisitedNodes s) < fuel)%nat ->
  exists run, whileLoop fuel en s = Ok run /\
    (forall d, runPathLength run = Some d ->
       runExit run = ExitReached /\ walk g0 st en d /\
       forall m, walk g0 st en m -> (d <= m)%nat) /\
    (runPathLength run = None ->
       runExit run <> ExitReached /\ forall m, ~ walk g0 st en m).
Proof.
  intros HI HS. revert HI HS.
  enough (forall fuel s, Inv s /\ Shortest s ->
            (length (unvisitedNodes s) < fuel)%nat ->
            exists run, whileLoop fuel en s = Ok run /\
              (forall d, runPathLength run = Some d ->
                 runExit run = ExitReached /\ walk g0 st en d /\
                 forall m, walk g0 st en m -> (d <= m)%nat) /\
              (runPathLength run = None ->
                 runExit run <> ExitReached /\ forall m, ~ walk g0 st en m))
    as H by (intros; by apply H).
  clear fuel s.
  apply (whileLoop_rule g0 st en Hwf (fun s => Inv s /\ Shortest s)
           (fun s run =>
              (forall d, runPathLength run = Some d ->
                 runExit run = ExitReached /\ walk g0 st en d /\
                 forall m, walk g0 st en m -> (d <= m)%nat) /\
              (runPathLength run = None ->
                 runExit run <> ExitReached /\ forall m, ~ walk g0 st en m))).
  - by intros s [? ?].
  - intros s [HI HS] E. cbn. split; [done|]. intros _. split; [done|]. intros m Hwalk.
    destruct (frontier_walk s HI HS _ _ Hwalk)
      as [(c & Hc & Hv)|(x & cx & Hx & _)].
    + by destruct (inv_visited _ _ _ _ HI _ _ Hc Hv) as [? _].
    + rewrite E in Hx. by apply elem_of_nil in Hx.
  - intros s cur c [HI HS] (Hin & Hc & Hmin) Hd. cbn. split; [done|]. intros _.
    split; [done|]. intros m Hwalk.
    destruct (frontier_walk s HI HS _ _ Hwalk)
      as [(c' & Hc' & Hv)|(x & cx & Hx & Hcx & Hle)].
    + by destruct (inv_visited _ _ _ _ HI _ _ Hc' Hv) as [? _].
    + pose proof (Hmin _ _ Hx Hcx) as Hle'. rewrite Hd in Hle'.
      destruct (distance cx); cbn in *; done.
  - intros s c d path [HI HS] HP Hd (Hlen & _). cbn. split; [|done].
    intros d' [= <-]. rewrite Hlen. replace (S d - 1)%nat with d by lia.
    pose proof HP as (Hin & Hc & _).
    apply (inv_pool _ _ _ _ HI) in Hin as (c' & Hc' & _ & Hw).
    rewrite Hc in Hc'. injection Hc' as <-. split_and!; [done| |].
    + by eapply (sh_walk _ _ _ HS).
    + by eapply pick_shortest.
  - intros s cur c d s' [HI HS] HP Hd Hne HStep HI'. split; [|intros run HQ; exact HQ].
    split; [done|]. exact (Shortest_step s cur c d s' HI HS HP Hd HStep).
Qed.
End ShortestPaths.

Lemma search_shortest (g : Grid) (st en : Coord) :
  wellFormed g ->
  exists run, search g st en = Ok run /\
    (forall d, runPathLength run = Some d ->
       runExit run = ExitReached /\ walk g st en d /\
       forall m, walk g st en m -> (d <= m)%nat) /\
    (runPathLength run = None ->
       runExit run <> ExitReached /\ forall m, ~ walk g st en m).
Proof.
  intros Hwf. unfold search.
  destruct (initialRunState_Ok g st en Hwf) as (s0 & E & HI & _ & Hfresh). rewrite E.
  cbn [mbind Result_bind bindR].
  apply (whileLoop_shortest g st en Hwf); [done| |lia].
  by eapply Shortest_init.
Qed.

(** ** The reconstructed path *)

Lemma visit_lookup cur g q :
  cellAt (updCell (with_isVisited true) cur g) q =
  (if decide (cur = q) then with_isVisited true else id) <$> cellAt g q.
Proof.
  rewrite cellAt_updCell. destruct (decide (cur = q)); [done|].
  by destruct (cellAt g q).
Qed.

(** Following the [previous] links from a finalized node gives the
    positions of a walk from the start, one cell per unit of distance. *)
Lemma reconstruct_trail g g0 st :
  (forall p c, cellAt g p = Some c -> chainOk g st p c) ->
  (forall p c, cellAt g p = Some c -> coordOf c = p) ->
  Linked g ->
  (forall p c, cellAt g p = Some c -> isVisited c = true ->
               exists c0, cellAt g0 p = Some c0 /\ type c0 <> TWall) ->
  forall n fuel p c acc path,
    cellAt g p = Some c -> isVisited c = true -> distance c = Finite n ->
    reconstruct fuel g (Some p) acc = Ok path ->
    exists pre, path = pre ++ acc /\ length pre = S n /\
                trail g0 st p (coordOf <$> pre) /\
                forall i ci, pre !! i = Some ci ->
                  cellAt g (coordOf ci) = Some ci /\ distance ci = Finite i.
Proof.
  intros Hchain Hcoord Hlink Hvis.
  induction n as [|n IH]; intros fuel p c acc path Hc Hv Hd Hr.
  - destruct fuel as [|fuel]; [done|]. cbn [reconstruct] in Hr. rewrite Hc in Hr.
    cbn [ofOption mbind Result_bind bindR] in Hr.
    pose proof (Hchain _ _ Hc) as Hch. unfold chainOk in Hch. rewrite Hd in Hch.
    destruct Hch as [Hprev ->]. rewrite Hprev in Hr.
    assert (path = c :: acc) as -> by (destruct fuel; cbn in Hr; congruence).
    exists [c]. split_and!; [done|done| |].
    + cbn. rewrite (Hcoord _ _ Hc). destruct (Hvis _ _ Hc Hv) as (c0 & Hc0 & Hw).
      by eapply trail_start.
    + intros [|i] ci Hi; [|done]. injection Hi as <-. by rewrite (Hcoord _ _ Hc).
  - destruct fuel as [|fuel]; [done|]. cbn [reconstruct] in Hr. rewrite Hc in Hr.
    cbn [ofOption mbind Result_bind bindR] in Hr.
    pose proof (Hchain _ _ Hc) as Hch. unfold chainOk in Hch. rewrite Hd in Hch.
    destruct Hch as (q & cq & Hprev & Hq & Hvq & Hdq). rewrite Hprev in Hr.
    destruct (IH fuel q cq (c :: acc) path Hq Hvq Hdq Hr) as (pre & -> & Hlen & Htr & Hidx).
    exists (pre ++ [c]). split_and!.
    + by rewrite <- app_assoc.
    + rewrite length_app. cbn. lia.
    + rewrite fmap_app. cbn. rewrite (Hcoord _ _ Hc).
      destruct (Hvis _ _ Hc Hv) as (c0 & Hc0 & Hw).
      eapply trail_step; [exact Htr| |exact Hc0|exact Hw].
      by apply (Hlink _ _ _ Hc).
    + intros i ci Hi. apply lookup_app_Some in Hi as [Hi|[Hge Hi]].
      * by apply Hidx.
      * rewrite Hlen in Hge, Hi. apply list_lookup_singleton_Some in Hi as [Hi <-].
        assert (i = S n) as -> by lia. by rewrite (Hcoord _ _ Hc).
Qed.

Lemma trail_length g st p ps : trail g st p ps -> walk g st p (length ps - 1).
Proof.
  induction 1 as [c Hc Hw|p q c ps Htr IH Hq Hc Hw].
  - by eapply walk_start.
  - rewrite length_app. cbn.
    assert (length ps <> 0%nat) as Hne by (destruct Htr; [done|rewrite length_app; cbn; lia]).
    replace (length ps + 1 - 1)%nat with (S (length ps - 1)) by lia.
    by eapply walk_step.
Qed.

Lemma trail_ends g st p ps :
  trail g st p ps -> list.head ps = Some st /\ list.last ps = Some p.
Proof.
  induction 1 as [c Hc Hw|p q c ps Htr [IH1 IH2] Hq Hc Hw]; [done|].
  split; [|by rewrite last_snoc].
  destruct ps as [|x ps]; [done|]. exact IH1.
Qed.

Section Path.
Variables (g0 : Grid) (st en : Coord).
Hypothesis Hwf : wellFormed g0.

Abbreviation Inv := (Inv g0 st en).

Lemma Linked_step s cur d s' :
  Linked (currentGrid s) -> Step s cur d s' -> Linked (currentGrid s').
Proof.
  intros HL HS p c' q Hc' Hprev.
  destruct (Step_cell _ _ _ _ _ _ HS Hc') as (c & Hc & ->).
  destruct (turnCell_distance cur d p c) as [[_ E]|(_ & Hnb & _ & E)].
  - rewrite E in Hprev. by eapply HL.
  - rewrite E in Hprev. cbn in Hprev. by injection Hprev as <-.
Qed.

Lemma Linked_init s0 :
  Inv s0 ->
  (forall p c, cellAt (currentGrid s0) p = Some c -> isVisited c = false) ->
  Linked (currentGrid s0).
Proof.
  intros HI Hfresh p c q Hc Hprev.
  pose proof (inv_chain _ _ _ _ HI _ _ Hc) as Hch. unfold chainOk in Hch.
  destruct (distance c) as [[|n]|].
  - destruct Hch. congruence.
  - destruct Hch as (q' & cq & _ & Hq & Hv & _). by rewrite (Hfresh _ _ Hq) in Hv.
  - congruence.
Qed.

Lemma loopBody_reached s c k path :
  Inv s -> loopBody en s = Ok (Reached c k path) ->
  k = S (visitedCounter s) /\
  reconstruct k (updCell (with_isVisited true) (coordOf c) (currentGrid s))
    (Some (coordOf c)) [] = Ok path.
Proof.
  intros HI. unfold loopBody.
  destruct (unvisitedNodes s) as [|p0 ps] eqn:Hpool; [done|]. rewrite <- Hpool.
  destruct (resolve_Ok (currentGrid s) (unvisitedNodes s)) as (nodes & -> & Hfst & Hcells).
  { apply list.Forall_forall. intros p Hp. apply (inv_pool _ _ _ _ HI) in Hp as (c' & -> & _).
    by eexists. }
  cbn [mbind Result_bind bindR]. rewrite list.Forall_forall in Hcells.
  destruct (sortNodes nodes) as [|[cur c'] rest] eqn:Hsort; [done|].
  destruct (sortNodes_head _ _ _ Hsort) as (Hin & _).
  pose proof (Hcells _ Hin) as Hc. cbn in Hc.
  destruct (Inv_cell g0 st en Hwf _ _ _ HI Hc) as (_ & Hco & _).
  destruct (distance c'); [|done].
  destruct (decide (row c' = en.1 /\ col c' = en.2)).
  - destruct (reconstruct _ _ _ _) as [path'| |] eqn:Hr; cbn; [|done..].
    intros [= <- <- <-]. rewrite Hco. by split.
  - destruct (getNeighbors _ _); cbn; [|done..]. by destruct (relax _ _ _ _).
Qed.

(** The proof rule of the loop, with the path of the last turn given by
    its reconstruction. *)
Lemma whileLoop_rule_path (P : RunState -> Prop) (Q : RunState -> Run -> Prop) :
  (forall s, P s -> Inv s) ->
  (forall s, P s -> unvisitedNodes s = [] ->
     Q s (mkRun [] [] [] None (visitedCounter s) ExitEmpty [])) ->
  (forall s cur c, P s -> Pick s cur c -> distance c = POSITIVE_INFINITY ->
     Q s (mkRun [] [] [] None (visitedCounter s) ExitInfinite [])) ->
  (forall s c d path, P s -> Pick s en c -> distance c = Finite d ->
     pathOk st c d path ->
     reconstruct (S (visitedCounter s))
       (updCell (with_isVisited true) en (currentGrid s)) (Some en) [] = Ok path ->
     Q s (mkRun (showCurrent c ++ pathEvents path) [c] path
            (Some (length path - 1)%nat) (S (visitedCounter s)) ExitReached
              (reachedSteps c (S (visitedCounter s)) path))) ->
  (forall s cur c d s', P s -> Pick s cur c -> distance c = Finite d -> cur <> en ->
     Step s cur d s' -> Inv s' ->
     P s' /\ forall run, Q s' run -> Q s (finalize c (showVisited c) (turnSteps c (visitedCounter s')) run)) ->
  forall fuel s, P s -> (length (unvisitedNodes s) < fuel)%nat ->
    exists run, whileLoop fuel en s = Ok run /\ Q s run.
Proof.
  intros HPI Hempty Hinf Hreach Hcont. induction fuel as [|fuel IH]; intros s HP Hfuel.
  { lia. }
  cbn [whileLoop]. destruct (decide (unvisitedNodes s = [])) as [E|E].
  { unfold loopBody. rewrite E. cbn [mbind Result_bind bindR]. eexists.
    split; [done|]. by apply Hempty. }
  destruct (loopBody_pick g0 st en Hwf s (HPI _ HP) E) as (cur & c & HPick & Hbody).
  destruct (distance c) as [d|] eqn:Hd.
  - destruct (decide (cur = en)) as [->|Hen].
    + destruct Hbody as (path & Hb & Hpath).
      destruct (loopBody_reached _ _ _ _ (HPI _ HP) Hb) as [_ Hr].
      destruct HPick as (Hin & Hc & Hmin).
      destruct (Inv_cell g0 st en Hwf _ _ _ (HPI _ HP) Hc) as (_ & Hco & _).
      rewrite Hco in Hr. rewrite Hb. cbn [mbind Result_bind bindR].
      eexists. split; [done|]. by eapply Hreach.
    + destruct Hbody as (s' & -> & HS). cbn [mbind Result_bind bindR].
      pose proof (Inv_step g0 st en Hwf _ _ _ _ _ (HPI _ HP) HPick Hd Hen HS) as HI'.
      destruct (Hcont _ _ _ _ _ HP HPick Hd Hen HS HI') as [HP' HQ].
      destruct (IH s' HP') as (run & -> & Hrun).
      { destruct HS as (_ & Hperm & _). apply Permutation_length in Hperm.
        cbn in Hperm. lia. }
      cbn. eexists. split; [done|]. by apply HQ.
  - rewrite Hbody. cbn [mbind Result_bind bindR]. eexists. split; [done|].
    by eapply Hinf.
Qed.

(** The path of the turn that reaches the end. *)
Lemma reached_path s c d path :
  Inv s -> Linked (currentGrid s) -> Pick s en c -> distance c = Finite d ->
  reconstruct (S (visitedCounter s))
    (updCell (with_isVisited true) en (currentGrid s)) (Some en) [] = Ok path ->
  length path = S d /\ trail g0 st en (coordOf <$> path) /\
  forall i ci, path !! i = Some ci ->
    inBounds (coordOf ci) = true /\
    (coordOf ci = st <-> i = 0%nat) /\ (coordOf ci = en <-> i = d).
Proof.
  intros HI HL (Hin & Hc & _) Hd Hr.
  set (g1 := updCell (with_isVisited true) en (currentGrid s)) in *.
  assert (forall q c1, cellAt g1 q = Some c1 ->
            exists cq, cellAt (currentGrid s) q = Some cq /\
                       c1 = (if decide (en = q) then with_isVisited true else id) cq) as Hg1.
  { intros q c1. unfold g1. rewrite visit_lookup.
    destruct (cellAt (currentGrid s) q) as [cq|]; [|done]. intros [= <-]. by exists cq. }
  assert (forall q cq, cellAt (currentGrid s) q = Some cq ->
            cellAt g1 q = Some ((if decide (en = q) then with_isVisited true else id) cq))
    as Hg1'.
  { intros q cq Hq. unfold g1. by rewrite visit_lookup, Hq. }
  apply (inv_pool _ _ _ _ HI) in Hin as (c' & Hc' & _ & Hw).
  rewrite Hc in Hc'. injection Hc' as <-.
  destruct (reconstruct_trail g1 g0 st) with (n := d) (fuel := S (visitedCounter s))
    (p := en) (c := with_isVisited true c) (acc := @nil Cell) (path := path)
    as (pre & Hpath & Hlen & Htr & Hidx); try done.
  - intros p c1 Hc1. destruct (Hg1 _ _ Hc1) as (cp & Hcp & ->).
    pose proof (inv_chain _ _ _ _ HI p cp Hcp) as Hch. unfold chainOk in *.
    assert (distance ((if decide (en = p) then with_isVisited true else id) cp)
            = distance cp) as -> by (by destruct (decide (en = p))).
    assert (previous ((if decide (en = p) then with_isVisited true else id) cp)
            = previous cp) as -> by (by destruct (decide (en = p))).
    destruct (distance cp) as [[|n]|]; try done.
    destruct Hch as (q & cq & Hprev & Hq & Hv & Hdq).
    exists q, ((if decide (en = q) then with_isVisited true else id) cq).
    rewrite (Hg1' _ _ Hq). split_and!; try done; by destruct (decide (en = q)).
  - intros p c1 Hc1. destruct (Hg1 _ _ Hc1) as (cp & Hcp & ->).
    destruct (Inv_cell g0 st en Hwf _ _ _ HI Hcp) as (_ & Hco & _).
    by destruct (decide (en = p)).
  - intros p c1 q Hc1 Hprev. destruct (Hg1 _ _ Hc1) as (cp & Hcp & ->).
    apply (HL _ _ _ Hcp). by destruct (decide (en = p)).
  - intros p c1 Hc1 Hv. destruct (Hg1 _ _ Hc1) as (cp & Hcp & ->).
    destruct (Inv_cell g0 st en Hwf _ _ _ HI Hcp) as (_ & _ & c0 & Hc0 & Hty).
    exists c0. split; [done|]. intros E. rewrite E in Hty. cbn in Hty.
    destruct (decide (en = p)) as [<-|Hne].
    + rewrite Hc in Hcp. injection Hcp as <-. done.
    + cbn in Hv. by destruct (inv_visited _ _ _ _ HI _ _ Hcp Hv) as (_ & ? & _).
  - by rewrite (Hg1' _ _ Hc), decide_True.
  - rewrite app_nil_r in Hpath. subst pre. split_and!; [done..|].
    intros i ci Hi. destruct (Hidx _ _ Hi) as [Hci Hdi].
    destruct (Hg1 _ _ Hci) as (cp & Hcp & Hcieq).
    destruct (Inv_cell g0 st en Hwf _ _ _ HI Hcp) as (Hb & _).
    assert (distance ci = distance cp) as Hdcp
      by (rewrite Hcieq; by destruct (decide (en = coordOf ci))).
    split_and!; [done| |].
    + split.
      * intros E. rewrite E in Hcp. pose proof (inv_start _ _ _ _ HI _ Hcp). congruence.
      * intros ->. destruct (trail_ends _ _ _ _ Htr) as [Hhd _].
        clear -Hi Hhd. destruct path as [|x path]; [done|]. cbn in Hi, Hhd. congruence.
    + split.
      * intros E. rewrite E in Hcp. congruence.
      * intros ->. destruct (trail_ends _ _ _ _ Htr) as [_ Hla].
        rewrite last_lookup, length_fmap, Hlen in Hla. cbn in Hla.
        rewrite list_lookup_fmap, Hi in Hla. cbn in Hla. congruence.
Qed.
End Path.

(** ** What a run finalizes and shows *)

Section RunFacts.
Variables (g0 : Grid) (st en : Coord).
Hypothesis Hwf : wellFormed g0.

Abbreviation Inv := (Inv g0 st en).
Abbreviation Shortest := (Shortest g0 st).

Abbreviation Sound := (Sound g0 st en).

Lemma Sound_initial :
  exists s0, initialRunState g0 st = Ok s0 /\ Sound s0 /\ visitedCounter s0 = 0%nat /\
             (forall p c, cellAt (currentGrid s0) p = Some c -> isVisited c = false).
Proof.
  destruct (initialRunState_Ok g0 st en Hwf) as (s0 & E & HI & Hk & Hfresh).
  exists s0. split_and!; try done.
  split; [done|]. split; [by eapply Shortest_init|by eapply Linked_init].
Qed.

(** The proof rule of the loop over [Sound] states. *)
Lemma run_rule (Q : RunState -> Run -> Prop) :
  (forall s, Sound s -> unvisitedNodes s = [] ->
     Q s (mkRun [] [] [] None (visitedCounter s) ExitEmpty [])) ->
  (forall s cur c, Sound s -> Pick s cur c -> distance c = POSITIVE_INFINITY ->
     Q s (mkRun [] [] [] None (visitedCounter s) ExitInfinite [])) ->
  (forall s c d path, Sound s -> Pick s en c -> distance c = Finite d ->
     coordOf c = en ->
     length path = S d ->
     trail g0 st en (coordOf <$> path) ->
     (forall i ci, path !! i = Some ci ->
        inBounds (coordOf ci) = true /\
        (coordOf ci = st <-> i = 0%nat) /\ (coordOf ci = en <-> i = d)) ->
     Q s (mkRun (showCurrent c ++ pathEvents path) [c] path
            (Some d) (S (visitedCounter s)) ExitReached
            (reachedSteps c (S (visitedCounter s)) path))) ->
  (forall s cur c d s', Sound s -> Pick s cur c -> distance c = Finite d -> cur <> en ->
     coordOf c = cur -> Step s cur d s' -> Sound s' ->
     forall run, Q s' run -> Q s (finalize c (showVisited c) (turnSteps c (visitedCounter s')) run)) ->
  forall fuel s, Sound s -> (length (unvisitedNodes s) < fuel)%nat ->
    exists run, whileLoop fuel en s = Ok run /\ Q s run.
Proof.
  intros Hempty Hinf Hreach Hcont.
  apply (whileLoop_rule_path g0 st en Hwf Sound Q).
  - by intros s (? & _).
  - done.
  - done.
  - intros s c d path HS HP Hd (Hlen' & _) Hr. pose proof HS as (HI & _ & HL).
    destruct (reached_path g0 st en Hwf s c d path HI HL HP Hd Hr) as (Hlen & Htr & Hidx).
    rewrite Hlen. replace (S d - 1)%nat with d by lia.
    destruct HP as (Hin & Hc & Hmin).
    destruct (Inv_cell g0 st en Hwf _ _ _ HI Hc) as (_ & Hco & _).
    by apply Hreach.
  - intros s cur c d s' HS HP Hd Hne HStep HI'. pose proof HS as (HI & HSh & HL).
    assert (Sound s') as HS'.
    { split; [done|]. split; [|by eapply Linked_step].
      exact (Shortest_step g0 st en Hwf s cur c d s' HI HSh HP Hd HStep). }
    split; [done|]. destruct HP as (Hin & Hc & Hmin).
    destruct (Inv_cell g0 st en Hwf _ _ _ HI Hc) as (_ & Hco & _).
    by apply (Hcont s cur c d s').
Qed.

(** The counter grows by one per finalized node, no node is finalized
    twice, and no wall is finalized. *)
Lemma whileLoop_count fuel s :
  Sound s -> (length (unvisitedNodes s) < fuel)%nat ->
  exists run, whileLoop fuel en s = Ok run /\
    runVisitedCount run = (visitedCounter s + length (finalizedNodes run))%nat /\
    coordOf <$> finalizedNodes run ⊆+ unvisitedNodes s /\
    (forall d, runPathLength run = Some d -> (d < runVisitedCount run)%nat) /\
    Forall (fun c => type c <> TWall) (finalizedNodes run).
Proof.
  revert fuel s.
  assert (forall s cur c, Sound s -> Pick s cur c -> type c <> TWall) as Hpick.
  { intros s cur c (HI & _) (Hin & Hc & _).
    apply (inv_pool _ _ _ _ HI) in Hin as (c' & Hc' & _ & Hw). congruence. }
  apply (run_rule (fun s run =>
    runVisitedCount run = (visitedCounter s + length (finalizedNodes run))%nat /\
    coordOf <$> finalizedNodes run ⊆+ unvisitedNodes s /\
    (forall d, runPathLength run = Some d -> (d < runVisitedCount run)%nat) /\
    Forall (fun c => type c <> TWall) (finalizedNodes run))).
  - intros s _ _. cbn. split_and!; [lia|apply submseteq_nil_l|done|constructor].
  - intros s cur c _ _ _. cbn. split_and!; [lia|apply submseteq_nil_l|done|constructor].
  - intros s c d path HS HP Hd Hco _ _ _. pose proof (Hpick _ _ _ HS HP) as Hw.
    destruct HS as (HI & _). destruct HP as (Hin & Hc & _). cbn. split_and!; [lia| | |].
    + rewrite Hco. by apply singleton_submseteq_l.
    + intros d' [= <-]. pose proof (inv_count _ _ _ _ HI _ _ _ Hc Hd). lia.
    + by repeat constructor.
  - intros s cur c d s' HS HP _ _ Hco (Hk & Hperm & _) _ run (H1 & H2 & H3 & H4). cbn.
    split_and!.
    + rewrite H1, Hk. lia.
    + rewrite Hco, <- Hperm. by apply submseteq_skip.
    + done.
    + constructor; [|done]. by eapply Hpick.
Qed.

(** Each finalized node carries the length of a shortest walk to it. *)
Lemma whileLoop_settled fuel s :
  Sound s -> (length (unvisitedNodes s) < fuel)%nat ->
  exists run, whileLoop fuel en s = Ok run /\
    Forall (fun c => exists n, distance c = Finite n /\ walk g0 st (coordOf c) n /\
                               forall m, walk g0 st (coordOf c) m -> (n <= m)%nat)
      (finalizedNodes run).
Proof.
  revert fuel s.
  assert (forall s cur c d, Sound s -> Pick s cur c -> distance c = Finite d ->
            coordOf c = cur ->
            exists n, distance c = Finite n /\ walk g0 st (coordOf c) n /\
                      forall m, walk g0 st (coordOf c) m -> (n <= m)%nat) as Hpick.
  { intros s cur c d (HI & HSh & _) HP Hd Hco. exists d. rewrite Hco.
    pose proof HP as (Hin & Hc & _).
    apply (inv_pool _ _ _ _ HI) in Hin as (c' & Hc' & _ & Hw).
    rewrite Hc in Hc'. injection Hc' as <-. split_and!; [done| |].
    - by eapply (sh_walk _ _ _ HSh).
    - by eapply pick_shortest. }
  apply (run_rule (fun s run =>
    Forall (fun c => exists n, distance c = Finite n /\ walk g0 st (coordOf c) n /\
                               forall m, walk g0 st (coordOf c) m -> (n <= m)%nat)
      (finalizedNodes run))).
  - intros. constructor.
  - intros. constructor.
  - intros s c d path HS HP Hd Hco _ _ _. cbn. constructor; [|constructor].
    by eapply Hpick.
  - intros s cur c d s' HS HP Hd _ Hco _ _ run Hrun. cbn. constructor; [|done].
    by eapply Hpick.
Qed.

(** Every cell nearer than the end is finalized before the end is, and
    when the end is not reached every cell that can be walked to is
    finalized. *)
Lemma whileLoop_explored fuel s :
  Sound s -> (length (unvisitedNodes s) < fuel)%nat ->
  exists run, whileLoop fuel en s = Ok run /\
    forall w m, walk g0 st w m ->
      match runPathLength run with
      | Some d => (m < d)%nat
      | None => True
      end ->
      finalizedIn s w \/ w ∈ coordOf <$> finalizedNodes run.
Proof.
  revert fuel s.
  apply (run_rule (fun s run =>
    forall w m, walk g0 st w m ->
      match runPathLength run with
      | Some d => (m < d)%nat
      | None => True
      end ->
      finalizedIn s w \/ w ∈ coordOf <$> finalizedNodes run)).
  - intros s (HI & HSh & _) E w m Hwalk _. left.
    destruct (frontier_walk g0 st en s HI HSh _ _ Hwalk)
      as [(c & Hc & Hv)|(x & cx & Hx & _)]; [by exists c|].
    rewrite E in Hx. by apply elem_of_nil in Hx.
  - intros s cur c (HI & HSh & _) (Hin & Hc & Hmin) Hd w m Hwalk _. left.
    destruct (frontier_walk g0 st en s HI HSh _ _ Hwalk)
      as [(c' & Hc' & Hv)|(x & cx & Hx & Hcx & Hle)]; [by exists c'|].
    pose proof (Hmin _ _ Hx Hcx) as Hle'. rewrite Hd in Hle'.
    destruct (distance cx); cbn in *; done.
  - intros s c d path (HI & HSh & _) (Hin & Hc & Hmin) Hd _ _ _ _ w m Hwalk Hm.
    cbn in Hm. left.
    destruct (frontier_walk g0 st en s HI HSh _ _ Hwalk)
      as [(c' & Hc' & Hv)|(x & cx & Hx & Hcx & Hle)]; [by exists c'|].
    pose proof (Hmin _ _ Hx Hcx) as Hle'. rewrite Hd in Hle'.
    destruct (distance cx); cbn in *; [lia|done].
  - intros s cur c d s' _ _ _ _ Hco HStep _ run Hrun w m Hwalk Hm. cbn in *.
    destruct (Hrun w m Hwalk Hm) as [(c' & Hc' & Hv)|Hin].
    + destruct (Step_cell _ _ _ _ _ _ HStep Hc') as (cw & Hcw & ->).
      rewrite turnCell_isVisited in Hv. destruct (decide (w = cur)) as [->|Hne].
      * right. rewrite <- Hco. apply elem_of_cons. by left.
      * rewrite bool_decide_eq_false_2 in Hv by done. left. by exists cw.
    + right. apply elem_of_cons. by right.
Qed.

(** The display updates of a run follow the order of finalization, and
    the path is shown last. *)
Lemma whileLoop_shows fuel s :
  Sound s -> (length (unvisitedNodes s) < fuel)%nat ->
  exists run, whileLoop fuel en s = Ok run /\
    events run = (finalizedNodes run ≫= shownFor en) ++ pathEvents (runPath run) /\
    (runPathLength run = None -> runPath run = []).
Proof.
  revert fuel s.
  apply (run_rule (fun s run =>
    events run = (finalizedNodes run ≫= shownFor en) ++ pathEvents (runPath run) /\
    (runPathLength run = None -> runPath run = []))).
  - done.
  - done.
  - intros s c d path _ _ _ Hco _ _ _. cbn. split; [|done].
    unfold shownFor. rewrite decide_True by done. by rewrite app_nil_r.
  - intros s cur c d s' _ _ _ Hne Hco _ _ run [Hev Hnone]. cbn. split; [|done].
    rewrite Hev. unfold shownFor at 2. rewrite decide_False by congruence.
    by rewrite app_assoc.
Qed.

(** The path of a run that reaches the end. *)
Lemma whileLoop_path fuel s :
  Sound s -> (length (unvisitedNodes s) < fuel)%nat ->
  exists run, whileLoop fuel en s = Ok run /\
    forall d, runPathLength run = Some d ->
      length (runPath run) = S d /\
      trail g0 st en (coordOf <$> runPath run) /\
      forall i ci, runPath run !! i = Some ci ->
        inBounds (coordOf ci) = true /\
        (coordOf ci = st <-> i = 0%nat) /\ (coordOf ci = en <-> i = d).
Proof.
  revert fuel s.
  apply (run_rule (fun s run =>
    forall d, runPathLength run = Some d ->
      length (runPath run) = S d /\
      trail g0 st en (coordOf <$> runPath run) /\
      forall i ci, runPath run !! i = Some ci ->
        inBounds (coordOf ci) = true /\
        (coordOf ci = st <-> i = 0%nat) /\ (coordOf ci = en <-> i = d))).
  - done.
  - done.
  - intros s c d path _ _ _ _ Hlen Htr Hidx d' [= <-]. by cbn.
  - intros s cur c d s' _ _ _ _ _ _ _ run Hrun. exact Hrun.
Qed.
End RunFacts.

(** ** The search as a whole *)

Lemma search_Sound g st en :
  wellFormed g ->
  exists s0, Sound g st en s0 /\ visitedCounter s0 = 0%nat /\
    (forall p c, cellAt (currentGrid s0) p = Some c -> isVisited c = false) /\
    search g st en = whileLoop (S (length (unvisitedNodes s0))) en s0.
Proof.
  intros Hwf. destruct (Sound_initial g st en Hwf) as (s0 & E & HS & Hk & Hfresh).
  exists s0. split_and!; try done. unfold search. by rewrite E.
Qed.

Lemma fresh_not_finalized s w :
  (forall p c, cellAt (currentGrid s) p = Some c -> isVisited c = false) ->
  ~ finalizedIn s w.
Proof. intros Hfresh (c & Hc & Hv). rewrite (Hfresh _ _ Hc) in Hv. done. Qed.

(** X1.  On any grid, with or without walls, the path length a search
    reports is the length of a walk from the start to the end over
    non-wall cells, and no such walk is shorter. *)
Theorem search_reports_shortest_walk (g : Grid) (st en : Coord) :
  wellFormed g ->
  exists run, search g st en = Ok run /\
    forall d, runPathLength run = Some d ->
      walk g st en d /\ forall m, walk g st en m -> (d <= m)%nat.
Proof.
  intros Hwf. destruct (search_shortest g st en Hwf) as (run & Hrun & Hsome & _).
  exists run. split; [exact Hrun|]. intros d Hd.
  destruct (Hsome d Hd) as (_ & Hw & Hmin). by split.
Qed.

Lemma search_reports_shortest_walk_witness :
  exists run, search initialGrid defaultStart defaultEnd = Ok run /\
    forall d, runPathLength run = Some d ->
      walk initialGrid defaultStart defaultEnd d /\
      forall m, walk initialGrid defaultStart defaultEnd m -> (d <= m)%nat.
Proof.
  apply (search_reports_shortest_walk initialGrid defaultStart defaultEnd).
  vm_compute. reflexivity.
Defined.

(** X2.  A search reports a path exactly when the end can be walked to
    from the start over non-wall cells, and exactly then it stops on
    reaching the end. *)
Theorem search_finds_path_iff_reachable (g : Grid) (st en : Coord) :
  wellFormed g ->
  exists run, search g st en = Ok run /\
    (reachable g st en <-> is_Some (runPathLength run)) /\
    (is_Some (runPathLength run) <-> runExit run = ExitReached).
Proof.
  intros Hwf. destruct (search_shortest g st en Hwf) as (run & Hrun & Hsome & Hnone).
  exists run. split; [exact Hrun|]. split; split.
  - intros [m Hm]%reachable_walk. destruct (runPathLength run) as [d|] eqn:E; [by eexists|].
    destruct (Hnone eq_refl) as [_ Hno]. by destruct (Hno m).
  - intros [d Hd]. destruct (Hsome d Hd) as (_ & Hw & _). by eapply walk_reachable.
  - intros [d Hd]. by destruct (Hsome d Hd).
  - intros Hex. destruct (runPathLength run) as [d|] eqn:E; [by eexists|].
    by destruct (Hnone eq_refl).
Qed.

Lemma search_finds_path_iff_reachable_witness :
  exists run, search barrierGrid defaultStart defaultEnd = Ok run /\
    (reachable barrierGrid defaultStart defaultEnd <-> is_Some (runPathLength run)) /\
    (is_Some (runPathLength run) <-> runExit run = ExitReached).
Proof.
  apply (search_finds_path_iff_reachable barrierGrid defaultStart defaultEnd).
  vm_compute. reflexivity.
Defined.

(** X3.  The path a search reconstructs holds one cell more than the
    reported length, and its positions are those of a walk: it begins at
    the start, ends at the end, and each cell is a non-wall cell one step
    Up, Right, Down or Left of the one before. *)
Theorem search_path_is_walk (g : Grid) (st en : Coord) :
  wellFormed g ->
  exists run, search g st en = Ok run /\
    forall d, runPathLength run = Some d ->
      length (runPath run) = S d /\
      trail g st en (coordOf <$> runPath run) /\
      list.head (coordOf <$> runPath run) = Some st /\
      list.last (coordOf <$> runPath run) = Some en.
Proof.
  intros Hwf. destruct (search_Sound g st en Hwf) as (s0 & HS & _ & _ & ->).
  destruct (whileLoop_path g st en Hwf (S (length (unvisitedNodes s0))) s0 HS)
    as (run & Hrun & Hpath); [lia|].
  exists run. split; [exact Hrun|]. intros d Hd.
  destruct (Hpath d Hd) as (Hlen & Htr & _).
  destruct (trail_ends _ _ _ _ Htr) as [Hh Hl]. done.
Qed.

Lemma search_path_is_walk_witness :
  exists run, search initialGrid defaultStart defaultEnd = Ok run /\
    forall d, runPathLength run = Some d ->
      length (runPath run) = S d /\
      trail initialGrid defaultStart defaultEnd (coordOf <$> runPath run) /\
      list.head (coordOf <$> runPath run) = Some defaultStart /\
      list.last (coordOf <$> runPath run) = Some defaultEnd.
Proof.
  apply (search_path_is_walk initialGrid defaultStart defaultEnd).
  vm_compute. reflexivity.
Defined.

(** X4.  When a search reaches the end at distance [d], every cell that
    can be walked to in fewer than [d] steps has been finalized. *)
Theorem search_explores_nearer_cells_first (g : Grid) (st en : Coord) :
  wellFormed g ->
  exists run, search g st en = Ok run /\
    forall d w m, runPathLength run = Some d -> walk g st w m -> (m < d)%nat ->
                  w ∈ coordOf <$> finalizedNodes run.
Proof.
  intros Hwf. destruct (search_Sound g st en Hwf) as (s0 & HS & _ & Hfresh & ->).
  destruct (whileLoop_explored g st en Hwf (S (length (unvisitedNodes s0))) s0 HS)
    as (run & Hrun & Hex); [lia|].
  exists run. split; [exact Hrun|]. intros d w m Hd Hwalk Hm.
  destruct (Hex w m Hwalk) as [Hfin|Hin]; [by rewrite Hd| |done].
  by destruct (fresh_not_finalized _ _ Hfresh Hfin).
Qed.

Lemma search_explores_nearer_cells_first_witness :
  exists run, search initialGrid defaultStart defaultEnd = Ok run /\
    forall d w m, runPathLength run = Some d ->
                  walk initialGrid defaultStart w m -> (m < d)%nat ->
                  w ∈ coordOf <$> finalizedNodes run.
Proof.
  apply (search_explores_nearer_cells_first initialGrid defaultStart defaultEnd).
  vm_compute. reflexivity.
Defined.

(** X5.  Every node a search finalizes carries, as its distance, the
    length of a shortest walk from the start to it. *)
Theorem search_finalized_distances_shortest (g : Grid) (st en : Coord) :
  wellFormed g ->
  exists run, search g st en = Ok run /\
    forall c, c ∈ finalizedNodes run ->
      exists n, distance c = Finite n /\ walk g st (coordOf c) n /\
                forall m, walk g st (coordOf c) m -> (n <= m)%nat.
Proof.
  intros Hwf. destruct (search_Sound g st en Hwf) as (s0 & HS & _ & _ & ->).
  destruct (whileLoop_settled g st en Hwf (S (length (unvisitedNodes s0))) s0 HS)
    as (run & Hrun & Hall); [lia|].
  exists run. split; [exact Hrun|]. by apply list.Forall_forall.
Qed.

Lemma search_finalized_distances_shortest_witness :
  exists run, search barrierGrid defaultStart defaultEnd = Ok run /\
    forall c, c ∈ finalizedNodes run ->
      exists n, distance c = Finite n /\ walk barrierGrid defaultStart (coordOf c) n /\
                forall m, walk barrierGrid defaultStart (coordOf c) m -> (n <= m)%nat.
Proof.
  apply (search_finalized_distances_shortest barrierGrid defaultStart defaultEnd).
  vm_compute. reflexivity.
Defined.

(** X6.  A search that reports no path has finalized exactly the cells
    that can be walked to from the start. *)
Theorem search_without_path_explores_reachable (g : Grid) (st en : Coord) :
  wellFormed g ->
  exists run, search g st en = Ok run /\
    (runPathLength run = None ->
     forall p, reachable g st p <-> p ∈ coordOf <$> finalizedNodes run).
Proof.
  intros Hwf. destruct (search_Sound g st en Hwf) as (s0 & HS & _ & Hfresh & ->).
  destruct (whileLoop_explored g st en Hwf (S (length (unvisitedNodes s0))) s0 HS)
    as (run & Hrun & Hex); [lia|].
  destruct (whileLoop_settled g st en Hwf (S (length (unvisitedNodes s0))) s0 HS)
    as (run' & Hrun' & Hall); [lia|].
  rewrite Hrun in Hrun'. injection Hrun' as <-.
  exists run. split; [exact Hrun|]. intros Hnone p. split.
  - intros [m Hm]%reachable_walk.
    destruct (Hex p m Hm) as [Hfin|Hin]; [by rewrite Hnone| |done].
    by destruct (fresh_not_finalized _ _ Hfresh Hfin).
  - intros (c & -> & Hc)%list_elem_of_fmap. rewrite list.Forall_forall in Hall.
    destruct (Hall c Hc) as (n & _ & Hw & _). by eapply walk_reachable.
Qed.

Lemma search_without_path_explores_reachable_witness :
  exists run, search barrierGrid defaultStart defaultEnd = Ok run /\
    (runPathLength run = None ->
     forall p, reachable barrierGrid defaultStart p <->
               p ∈ coordOf <$> finalizedNodes run).
Proof.
  apply (search_without_path_explores_reachable barrierGrid defaultStart defaultEnd).
  vm_compute. reflexivity.
Defined.

(** X7.  The visited count of a search is the number of nodes it
    finalized; no position is finalized twice, none is a wall, so the
    count never exceeds the number of non-wall cells; and a reported path
    length is below the count. *)
Theorem search_visited_count (g : Grid) (st en : Coord) :
  wellFormed g ->
  exists run, search g st en = Ok run /\
    runVisitedCount run = length (finalizedNodes run) /\
    NoDup (coordOf <$> finalizedNodes run) /\
    (forall c, c ∈ finalizedNodes run ->
               type c <> TWall /\ notWallAt g (coordOf c)) /\
    (runVisitedCount run <= length (filter (notWallAt g) allPositions))%nat /\
    (forall d, runPathLength run = Some d -> (d < runVisitedCount run)%nat).
Proof.
  intros Hwf. destruct (search_Sound g st en Hwf) as (s0 & HS & Hk & _ & ->).
  destruct (whileLoop_count g st en Hwf (S (length (unvisitedNodes s0))) s0 HS)
    as (run & Hrun & Hcount & Hsub & Hlt & Hnw); [lia|].
  destruct HS as (HI & _). pose proof Hsub as Hsub'.
  assert (NoDup (coordOf <$> finalizedNodes run)) as Hnd.
  { apply submseteq_sublist_l in Hsub as (l2 & Hsl & Hperm).
    eapply sublist_NoDup; [|exact Hsl]. rewrite Hperm. apply (inv_nodup _ _ _ _ HI). }
  assert (forall p, p ∈ coordOf <$> finalizedNodes run -> notWallAt g p) as Hpos.
  { intros p Hp0. pose proof (elem_of_submseteq _ _ _ Hp0 Hsub') as Hp.
    apply (inv_pool _ _ _ _ HI) in Hp as (c & Hc & _ & Hw).
    destruct (Inv_cell g st en Hwf _ _ _ HI Hc) as (Hb & _ & c0 & Hc0 & Hty).
    unfold notWallAt, typeAt. rewrite Hc0. cbn. intros [= E]. apply Hw.
    by rewrite Hty, E. }
  exists run. split; [exact Hrun|]. split_and!; try done.
  - rewrite Hcount, Hk. done.
  - intros c Hc. rewrite list.Forall_forall in Hnw. split; [by apply Hnw|].
    apply Hpos, list_elem_of_fmap. by exists c.
  - rewrite Hcount, Hk. cbn. rewrite <- (length_fmap coordOf).
    apply submseteq_length, NoDup_submseteq; [done|].
    intros p Hp0. apply list_elem_of_filter. split; [by apply Hpos|].
    pose proof (elem_of_submseteq _ _ _ Hp0 Hsub') as Hp.
    apply (inv_pool _ _ _ _ HI) in Hp as (c & Hc & _).
    destruct (Inv_cell g st en Hwf _ _ _ HI Hc) as (Hb & _).
    by apply elem_of_allPositions.
Qed.

Lemma search_visited_count_witness :
  exists run, search barrierGrid defaultStart defaultEnd = Ok run /\
    runVisitedCount run = length (finalizedNodes run) /\
    NoDup (coordOf <$> finalizedNodes run) /\
    (forall c, c ∈ finalizedNodes run ->
               type c <> TWall /\ notWallAt barrierGrid (coordOf c)) /\
    (runVisitedCount run <= length (filter (notWallAt barrierGrid) allPositions))%nat /\
    (forall d, runPathLength run = Some d -> (d < runVisitedCount run)%nat).
Proof.
  apply (search_visited_count barrierGrid defaultStart defaultEnd).
  vm_compute. reflexivity.
Defined.

(** X8.  The display updates of a search come in the order of
    finalization: a node other than start and end turns "current" and
    then "visited", the end only "current", and the updates that draw the
    interior of the path come last. *)
Theorem search_shows_finalization_order (g : Grid) (st en : Coord) :
  wellFormed g ->
  exists run, search g st en = Ok run /\
    events run = (finalizedNodes run ≫= shownFor en) ++
                 ((fun c => EvPath (coordOf c)) <$> interior (runPath run)).
Proof.
  intros Hwf. destruct (search_Sound g st en Hwf) as (s0 & HS & _ & _ & ->).
  destruct (whileLoop_shows g st en Hwf (S (length (unvisitedNodes s0))) s0 HS)
    as (run & Hrun & Hev & _); [lia|].
  exists run. split; [exact Hrun|]. exact Hev.
Qed.

Lemma search_shows_finalization_order_witness :
  exists run, search initialGrid defaultStart defaultEnd = Ok run /\
    events run = (finalizedNodes run ≫= shownFor defaultEnd) ++
                 ((fun c => EvPath (coordOf c)) <$> interior (runPath run)).
Proof.
  apply (search_shows_finalization_order initialGrid defaultStart defaultEnd).
  vm_compute. reflexivity.
Defined.

(** ** A run and the kinds of the cells *)

Lemma persistentType_idem t : persistentType (persistentType t) = persistentType t.
Proof. by destruct t. Qed.

Lemma persistentType_cases t :
  persistentType t = TEmpty \/ t = TWall \/ t = TStart \/ t = TEnd.
Proof. destruct t; auto. Qed.

Lemma clearedGrid_lookup g p : cellAt (clearedGrid g) p = clearedCell <$> cellAt g p.
Proof. apply cellAt_fmap. Qed.

Lemma clearedGrid_idem g : clearedGrid (clearedGrid g) = clearedGrid g.
Proof.
  unfold clearedGrid. rewrite <- list_fmap_compose. apply list_fmap_ext.
  intros _ cells _. cbn. rewrite <- list_fmap_compose. apply list_fmap_ext.
  intros _ c _. cbn. unfold clearedCell. cbn. by rewrite persistentType_idem.
Qed.

Lemma workingCopy_cleared st g : workingCopy st (clearedGrid g) = workingCopy st g.
Proof.
  unfold workingCopy, clearedGrid. rewrite <- list_fmap_compose. apply list_fmap_ext.
  intros _ cells _. cbn. rewrite <- list_fmap_compose. apply list_fmap_ext.
  intros _ c _. cbn. unfold workingCell, clearedCell. cbn. by rewrite persistentType_idem.
Qed.

Lemma search_cleared g st en : search (clearedGrid g) st en = search g st en.
Proof. unfold search, initialRunState. by rewrite workingCopy_cleared. Qed.

(** An update that keeps the cleared form of the cell it touches keeps
    the cleared form of the grid. *)
Lemma clearedGrid_updCell f p g :
  (forall c, cellAt g p = Some c -> clearedCell (f c) = clearedCell c) ->
  clearedGrid (updCell f p g) = clearedGrid g.
Proof.
  intros Hf. apply grid_ext.
  - unfold clearedGrid. by rewrite !length_fmap, updCell_length.
  - intros i r1 r2. unfold clearedGrid. rewrite !list_lookup_fmap.
    destruct (updCell f p g !! i) as [r1'|] eqn:E1; [|done].
    destruct (g !! i) as [r2'|] eqn:E2; [|done]. cbn. intros [= <-] [= <-].
    rewrite !length_fmap. by eapply updCell_row_length.
  - intros q. rewrite !clearedGrid_lookup, cellAt_updCell.
    destruct (decide (p = q)) as [<-|]; [|done].
    destruct (cellAt g p) as [c|] eqn:Hc; [|done]. cbn. f_equal. by apply Hf.
Qed.

Lemma trail_cells g st p ps :
  trail g st p ps ->
  forall q, q ∈ ps -> exists c, cellAt g q = Some c /\ type c <> TWall.
Proof.
  induction 1 as [c Hc Hw|p q c ps Htr IH Hq Hc Hw]; intros x Hx.
  - apply list_elem_of_singleton in Hx as ->. by exists c.
  - apply elem_of_app in Hx as [Hx|Hx]; [by apply IH|].
    apply list_elem_of_singleton in Hx as ->. by exists c.
Qed.

Section Kinds.
Variables (g0 : Grid) (st en : Coord).
Hypothesis Hwf : wellFormed g0.
Hypothesis Hmarks : marksAt g0 (Some st) (Some en).

Lemma shown_onEmptyKind s cur c ev :
  Inv g0 st en s -> Pick s cur c -> ev ∈ showVisited c -> onEmptyKind g0 ev.
Proof.
  intros HI (Hin & Hc & _) Hev.
  apply (inv_pool _ _ _ _ HI) in Hin as (c' & Hc' & _ & Hw).
  rewrite Hc in Hc'. injection Hc' as <-.
  destruct (Inv_cell g0 st en Hwf _ _ _ HI Hc) as (_ & Hco & c0 & Hc0 & Hty).
  unfold showVisited, displayed in Hev.
  destruct (bool_decide (type c = TStart)) eqn:E1; [by apply elem_of_nil in Hev|].
  destruct (bool_decide (type c = TEnd)) eqn:E2; [by apply elem_of_nil in Hev|].
  apply bool_decide_eq_false in E1, E2. cbn in Hev.
  assert ((eventType ev).2 = cur) as Hp.
  { rewrite <- Hco. apply elem_of_cons in Hev as [->|Hev]; [done|].
    by apply list_elem_of_singleton in Hev as ->. }
  exists c0. rewrite Hp. split; [done|].
  destruct (persistentType_cases (type c0)) as [E|[E|[E|E]]]; [done|..];
    rewrite E in Hty; cbn in Hty; congruence.
Qed.

Lemma whileLoop_onEmptyKind fuel s :
  Sound g0 st en s -> (length (unvisitedNodes s) < fuel)%nat ->
  exists run, whileLoop fuel en s = Ok run /\ Forall (onEmptyKind g0) (events run).
Proof.
  revert fuel s.
  apply (run_rule g0 st en Hwf (fun s run => Forall (onEmptyKind g0) (events run))).
  - intros. constructor.
  - intros. constructor.
  - intros s c d path (HI & _) HP Hd Hco Hlen Htr Hidx. cbn. apply Forall_app. split.
    + apply list.Forall_forall. intros ev Hev.
      apply (shown_onEmptyKind s en c ev HI HP). unfold showCurrent in Hev.
      unfold showVisited. destruct (displayed c); [|done].
      apply list_elem_of_singleton in Hev as ->. apply elem_of_cons. by left.
    + unfold pathEvents. apply list.Forall_forall. intros ev Hev.
      apply list_elem_of_fmap in Hev as (ci & -> & Hci).
      apply list_elem_of_lookup in Hci as [i Hi].
      apply lookup_take_Some in Hi as [Hi Hlt]. rewrite lookup_drop in Hi.
      destruct (Hidx _ _ Hi) as (Hb & Hst & Hen).
      destruct (trail_cells _ _ _ _ Htr (coordOf ci)) as (c0 & Hc0 & Hw).
      { apply list_elem_of_fmap. exists ci. split; [done|].
        by eapply list_elem_of_lookup_2. }
      exists c0. cbn. split; [done|]. destruct (Hmarks _ _ Hc0) as [Hs He].
      destruct (persistentType_cases (type c0)) as [E|[E|[E|E]]]; [done|done|..].
      * specialize (Hs E). injection Hs as Hs. symmetry in Hs. apply Hst in Hs. lia.
      * specialize (He E). injection He as He. symmetry in He. apply Hen in He. lia.
  - intros s cur c d s' (HI & _) HP Hd Hne Hco HStep _ run Hrun. cbn.
    apply Forall_app. split; [|done]. apply list.Forall_forall. intros ev Hev.
    by apply (shown_onEmptyKind s cur c ev HI HP).
Qed.
End Kinds.

Lemma tick_setType_kind t p g g' :
  persistentType t = TEmpty ->
  (exists c, cellAt (clearedGrid g) p = Some c /\ type c = TEmpty) ->
  setType t p g = Ok g' -> clearedGrid g' = clearedGrid g.
Proof.
  intros Ht (c & Hc & Hty) [-> _]%setType_inv. apply clearedGrid_updCell.
  intros c0 Hc0. rewrite clearedGrid_lookup, Hc0 in Hc. injection Hc as <-.
  cbn in Hty. unfold clearedCell. cbn. by rewrite Ht, Hty.
Qed.

Lemma applyUpdates_kinds us : forall s,
  Forall (keepsKinds (clearedGrid (grid s))) us ->
  exists s', applyUpdates us s = Ok s' /\ clearedGrid (grid s') = clearedGrid (grid s).
Proof.
  induction us as [|u us IH]; intros s Hall; cbn [applyUpdates].
  { by exists s. }
  apply list.Forall_cons in Hall as [Hu Hall].
  assert (exists s1, applyUpdate u s = Ok s1 /\
                     clearedGrid (grid s1) = clearedGrid (grid s)) as (s1 & -> & Hg).
  { destruct u as [ev|k|k|b]; cbn [applyUpdate]; try by eexists.
    destruct Hu as (c & Hc & Hk). rewrite clearedGrid_lookup in Hc.
    destruct (cellAt (grid s) (eventType ev).2) as [c0|] eqn:Hc0; [|done].
    rewrite (setType_Ok _ _ _ _ Hc0). cbn [mbind Result_bind bindR].
    eexists. split; [done|]. cbn [grid].
    apply (tick_setType_kind (eventType ev).1 (eventType ev).2 (grid s)).
    - by destruct ev.
    - exists (clearedCell c0). rewrite clearedGrid_lookup, Hc0. split; [done|].
      injection Hc as <-. cbn in *. by rewrite persistentType_idem in Hk.
    - by apply (setType_Ok _ _ _ c0). }
  cbn [mbind Result_bind bindR]. destruct (IH s1) as (s' & Hs' & Hg'); [by rewrite Hg|].
  exists s'. split; [done|]. congruence.
Qed.

(** While the pending display updates land on cells of empty kind, the
    timers leave the cleared form of the grid as it is, however many of
    them fire. *)
Lemma ticks_kinds n : forall s,
  Forall (Forall (keepsKinds (clearedGrid (grid s)))) (pending s) ->
  exists s', ticks n s = Ok s' /\ clearedGrid (grid s') = clearedGrid (grid s) /\
             startCell s' = startCell s /\ endCell s' = endCell s /\
             drawMode s' = drawMode s /\ pending s' = drop n (pending s).
Proof.
  induction n as [|n IH]; intros s Hall.
  { exists s. by rewrite drop_0. }
  cbn [ticks]. destruct (pending s) as [|us rest] eqn:Hpen.
  - unfold tick. rewrite Hpen. cbn [mbind Result_bind bindR].
    destruct (IH s) as (s' & Ht & H); [by rewrite Hpen|].
    exists s'. rewrite Ht. rewrite Hpen, drop_nil in H. by rewrite drop_nil.
  - apply list.Forall_cons in Hall as [Hus Hall]. rewrite (tick_batch _ _ _ Hpen).
    destruct (applyUpdates_kinds us s Hus) as (s1 & Hs1 & Hg). rewrite Hs1.
    destruct (applyUpdates_frame _ _ _ Hs1) as (Hd & Hs & He & _).
    cbn [fmap Result_fmap mbind Result_bind bindR].
    destruct (IH (with_pending rest s1)) as (s' & Ht & H).
    { cbn [with_pending grid pending]. by rewrite Hg. }
    cbn [with_pending grid pending startCell endCell drawMode] in H.
    destruct H as (H1 & H2 & H3 & H4 & H5).
    exists s'. rewrite Ht. split; [done|]. split_and!; [congruence..|exact H5].
Qed.

(** X9.  A search reads only the kinds of the cells: two grids that are
    the same once display types and search fields are dropped give the
    same run. *)
Theorem search_reads_kinds_only (g g' : Grid) (st en : Coord) :
  clearedGrid g = clearedGrid g' -> search g st en = search g' st en.
Proof.
  intros E. by rewrite <- (search_cleared g), <- (search_cleared g'), E.
Qed.

Lemma search_reads_kinds_only_witness :
  search (updCell (with_type TVisited) (3, 4) initialGrid) defaultStart defaultEnd =
  search initialGrid defaultStart defaultEnd.
Proof.
  apply (search_reads_kinds_only (updCell (with_type TVisited) (3, 4) initialGrid)
           initialGrid defaultStart defaultEnd).
  vm_compute. reflexivity.
Defined.

(** X10.  With start and end set, "Find Path" gives the same state
    whether or not "Clear Path" was pressed first. *)
Theorem find_path_after_clear_path (s : Session) :
  is_Some (startCell s) -> is_Some (endCell s) ->
  dijkstra (clearPath s) = dijkstra s.
Proof.
  intros [st Hst] [en Hen]. unfold clearPath. destruct (isRunning s) eqn:Hrun; [done|].
  unfold dijkstra. cbn [startCell endCell grid drawMode]. rewrite Hst, Hen.
  by rewrite clearedGrid_idem, search_cleared.
Qed.

Lemma find_path_after_clear_path_witness :
  dijkstra (clearPath initialSession) = dijkstra initialSession.
Proof.
  apply (find_path_after_clear_path initialSession); vm_compute; eexists; reflexivity.
Defined.

Lemma onEmptyKind_cleared g ev : onEmptyKind g ev -> onEmptyKind (clearedGrid g) ev.
Proof.
  intros (c & Hc & Hk). exists (clearedCell c). rewrite clearedGrid_lookup, Hc.
  split; [done|]. cbn. by rewrite persistentType_idem.
Qed.

Lemma marksAt_lookup g st en :
  Forall (Forall (fun c => (type c = TStart -> st = Some (coordOf c)) /\
                           (type c = TEnd -> en = Some (coordOf c)))) g ->
  wellFormed g -> marksAt g st en.
Proof.
  intros Hall Hwf p c Hc. destruct (wellFormed_Some _ _ _ Hwf Hc) as [_ <-].
  apply cellAt_Some in Hc as (_ & _ & cells & Hrow & Hcell).
  rewrite list.Forall_forall in Hall. apply list_elem_of_lookup_2 in Hrow, Hcell.
  pose proof (Hall _ Hrow) as Hcells. rewrite list.Forall_forall in Hcells.
  by apply Hcells.
Qed.

Lemma marksAt_initialGrid : marksAt initialGrid (Some defaultStart) (Some defaultEnd).
Proof.
  apply marksAt_lookup; [|apply wellFormed_initialGrid].
  apply (bool_decide_unpack _). vm_compute. exact I.
Qed.

(** X11.  A run never changes a wall, the start or the end.  Started
    where the start and end types sit only at the recorded start and end,
    it throws at no timer, and after any number of timers the grid has
    the cleared form it had before: what "Clear Path" then shows is the
    grid as it was, without the marks of earlier runs. *)
Theorem run_keeps_walls_start_and_end (s : Session) (st en : Coord) :
  wellFormed (grid s) ->
  startCell s = Some st -> endCell s = Some en -> inBounds st = true ->
  marksAt (grid s) (Some st) (Some en) ->
  exists s1, dijkstra s = Ok s1 /\
    forall n, exists s', ticks n s1 = Ok s' /\
      clearedGrid (grid s') = clearedGrid (grid s) /\
      startCell s' = Some st /\ endCell s' = Some en.
Proof.
  intros Hwf Hst Hen Hb Hmarks.
  destruct (search_Sound (grid s) st en Hwf) as (s0 & HS & _ & _ & Hsearch).
  destruct (whileLoop_onEmptyKind (grid s) st en Hwf Hmarks
              (S (length (unvisitedNodes s0))) s0 HS) as (run & Hrun & Hev); [lia|].
  rewrite <- Hsearch in Hrun.
  destruct (search_script (grid s) st en Hwf) as (run' & Hrun' & _ & Hren & _).
  rewrite Hrun in Hrun'. injection Hrun' as <-.
  rewrite (dijkstra_unfold s st en run Hwf Hst Hen Hb Hrun).
  assert (clearedGrid (updCell (with_distance (Finite 0)) st (clearedGrid (grid s)))
          = clearedGrid (grid s)) as Hg.
  { rewrite clearedGrid_updCell; [apply clearedGrid_idem|done]. }
  assert (Forall (keepsKinds (clearedGrid (grid s)))
            (updatesOf (script run ++ afterLoop (runExit run)))) as Hall.
  { rewrite updatesOf_app. apply Forall_app. split.
    - rewrite <- Hren in Hev. apply rendersOf_Forall in Hev.
      eapply list.Forall_impl; [exact Hev|]. intros [ev|k|k|b]; try done.
      cbn. apply onEmptyKind_cleared.
    - by destruct (runExit run); repeat constructor. }
  apply splitAwait_Forall in Hall as [Hnow Hlater].
  match goal with |- context [applyUpdates ?us ?s0] =>
    destruct (applyUpdates_kinds us s0) as (s1 & Hs1 & Hg1) end.
  { cbn [grid]. by rewrite Hg. }
  cbn [grid] in Hg1. rewrite Hg in Hg1.
  destruct (applyUpdates_frame _ _ _ Hs1) as (_ & Hs & He & Hp).
  cbn [startCell endCell pending] in Hs, He, Hp.
  exists s1. split; [exact Hs1|]. intros n.
  destruct (ticks_kinds n s1) as (s' & Ht & H1 & H2 & H3 & _).
  { by rewrite Hg1, Hp. }
  exists s'. rewrite H1, H2, H3, Hg1, Hs, He. done.
Qed.

Lemma run_keeps_walls_start_and_end_witness :
  exists s1, dijkstra initialSession = Ok s1 /\
    forall n, exists s', ticks n s1 = Ok s' /\
      clearedGrid (grid s') = clearedGrid (grid initialSession) /\
      startCell s' = Some defaultStart /\ endCell s' = Some defaultEnd.
Proof.
  apply (run_keeps_walls_start_and_end initialSession defaultStart defaultEnd).
  - vm_compute. reflexivity.
  - reflexivity.
  - reflexivity.
  - reflexivity.
  - exact marksAt_initialGrid.
Defined.

(** ** What every state of the component satisfies *)

Lemma Stable_initialSession : Stable initialSession.
Proof.
  constructor; cbn.
  - apply wellFormed_initialGrid.
  - by exists defaultStart.
  - by exists defaultEnd.
  - apply marksAt_initialGrid.
  - done.
Qed.

Lemma initializeGrid_Ok s :
  initializeGrid s =
  Ok (mkSession initialGrid (isRunning s) (drawMode s) (Some defaultStart)
        (Some defaultEnd) None 0%nat (pending s)).
Proof.
  unfold initializeGrid.
  assert (setType TStart defaultStart emptyGrid =
          Ok (updCell (with_type TStart) defaultStart emptyGrid)) as ->
    by (vm_compute; reflexivity).
  cbn [mbind Result_bind bindR].
  assert (setType TEnd defaultEnd (updCell (with_type TStart) defaultStart emptyGrid) =
          Ok initialGrid) as -> by (vm_compute; reflexivity).
  done.
Qed.

Lemma marksAt_updCell_start g st en p :
  marksAt g st en -> marksAt (updCell (with_type TStart) p
                                (match st with
                                 | Some p0 => updCell (with_type TEmpty) p0 g
                                 | None => g
                                 end)) (Some p) en.
Proof.
  intros Hm q c. rewrite cellAt_updCell. destruct (decide (p = q)) as [<-|Hne].
  { destruct (cellAt _ p) as [c'|]; [|done]. intros [= <-]. by cbn. }
  destruct st as [p0|].
  - rewrite cellAt_updCell. destruct (decide (p0 = q)) as [<-|Hne0].
    + destruct (cellAt g p0) as [c'|]; [|done]. intros [= <-]. by cbn.
    + intros Hc. destruct (Hm _ _ Hc) as [Hs He]. split; [|done].
      intros E. specialize (Hs E). congruence.
  - intros Hc. destruct (Hm _ _ Hc) as [Hs He]. split; [|done].
    intros E. by specialize (Hs E).
Qed.

Lemma marksAt_updCell_end g st en p :
  marksAt g st en -> marksAt (updCell (with_type TEnd) p
                                (match en with
                                 | Some p0 => updCell (with_type TEmpty) p0 g
                                 | None => g
                                 end)) st (Some p).
Proof.
  intros Hm q c. rewrite cellAt_updCell. destruct (decide (p = q)) as [<-|Hne].
  { destruct (cellAt _ p) as [c'|]; [|done]. intros [= <-]. by cbn. }
  destruct en as [p0|].
  - rewrite cellAt_updCell. destruct (decide (p0 = q)) as [<-|Hne0].
    + destruct (cellAt g p0) as [c'|]; [|done]. intros [= <-]. by cbn.
    + intros Hc. destruct (Hm _ _ Hc) as [Hs He]. split; [done|].
      intros E. specialize (He E). congruence.
  - intros Hc. destruct (Hm _ _ Hc) as [Hs He]. split; [done|].
    intros E. by specialize (He E).
Qed.

Lemma marksAt_updCell_other g st en p t :
  t <> TStart -> t <> TEnd ->
  marksAt g st en -> marksAt (updCell (with_type t) p g) st en.
Proof.
  intros H1 H2 Hm q c. rewrite cellAt_updCell. destruct (decide (p = q)) as [<-|Hne].
  - destruct (cellAt g p) as [c'|]; [|done]. intros [= <-]. by cbn.
  - apply Hm.
Qed.

Lemma handleCellClick_Stable s r c :
  Stable s -> inBounds (r, c) = true ->
  exists s', handleCellClick s r c = Ok s' /\ Stable s'.
Proof.
  intros [Hwf (p0 & Hst & Hb0) (p1 & Hen & Hb1) Hm Hpen] Hb. unfold handleCellClick.
  destruct (isRunning s) eqn:Hrun.
  { exists s. split; [done|]. constructor; eauto. by rewrite Hrun. }
  destruct (wellFormed_inBounds _ _ Hwf Hb) as (cell & Hcell & _). rewrite Hcell.
  cbn [ofOption mbind Result_bind bindR].
  destruct (drawMode s) eqn:Hmode.
  - eexists. split; [done|]. constructor; cbn; eauto.
    + destruct (type cell); try done; by apply wellFormed_updCell.
    + destruct (type cell); try done; by apply marksAt_updCell_other.
  - rewrite Hst. cbn [clearPrevious].
    destruct (wellFormed_inBounds _ _ Hwf Hb0) as (c0 & Hc0 & _).
    rewrite (setType_Ok _ _ _ _ Hc0). cbn [mbind Result_bind bindR].
    assert (is_Some (cellAt (updCell (with_type TEmpty) p0 (grid s)) (r, c))) as [c1 Hc1].
    { rewrite cellAt_updCell, Hcell. destruct (decide (p0 = (r, c))); by eexists. }
    rewrite (setType_Ok _ _ _ _ Hc1). cbn [mbind Result_bind bindR].
    eexists. split; [done|]. constructor; cbn; eauto.
    + by repeat apply wellFormed_updCell.
    + pose proof (marksAt_updCell_start _ _ _ (r, c) Hm) as H. by rewrite Hst in H.
  - rewrite Hen. cbn [clearPrevious].
    destruct (wellFormed_inBounds _ _ Hwf Hb1) as (c0 & Hc0 & _).
    rewrite (setType_Ok _ _ _ _ Hc0). cbn [mbind Result_bind bindR].
    assert (is_Some (cellAt (updCell (with_type TEmpty) p1 (grid s)) (r, c))) as [c1 Hc1].
    { rewrite cellAt_updCell, Hcell. destruct (decide (p1 = (r, c))); by eexists. }
    rewrite (setType_Ok _ _ _ _ Hc1). cbn [mbind Result_bind bindR].
    eexists. split; [done|]. constructor; cbn; eauto.
    + by repeat apply wellFormed_updCell.
    + pose proof (marksAt_updCell_end _ _ _ (r, c) Hm) as H. by rewrite Hen in H.
Qed.

Lemma selectDrawMode_Stable m s : Stable s -> Stable (selectDrawMode m s).
Proof.
  intros HS. unfold selectDrawMode. destruct (isRunning s) eqn:Hrun; [done|].
  destruct HS as [Hwf Hst Hen Hm Hpen]. by constructor; cbn; eauto.
Qed.

Lemma marksAt_cleared g st en : marksAt g st en -> marksAt (clearedGrid g) st en.
Proof.
  intros Hm p c. rewrite clearedGrid_lookup.
  destruct (cellAt g p) as [c0|] eqn:Hc0; [|done]. intros [= <-]. cbn.
  destruct (Hm _ _ Hc0) as [Hs He].
  split; intros E; [apply Hs|apply He]; by destruct (type c0).
Qed.

Lemma clearPath_Stable s : Stable s -> Stable (clearPath s).
Proof.
  intros HS. unfold clearPath. destruct (isRunning s) eqn:Hrun; [done|].
  destruct HS as [Hwf Hst Hen Hm Hpen]. constructor; cbn; eauto.
  - by apply wellFormed_fmap.
  - by apply marksAt_cleared.
  - by rewrite Hrun in *.
Qed.

Lemma resetGrid_Stable s :
  Stable s -> exists s', resetGrid s = Ok s' /\ Stable s'.
Proof.
  intros HS. unfold resetGrid. destruct (isRunning s) eqn:Hrun; [by exists s|].
  rewrite initializeGrid_Ok. eexists. split; [done|]. cbn.
  constructor; cbn.
  - apply wellFormed_initialGrid.
  - by exists defaultStart.
  - by exists defaultEnd.
  - apply marksAt_initialGrid.
  - done.
Qed.

(** The setter calls of a run keep the grid well formed and the start
    and end types where they are. *)
Lemma applyUpdates_marks us : forall s,
  wellFormed (grid s) -> marksAt (grid s) (startCell s) (endCell s) ->
  Forall inGrid us ->
  exists s', applyUpdates us s = Ok s' /\ wellFormed (grid s') /\
             marksAt (grid s') (startCell s') (endCell s') /\
             startCell s' = startCell s /\ endCell s' = endCell s /\
             pending s' = pending s.
Proof.
  induction us as [|u us IH]; intros s Hwf Hm Hall; cbn [applyUpdates].
  { by exists s. }
  apply list.Forall_cons in Hall as [Hu Hall].
  assert (exists s1, applyUpdate u s = Ok s1 /\ wellFormed (grid s1) /\
                     marksAt (grid s1) (startCell s1) (endCell s1) /\
                     startCell s1 = startCell s /\ endCell s1 = endCell s /\
                     pending s1 = pending s) as (s1 & -> & Hwf1 & Hm1 & Hs1 & He1 & Hp1).
  { destruct u as [ev|k|k|b]; cbn [applyUpdate]; try by eexists.
    destruct (wellFormed_inBounds _ _ Hwf Hu) as (c & Hc & _).
    rewrite (setType_Ok _ _ _ _ Hc). cbn [mbind Result_bind bindR].
    eexists. split; [done|]. cbn [grid startCell endCell pending]. split_and!; try done.
    - by apply wellFormed_updCell.
    - apply marksAt_updCell_other; [by destruct ev..|done]. }
  cbn [mbind Result_bind bindR].
  destruct (IH s1 Hwf1 Hm1 Hall) as (s' & Hs' & Hwf' & Hm' & Hs & He & Hp).
  exists s'. split_and!; try done; congruence.
Qed.

Lemma applyUpdates_stops us s s' :
  applyUpdates (us ++ [SetIsRunning false]) s = Ok s' -> isRunning s' = false.
Proof.
  rewrite applyUpdates_app. intros (s1 & _ & H)%bindR_Ok. cbn in H. by injection H as <-.
Qed.

(** Started with the steps of a run that ends on [setIsRunning(false)]
    and makes that call nowhere else, the component stays stable. *)
Lemma start_Stable steps pre s0 :
  steps = pre ++ [Do (SetIsRunning false)] ->
  Forall keepsRunning (updatesOf pre) ->
  Forall inGrid (updatesOf steps) ->
  wellFormed (grid s0) -> marksAt (grid s0) (startCell s0) (endCell s0) ->
  (exists p, startCell s0 = Some p /\ inBounds p = true) ->
  (exists p, endCell s0 = Some p /\ inBounds p = true) ->
  isRunning s0 = true -> pending s0 = (splitAwait steps).2 ->
  exists s', applyUpdates (splitAwait steps).1 s0 = Ok s' /\ Stable s'.
Proof.
  intros -> Hquiet Hin Hwf Hm Hst Hen Hrun Hpen.
  destruct (splitAwait_Forall _ _ Hin) as [Hnow Hlater].
  destruct (applyUpdates_marks _ s0 Hwf Hm Hnow) as (s' & Hs' & Hwf' & Hm' & Hs & He & Hp).
  exists s'. split; [exact Hs'|]. rewrite Hpen in Hp.
  destruct (splitAwait (pre ++ [Do (SetIsRunning false)])) as [now later] eqn:E.
  cbn [fst snd] in *.
  destruct (splitAwait_last _ _ _ _ E) as [[-> ->]|(batches & final & -> & Hup)].
  - constructor; [done|by rewrite Hs|by rewrite He|done|].
    rewrite (applyUpdates_stops _ _ _ Hs'). done.
  - rewrite Hup in Hquiet. apply Forall_app in Hquiet as [Hqn Hq].
    apply Forall_app in Hq as [Hqb Hqf].
    constructor; [done|by rewrite Hs|by rewrite He|done|].
    rewrite (applyUpdates_keepsRunning _ _ _ Hqn Hs'), Hrun.
    exists batches, final. rewrite Hp. split_and!; try done.
    apply list.Forall_forall. intros us Hus. apply list.Forall_forall. intros u Hu.
    rewrite list.Forall_forall in Hqb. apply Hqb. apply list_elem_of_In, in_concat.
    exists us. by rewrite <- !list_elem_of_In.
Qed.

Lemma clickFindPath_Stable s :
  Stable s -> exists s', clickFindPath s = Ok s' /\ Stable s'.
Proof.
  intros HS. unfold clickFindPath. destruct (findPathDisabled s) eqn:Hdis; [by exists s|].
  destruct HS as [Hwf (st & Hst & Hb0) (en & Hen & Hb1) Hm Hpen].
  destruct (search_script (grid s) st en Hwf)
    as (run & Hrun & Hin & _ & (pre & Hpre & Hquiet) & _).
  rewrite (dijkstra_unfold s st en run Hwf Hst Hen Hb0 Hrun).
  apply (start_Stable _ pre); try done.
  - rewrite updatesOf_app. apply Forall_app. split; [done|].
    by destruct (runExit run); repeat constructor.
  - cbn. apply wellFormed_updCell; [done|]. by apply wellFormed_fmap.
  - cbn. intros p c1. rewrite cellAt_updCell.
    assert (marksAt (clearedGrid (grid s)) (Some st) (Some en)) as Hm'.
    { apply marksAt_cleared. by rewrite <- Hst, <- Hen. }
    destruct (decide (st = p)) as [<-|Hne]; [|apply Hm'].
    destruct (cellAt (clearedGrid (grid s)) st) as [c1'|] eqn:Hc1; [|done].
    intros [= <-]. cbn. by apply Hm'.
  - by exists st.
  - by exists en.
Qed.

Lemma tick_Stable s : Stable s -> exists s', tick s = Ok s' /\ Stable s'.
Proof.
  intros [Hwf Hst Hen Hm Hpen].
  destruct (isRunning s) eqn:Hrun.
  2: { unfold tick. rewrite Hpen. exists s. split; [done|]. constructor; eauto.
       by rewrite Hrun. }
  destruct Hpen as (batches & final & Hpen & Hqb & Hqf & Hin).
  destruct batches as [|b bs]; cbn [app] in Hpen.
  - rewrite (tick_batch _ _ _ Hpen). rewrite Hpen in Hin.
    apply list.Forall_cons in Hin as [Hin _].
    destruct (applyUpdates_marks _ s Hwf Hm Hin) as (s' & Hs' & Hwf' & Hm' & Hs & He & _).
    rewrite Hs'. cbn [fmap Result_fmap mbind Result_bind bindR].
    eexists. split; [done|].
    constructor; cbn [with_pending grid isRunning startCell endCell pending];
      [done|by rewrite Hs|by rewrite He|exact Hm'|].
    by rewrite (applyUpdates_stops _ _ _ Hs').
  - rewrite (tick_batch _ _ _ Hpen). rewrite Hpen in Hin.
    apply list.Forall_cons in Hin as [Hinb Hin].
    apply list.Forall_cons in Hqb as [Hqb Hqbs].
    destruct (applyUpdates_marks _ s Hwf Hm Hinb) as (s' & Hs' & Hwf' & Hm' & Hs & He & _).
    rewrite Hs'. cbn [fmap Result_fmap mbind Result_bind bindR].
    eexists. split; [done|].
    constructor; cbn [with_pending grid isRunning startCell endCell pending];
      [done|by rewrite Hs|by rewrite He|exact Hm'|].
    rewrite (applyUpdates_keepsRunning _ _ _ Hqb Hs'), Hrun. by exists bs, final.
Qed.

Lemma handle_Stable ev pg :
  Stable (session pg) -> overGrid ev ->
  exists pg', handle ev pg = Ok pg' /\ Stable (session pg').
Proof.
  intros HS Hev. destruct ev as [r c|r c| |m| | | |]; cbn [handle overGrid] in *.
  - unfold handleMouseDown.
    destruct (handleCellClick_Stable _ r c HS Hev) as (s' & -> & HS').
    cbn. by eexists.
  - unfold handleMouseEnter.
    destruct (isDrawing pg && bool_decide (drawMode (session pg) = ModeWall));
      [|by exists pg].
    destruct (handleCellClick_Stable _ r c HS Hev) as (s' & -> & HS').
    cbn. by eexists.
  - by eexists.
  - unfold onSession. cbn. eexists. split; [done|]. by apply selectDrawMode_Stable.
  - unfold onSession. destruct (clickFindPath_Stable _ HS) as (s' & -> & HS').
    cbn. by eexists.
  - unfold onSession. cbn. eexists. split; [done|]. by apply clearPath_Stable.
  - unfold onSession. destruct (resetGrid_Stable _ HS) as (s' & -> & HS').
    cbn. by eexists.
  - unfold onSession. destruct (tick_Stable _ HS) as (s' & -> & HS').
    cbn. by eexists.
Qed.

(** X12.  Whatever the user does over the grid and with the buttons, and
    whenever the timers of a run fire, no handler throws and the state
    stays well formed: the grid keeps its size and each cell its
    position, start and end positions are recorded and inside the grid,
    no cell but the recorded start has type start and none but the
    recorded end has type end, and timers are pending exactly while a
    run is in progress. *)
Theorem events_keep_component_stable (evs : list Event) (pg : Page) :
  Stable (session pg) -> Forall overGrid evs ->
  exists pg', handleAll evs pg = Ok pg' /\ Stable (session pg').
Proof.
  revert pg. induction evs as [|ev evs IH]; intros pg HS Hall; cbn [handleAll].
  { by exists pg. }
  apply list.Forall_cons in Hall as [Hev Hall].
  destruct (handle_Stable ev pg HS Hev) as (pg1 & -> & HS1).
  cbn [mbind Result_bind bindR]. by apply IH.
Qed.

Lemma events_keep_component_stable_witness :
  exists pg',
    handleAll [ClickMode ModeStart; MouseDown 12 40; ClickMode ModeWall;
               MouseDown 3 3; MouseEnter 3 4; MouseUp; ClickFindPath;
               TimerFires; ClickResetGrid; TimerFires] initialPage = Ok pg' /\
    Stable (session pg').
Proof.
  apply (events_keep_component_stable _ initialPage).
  - exact Stable_initialSession.
  - repeat constructor.
Defined.

(** ** Start and end cells *)

Lemma concat_positions : concat positions = allPositions.
Proof. vm_compute. reflexivity. Qed.

Lemma wellFormed_concat g : wellFormed g -> coordOf <$> concat g = allPositions.
Proof.
  intros Hwf. rewrite <- concat_positions, <- Hwf. clear Hwf.
  induction g as [|cells g IH]; [done|]. cbn. by rewrite fmap_app, IH.
Qed.

Lemma elem_of_concat_cellAt g c :
  wellFormed g -> c ∈ concat g -> cellAt g (coordOf c) = Some c.
Proof.
  intros Hwf Hc. apply list_elem_of_In, in_concat in Hc as (cells & Hcells & Hc).
  apply list_elem_of_In in Hcells, Hc.
  apply list_elem_of_lookup in Hcells as [i Hi]. apply list_elem_of_lookup in Hc as [j Hj].
  assert (cellAt g (Z.of_nat i, Z.of_nat j) = Some c) as H.
  { apply cellAt_Some. cbn. split_and!; [lia..|]. exists cells. by rewrite !Nat2Z.id. }
  destruct (wellFormed_Some _ _ _ Hwf H) as [_ ->]. done.
Qed.

Lemma NoDup_constant {A} (a : A) (l : list A) :
  NoDup l -> (forall x, x ∈ l -> x = a) -> (length l <= 1)%nat.
Proof.
  intros Hnd Hall. destruct l as [|x [|y l]]; cbn; [lia..|]. exfalso.
  assert (x = a) as -> by (apply Hall; left).
  assert (y = a) as -> by (apply Hall; right; left).
  apply list.NoDup_cons in Hnd as [Hnotin _]. apply Hnotin. left.
Qed.

Lemma countType_marked g t (o : option Coord) :
  wellFormed g ->
  (forall p c, cellAt g p = Some c -> type c = t -> o = Some p) ->
  (countType t g <= 1)%nat.
Proof.
  intros Hwf Hm. unfold countType.
  rewrite <- (length_fmap coordOf).
  destruct o as [a|].
  - apply (NoDup_constant a).
    + eapply sublist_NoDup; [|apply fmap_sublist, sublist_filter].
      rewrite wellFormed_concat by done. apply NoDup_allPositions.
    + intros p (c & -> & Hc)%list_elem_of_fmap.
      apply list_elem_of_filter in Hc as [Hty Hc].
      pose proof (Hm _ _ (elem_of_concat_cellAt _ _ Hwf Hc) Hty). congruence.
  - destruct (filter _ _) as [|c l] eqn:E; [cbn; lia|]. exfalso.
    assert (c ∈ filter (fun c => type c = t) (concat g)) as Hc by (rewrite E; left).
    apply list_elem_of_filter in Hc as [Hty Hc].
    by pose proof (Hm _ _ (elem_of_concat_cellAt _ _ Hwf Hc) Hty).
Qed.

(** X13.  In every state of the component the grid holds at most one
    cell of type start and at most one of type end, and such a cell sits
    at the recorded position. *)
Theorem at_most_one_start_and_end (s : Session) :
  Stable s ->
  (countType TStart (grid s) <= 1)%nat /\ (countType TEnd (grid s) <= 1)%nat /\
  (forall p, typeAt (grid s) p = Some TStart -> startCell s = Some p) /\
  (forall p, typeAt (grid s) p = Some TEnd -> endCell s = Some p).
Proof.
  intros [Hwf _ _ Hm _]. split_and!.
  - apply (countType_marked _ _ (startCell s) Hwf). intros p c Hc. by apply Hm.
  - apply (countType_marked _ _ (endCell s) Hwf). intros p c Hc. by apply Hm.
  - intros p. unfold typeAt. destruct (cellAt (grid s) p) as [c|] eqn:Hc; [|done].
    intros [= E]. by apply (Hm _ _ Hc).
  - intros p. unfold typeAt. destruct (cellAt (grid s) p) as [c|] eqn:Hc; [|done].
    intros [= E]. by apply (Hm _ _ Hc).
Qed.

Lemma at_most_one_start_and_end_witness :
  (countType TStart (grid initialSession) <= 1)%nat /\
  (countType TEnd (grid initialSession) <= 1)%nat /\
  (forall p, typeAt (grid initialSession) p = Some TStart ->
             startCell initialSession = Some p) /\
  (forall p, typeAt (grid initialSession) p = Some TEnd ->
             endCell initialSession = Some p).
Proof.
  apply (at_most_one_start_and_end initialSession). exact Stable_initialSession.
Defined.

Lemma start_click s p :
  Stable s -> isRunning s = false -> drawMode s = ModeStart -> inBounds p = true ->
  exists s', handleCellClick s p.1 p.2 = Ok s' /\
    startCell s' = Some p /\ endCell s' = endCell s /\
    (forall q, typeAt (grid s') q = Some TStart <-> q = p) /\
    (forall q, startCell s = Some q -> q <> p -> typeAt (grid s') q = Some TEmpty) /\
    (forall q, q <> p -> startCell s <> Some q -> cellAt (grid s') q = cellAt (grid s) q).
Proof.
  intros [Hwf (p0 & Hst & Hb0) _ Hm _] Hrun Hmode Hb. unfold handleCellClick.
  rewrite Hrun, Hmode, Hst. destruct p as [r c]. cbn [fst snd].
  destruct (wellFormed_inBounds _ _ Hwf Hb) as (cell & Hcell & _). rewrite Hcell.
  cbn [ofOption mbind Result_bind bindR clearPrevious].
  destruct (wellFormed_inBounds _ _ Hwf Hb0) as (c0 & Hc0 & _).
  rewrite (setType_Ok _ _ _ _ Hc0). cbn [mbind Result_bind bindR].
  assert (is_Some (cellAt (updCell (with_type TEmpty) p0 (grid s)) (r, c))) as [c1 Hc1].
  { rewrite cellAt_updCell, Hcell. destruct (decide (p0 = (r, c))); by eexists. }
  rewrite (setType_Ok _ _ _ _ Hc1). cbn [mbind Result_bind bindR].
  eexists. split; [done|]. cbn [grid startCell endCell]. split_and!; try done.
  - intros q. unfold typeAt. split.
    + destruct (cellAt _ q) as [cq|] eqn:Hq; [|done]. intros [= E].
      pose proof (marksAt_updCell_start _ _ _ (r, c) Hm) as H. rewrite Hst in H.
      destruct (H _ _ Hq) as [Hs _]. specialize (Hs E). congruence.
    + intros ->. by rewrite cellAt_updCell_eq, Hc1.
  - intros q Hq Hne. assert (q = p0) as -> by congruence. unfold typeAt.
    rewrite cellAt_updCell_ne by done. by rewrite cellAt_updCell_eq, Hc0.
  - intros q Hne Hne0. rewrite cellAt_updCell_ne by done.
    rewrite cellAt_updCell_ne by congruence. done.
Qed.

Lemma end_click s p :
  Stable s -> isRunning s = false -> drawMode s = ModeEnd -> inBounds p = true ->
  exists s', handleCellClick s p.1 p.2 = Ok s' /\
    endCell s' = Some p /\ startCell s' = startCell s /\
    (forall q, typeAt (grid s') q = Some TEnd <-> q = p) /\
    (forall q, endCell s = Some q -> q <> p -> typeAt (grid s') q = Some TEmpty) /\
    (forall q, q <> p -> endCell s <> Some q -> cellAt (grid s') q = cellAt (grid s) q).
Proof.
  intros [Hwf _ (p0 & Hen & Hb0) Hm _] Hrun Hmode Hb. unfold handleCellClick.
  rewrite Hrun, Hmode, Hen. destruct p as [r c]. cbn [fst snd].
  destruct (wellFormed_inBounds _ _ Hwf Hb) as (cell & Hcell & _). rewrite Hcell.
  cbn [ofOption mbind Result_bind bindR clearPrevious].
  destruct (wellFormed_inBounds _ _ Hwf Hb0) as (c0 & Hc0 & _).
  rewrite (setType_Ok _ _ _ _ Hc0). cbn [mbind Result_bind bindR].
  assert (is_Some (cellAt (updCell (with_type TEmpty) p0 (grid s)) (r, c))) as [c1 Hc1].
  { rewrite cellAt_updCell, Hcell. destruct (decide (p0 = (r, c))); by eexists. }
  rewrite (setType_Ok _ _ _ _ Hc1). cbn [mbind Result_bind bindR].
  eexists. split; [done|]. cbn [grid startCell endCell]. split_and!; try done.
  - intros q. unfold typeAt. split.
    + destruct (cellAt _ q) as [cq|] eqn:Hq; [|done]. intros [= E].
      pose proof (marksAt_updCell_end _ _ _ (r, c) Hm) as H. rewrite Hen in H.
      destruct (H _ _ Hq) as [_ He]. specialize (He E). congruence.
    + intros ->. by rewrite cellAt_updCell_eq, Hc1.
  - intros q Hq Hne. assert (q = p0) as -> by congruence. unfold typeAt.
    rewrite cellAt_updCell_ne by done. by rewrite cellAt_updCell_eq, Hc0.
  - intros q Hne Hne0. rewrite cellAt_updCell_ne by done.
    rewrite cellAt_updCell_ne by congruence. done.
Qed.

(** X14.  Outside a run, a start-mode click on a cell of the grid makes
    that cell the one cell of type start and records it; the cell that
    held the start before becomes empty, the recorded end stays, and no
    other cell changes.  An end-mode click does the same for the end. *)
Theorem mark_click_moves_mark (s : Session) (p : Coord) :
  Stable s -> isRunning s = false -> inBounds p = true ->
  (drawMode s = ModeStart ->
   exists s', handleCellClick s p.1 p.2 = Ok s' /\
     startCell s' = Some p /\ endCell s' = endCell s /\
     (forall q, typeAt (grid s') q = Some TStart <-> q = p) /\
     (forall q, startCell s = Some q -> q <> p -> typeAt (grid s') q = Some TEmpty) /\
     (forall q, q <> p -> startCell s <> Some q ->
                cellAt (grid s') q = cellAt (grid s) q)) /\
  (drawMode s = ModeEnd ->
   exists s', handleCellClick s p.1 p.2 = Ok s' /\
     endCell s' = Some p /\ startCell s' = startCell s /\
     (forall q, typeAt (grid s') q = Some TEnd <-> q = p) /\
     (forall q, endCell s = Some q -> q <> p -> typeAt (grid s') q = Some TEmpty) /\
     (forall q, q <> p -> endCell s <> Some q ->
                cellAt (grid s') q = cellAt (grid s) q)).
Proof.
  intros HS Hrun Hb. split; intros Hmode.
  - by apply start_click.
  - by apply end_click.
Qed.

Lemma mark_click_moves_mark_witness :
  exists s', handleCellClick (setDrawMode ModeStart initialSession) 3 7 = Ok s' /\
    startCell s' = Some (3, 7) /\ endCell s' = Some defaultEnd /\
    (forall q, typeAt (grid s') q = Some TStart <-> q = (3, 7)).
Proof.
  destruct (mark_click_moves_mark (setDrawMode ModeStart initialSession) (3, 7))
    as [H _].
  - apply (selectDrawMode_Stable ModeStart initialSession). exact Stable_initialSession.
  - reflexivity.
  - reflexivity.
  - destruct (H eq_refl) as (s' & H1 & H2 & H3 & H4 & _). exists s'.
    exact (conj H1 (conj H2 (conj H3 H4))).
Defined.

(** ** Drawing walls with the mouse *)

Lemma updCell_ext f f' p g :
  (forall c, cellAt g p = Some c -> f c = f' c) -> updCell f p g = updCell f' p g.
Proof.
  intros Hf. apply grid_ext.
  - by rewrite !updCell_length.
  - intros i r1 r2 H1 H2.
    destruct (g !! i) as [r0|] eqn:E.
    + rewrite (updCell_row_length _ _ _ _ _ _ H1 E).
      by rewrite (updCell_row_length _ _ _ _ _ _ H2 E).
    + apply lookup_ge_None in E. apply lookup_lt_Some in H1.
      rewrite updCell_length in H1. lia.
  - intros q. rewrite !cellAt_updCell. destruct (decide (p = q)) as [<-|]; [|done].
    destruct (cellAt g p) as [c|] eqn:Hc; [|done]. cbn. f_equal. by apply Hf.
Qed.

Lemma toggleWall_involutive c : toggleWall (toggleWall c) = c.
Proof. destruct c as [r c t d p v]. by destruct t. Qed.

Lemma wall_click_toggles s p :
  isRunning s = false -> drawMode s = ModeWall -> is_Some (cellAt (grid s) p) ->
  handleCellClick s p.1 p.2 =
  Ok (mkSession (updCell toggleWall p (grid s)) false ModeWall (startCell s) (endCell s)
        (pathLength s) (visitedCount s) (pending s)).
Proof.
  intros Hrun Hmode [cell Hcell]. unfold handleCellClick. rewrite Hrun, Hmode.
  destruct p as [r c]. cbn [fst snd]. rewrite Hcell.
  cbn [ofOption mbind Result_bind bindR]. do 2 f_equal.
  destruct (type cell) eqn:Ht.
  1,2: apply updCell_ext; intros c0 Hc0; rewrite Hcell in Hc0; injection Hc0 as <-;
       unfold toggleWall; by rewrite Ht.
  all: symmetry; apply updCell_id; intros c0 Hc0; rewrite Hcell in Hc0;
       injection Hc0 as <-; unfold toggleWall; by rewrite Ht.
Qed.

Lemma enterAll_toggles ps : forall pg,
  isDrawing pg = true ->
  isRunning (session pg) = false -> drawMode (session pg) = ModeWall ->
  Forall (fun q => is_Some (cellAt (grid (session pg)) q)) ps ->
  exists pg', enterAll ps pg = Ok pg' /\
    isDrawing pg' = true /\
    startCell (session pg') = startCell (session pg) /\
    endCell (session pg') = endCell (session pg) /\
    forall q, cellAt (grid (session pg')) q =
              Nat.iter (occurrences q ps) toggleWall <$> cellAt (grid (session pg)) q.
Proof.
  induction ps as [|p ps IH]; intros pg Hdraw Hrun Hmode Hall; cbn [enterAll].
  { exists pg. split_and!; try done. intros q. cbn. by destruct (cellAt _ q). }
  apply list.Forall_cons in Hall as [Hp Hall].
  unfold handleMouseEnter. rewrite Hdraw, Hmode, bool_decide_eq_true_2 by done.
  cbn [andb]. rewrite (wall_click_toggles _ p Hrun Hmode Hp).
  cbn [mbind Result_bind bindR].
  match goal with |- context [enterAll ps ?pg1] =>
    destruct (IH pg1) as (pg' & -> & Hd & Hs & He & Hcells) end; try done.
  { cbn. eapply list.Forall_impl; [exact Hall|]. intros q [cq Hq]. cbn.
    rewrite cellAt_updCell, Hq. destruct (decide (p = q)); by eexists. }
  exists pg'. split_and!; try done. intros q. rewrite Hcells. cbn [session grid].
  rewrite cellAt_updCell. unfold occurrences.
  destruct (decide (p = q)) as [->|Hne].
  - rewrite filter_cons_True by done. cbn [length].
    destruct (cellAt (grid (session pg)) q) as [cq|]; [|done]. cbn.
    f_equal. by rewrite <- Nat.iter_succ_r.
  - by rewrite filter_cons_False by done.
Qed.

Lemma iter_toggleWall n c :
  Nat.iter n toggleWall c = if Nat.odd n then toggleWall c else c.
Proof.
  induction n as [|n IH]; [done|]. rewrite Nat.iter_succ, IH, Nat.odd_succ.
  rewrite <- Nat.negb_odd. destruct (Nat.odd n); cbn; [apply toggleWall_involutive|done].
Qed.

(** X15.  A stroke in wall mode, outside a run: the button goes down
    over a cell, the pointer enters cells of the grid in turn, the button
    goes up.  A cell that the stroke met an odd number of times has
    toggled between empty and wall, if it was one of the two; every other
    cell is as before, and so are the recorded start and end.  Drawing is
    off afterwards. *)
Theorem wall_stroke_toggles_by_parity (pg : Page) (p : Coord) (ps : list Coord) :
  isRunning (session pg) = false -> drawMode (session pg) = ModeWall ->
  wellFormed (grid (session pg)) ->
  Forall (fun q => inBounds q = true) (p :: ps) ->
  exists pg', stroke pg p ps = Ok pg' /\
    isDrawing pg' = false /\
    startCell (session pg') = startCell (session pg) /\
    endCell (session pg') = endCell (session pg) /\
    forall q, cellAt (grid (session pg')) q =
              (fun c => if Nat.odd (occurrences q (p :: ps)) then toggleWall c else c)
                <$> cellAt (grid (session pg)) q.
Proof.
  intros Hrun Hmode Hwf Hall.
  assert (Forall (fun q => is_Some (cellAt (grid (session pg)) q)) (p :: ps)) as Hall'.
  { eapply list.Forall_impl; [exact Hall|]. intros q Hq. cbn in Hq.
    destruct (wellFormed_inBounds _ _ Hwf Hq) as (c & -> & _). by eexists. }
  destruct (enterAll_toggles (p :: ps) (mkPage (session pg) true))
    as (pg2 & Hrun2 & Hd & Hs & He & Hcells); try done.
  unfold stroke, handleMouseDown. cbn [enterAll] in Hrun2.
  unfold handleMouseEnter in Hrun2. cbn [isDrawing session andb] in Hrun2.
  rewrite Hmode, bool_decide_eq_true_2 in Hrun2 by done.
  destruct (handleCellClick (session pg) p.1 p.2) as [s1| |]; [|done..].
  cbn [mbind Result_bind bindR] in *. rewrite Hrun2. cbn [mbind Result_bind bindR].
  eexists. split; [done|]. cbn. split_and!; try done.
  intros q. rewrite Hcells. cbn. destruct (cellAt _ q) as [cq|]; [|done]. cbn.
  f_equal. apply iter_toggleWall.
Qed.

Lemma wall_stroke_toggles_by_parity_witness :
  exists pg', stroke initialPage (3, 3) [(3, 4); (3, 5); (3, 4)] = Ok pg' /\
    isDrawing pg' = false /\
    startCell (session pg') = startCell (session initialPage) /\
    endCell (session pg') = endCell (session initialPage) /\
    forall q, cellAt (grid (session pg')) q =
              (fun c => if Nat.odd (occurrences q [(3, 3); (3, 4); (3, 5); (3, 4)])
                        then toggleWall c else c)
                <$> cellAt (grid (session initialPage)) q.
Proof.
  apply (wall_stroke_toggles_by_parity initialPage (3, 3) [(3, 4); (3, 5); (3, 4)]).
  - reflexivity.
  - reflexivity.
  - vm_compute. reflexivity.
  - repeat constructor.
Defined.

(** ** [clearPath] and [resetGrid] *)

(** X16.  After "Clear Path" a wall-mode click turns every cell of empty
    kind into a wall, the cells an earlier run had marked included. *)
Theorem clear_path_restores_wall_paint (s : Session) (p : Coord) :
  wallToggles (clearPath s) p.
Proof.
  intros cell Hrun Hcell Hk. destruct p as [r c]. cbn [fst snd].
  rewrite (wall_click _ _ _ _ Hrun Hcell).
  assert (isRunning s = false) as Hrun0.
  { unfold clearPath in Hrun. destruct (isRunning s) eqn:E; [|done].
    cbn in Hrun. congruence. }
  unfold clearPath in Hcell. rewrite Hrun0 in Hcell. cbn [grid] in Hcell.
  rewrite clearedGrid_lookup in Hcell.
  destruct (cellAt (grid s) (r, c)) as [c0|] eqn:Hc0; [|done]. injection Hcell as <-.
  cbn in Hk. rewrite persistentType_idem in Hk.
  eexists. split; [done|]. cbn [grid type clearedCell]. rewrite Hk. unfold typeAt.
  rewrite cellAt_updCell_eq. unfold clearPath. rewrite Hrun0. cbn [grid].
  by rewrite clearedGrid_lookup, Hc0.
Qed.

Lemma exploredSession_path_cell :
  match exploredSession with
  | Ok s => bool_decide (isRunning s = false) &&
            bool_decide (typeAt (grid s) (12, 11) = Some TPath)
  | _ => false
  end = true.
Proof. vm_compute. reflexivity. Qed.

Lemma clear_path_restores_wall_paint_witness :
  exists s s',
    exploredSession = Ok s /\ typeAt (grid s) (12, 11) = Some TPath /\
    paint (clearPath s) 12 11 ModeWall = Ok s' /\
    persistentType <$> typeAt (grid s') (12, 11) = Some TWall.
Proof.
  pose proof exploredSession_path_cell as H.
  destruct exploredSession as [s| |]; [|discriminate..].
  apply andb_true_iff in H as [Hrun Hty]. apply bool_decide_eq_true in Hrun, Hty.
  pose proof Hty as Hty'. unfold typeAt in Hty'.
  destruct (cellAt (grid s) (12, 11)) as [cell|] eqn:Hc; [|discriminate].
  injection Hty' as Hcell.
  destruct (clear_path_restores_wall_paint s (12, 11) (clearedCell cell))
    as (s' & Hp & Hw).
  - unfold clearPath. rewrite Hrun. reflexivity.
  - unfold clearPath. rewrite Hrun. cbn [grid]. rewrite clearedGrid_lookup, Hc.
    reflexivity.
  - cbn. rewrite Hcell. reflexivity.
  - exists s, s'. exact (conj eq_refl (conj Hty (conj Hp Hw))).
Defined.

(** X17.  Outside a run "Reset Grid" never throws and gives the state
    after mount (the default start and end on an otherwise empty grid, no
    path length, no visited count, nothing pending), except that the draw
    mode stays as selected. *)
Theorem reset_restores_mount_state (s : Session) :
  isRunning s = false ->
  resetGrid s = Ok (setDrawMode (drawMode s) initialSession).
Proof.
  intros Hrun. unfold resetGrid. rewrite Hrun, initializeGrid_Ok. done.
Qed.

Lemma reset_restores_mount_state_witness :
  resetGrid barrierSession = Ok (setDrawMode (drawMode barrierSession) initialSession).
Proof. apply (reset_restores_mount_state barrierSession). reflexivity. Defined.

(** ** [getNeighbors] *)

Lemma manhattan_one p q :
  manhattan p q = 1%nat <-> exists d, d ∈ directions /\ q = offsetBy p d.
Proof.
  destruct p as [pr pc], q as [qr qc]. unfold manhattan, offsetBy, directions.
  cbn [fst snd]. split.
  - intros H.
    assert ((qr = pr - 1 /\ qc = pc) \/ (qr = pr /\ qc = pc + 1) \/
            (qr = pr + 1 /\ qc = pc) \/ (qr = pr /\ qc = pc - 1))
      as [[-> ->]|[[-> ->]|[[-> ->]|[-> ->]]]] by lia.
    + exists (-1, 0). split; [repeat constructor|]. cbn. f_equal; lia.
    + exists (0, 1). split; [repeat constructor|]. cbn. f_equal; lia.
    + exists (1, 0). split; [repeat constructor|]. cbn. f_equal; lia.
    + exists (0, -1). split; [repeat constructor|]. cbn. f_equal; lia.
  - intros (d & Hd & E).
    repeat (apply elem_of_cons in Hd as [->|Hd]); [..|by apply elem_of_nil in Hd];
      cbn in E; injection E as -> ->; lia.
Qed.

(** X18.  On a well-formed grid [getNeighbors] never throws, for a cell
    at any coordinates, and returns without repetition exactly the
    positions of the grid at Manhattan distance one from the cell. *)
Theorem neighbors_at_distance_one (cell : Cell) (g : Grid) :
  wellFormed g ->
  exists ns, getNeighbors cell g = Ok ns /\ NoDup ns /\
    forall q, q ∈ ns <-> inBounds q = true /\ manhattan (coordOf cell) q = 1%nat.
Proof.
  intros Hwf. unfold getNeighbors. rewrite (collectNeighbors_wellFormed _ _ _ _ Hwf).
  eexists. split; [done|]. split.
  - apply list.NoDup_filter. apply NoDup_fmap_2_strong;
      [|by apply (bool_decide_unpack _); vm_compute].
    intros [a1 a2] [b1 b2] _ _. unfold offsetBy. cbn. intros [= H1 H2]. f_equal; lia.
  - intros q. rewrite manhattan_one. apply elem_of_neighborsOf.
Qed.

Lemma neighbors_at_distance_one_witness :
  exists ns, getNeighbors (freshCell 0 49) initialGrid = Ok ns /\ NoDup ns /\
    forall q, q ∈ ns <->
              inBounds q = true /\ manhattan (coordOf (freshCell 0 49)) q = 1%nat.
Proof.
  apply (neighbors_at_distance_one (freshCell 0 49) initialGrid).
  vm_compute. reflexivity.
Defined.

(** ** A run inside the component *)

(** X19.  In any state of the component, "Find Path" and the timers it
    sets leave the component idle with nothing pending, and the path
    length it then shows is the length of a shortest walk from the
    recorded start to the recorded end over non-wall cells; none is shown
    exactly when there is no such walk. *)
Theorem find_path_shows_shortest_length (s : Session) (st en : Coord) :
  Stable s -> startCell s = Some st -> endCell s = Some en ->
  exists s1 s2,
    dijkstra s = Ok s1 /\ ticks (length (pending s1)) s1 = Ok s2 /\
    isRunning s2 = false /\ pending s2 = [] /\
    (forall d, pathLength s2 = Some d <->
               walk (grid s) st en d /\ forall m, walk (grid s) st en m -> (d <= m)%nat) /\
    (pathLength s2 = None <-> ~ reachable (grid s) st en).
Proof.
  intros [Hwf (st' & Hst' & Hb) _ _ _] Hst Hen.
  assert (st' = st) as -> by congruence.
  destruct (dijkstra_reports_run s st en Hwf Hst Hen Hb)
    as (run & s1 & s2 & Hrun & Hd & _ & Ht & Hidle & Hpen & Hlen & _).
  destruct (search_shortest (grid s) st en Hwf) as (run' & Hrun' & Hsome & Hnone).
  rewrite Hrun in Hrun'. injection Hrun' as <-.
  exists s1, s2. rewrite Hlen.
  refine (conj Hd (conj Ht (conj Hidle (conj Hpen (conj _ _))))).
  - intros d. split.
    + intros E. destruct (Hsome d E) as (_ & Hw & Hmin). by split.
    + intros [Hw Hmin]. destruct (runPathLength run) as [d'|] eqn:E.
      * destruct (Hsome d' eq_refl) as (_ & Hw' & Hmin').
        pose proof (Hmin _ Hw'). pose proof (Hmin' _ Hw). f_equal. lia.
      * destruct (Hnone eq_refl) as [_ Hno]. by destruct (Hno d).
  - split.
    + intros E [m Hm]%reachable_walk. destruct (Hnone E) as [_ Hno]. by apply (Hno m).
    + intros Hno. destruct (runPathLength run) as [d|] eqn:E; [|done].
      destruct (Hsome d eq_refl) as (_ & Hw & _). exfalso. apply Hno.
      by eapply walk_reachable.
Qed.

Lemma Stable_barrierSession : Stable barrierSession.
Proof.
  constructor.
  - change (wellFormed barrierGrid). vm_compute. reflexivity.
  - exists defaultStart. split; reflexivity.
  - exists defaultEnd. split; reflexivity.
  - change (marksAt barrierGrid (Some defaultStart) (Some defaultEnd)).
    apply marksAt_lookup; [|vm_compute; reflexivity].
    apply (bool_decide_unpack _). vm_compute. exact I.
  - reflexivity.
Qed.

Lemma find_path_shows_shortest_length_witness :
  exists s1 s2,
    dijkstra barrierSession = Ok s1 /\ ticks (length (pending s1)) s1 = Ok s2 /\
    isRunning s2 = false /\ pending s2 = [] /\
    (forall d, pathLength s2 = Some d <->
               walk (grid barrierSession) defaultStart defaultEnd d /\
               forall m, walk (grid barrierSession) defaultStart defaultEnd m ->
                         (d <= m)%nat) /\
    (pathLength s2 = None <-> ~ reachable (grid barrierSession) defaultStart defaultEnd).
Proof.
  apply (find_path_shows_shortest_length barrierSession defaultStart defaultEnd).
  - exact Stable_barrierSession.
  - reflexivity.
  - reflexivity.
Defined.






(** ** The comparator of the sort, and the class of a cell *)

(** X21.  The comparator handed to [sort] is consistent, with
    [Infinity - Infinity], which is [NaN], read as a tie: it makes every
    node equal to itself, swapping the arguments swaps the outcome, not
    being greater is transitive, and a tie means equal distances. *)
Theorem compareFn_consistent :
  (forall a, compareFn a a = Eq) /\
  (forall a b, compareFn b a = CompOpp (compareFn a b)) /\
  (forall a b c, compareFn a b <> Gt -> compareFn b c <> Gt -> compareFn a c <> Gt) /\
  (forall a b, compareFn a b = Eq <-> distance a = distance b).
Proof.
  unfold compareFn. split_and!.
  - intros a. destruct (distance a); [apply Nat.compare_refl|done].
  - intros a b. destruct (distance a), (distance b); cbn; try done.
    apply Nat.compare_antisym.
  - intros a b c. destruct (distance a), (distance b), (distance c); try done.
    rewrite !Nat.compare_gt_iff. lia.
  - intros a b. destruct (distance a), (distance b); try done.
    rewrite Nat.compare_eq_iff. split; congruence.
Qed.

(** X22.  The class name of a cell is decided by its type alone, and
    cells of different types get different class names. *)
Theorem getCellClassName_by_type (c1 c2 : Cell) :
  getCellClassName c1 = getCellClassName c2 <-> type c1 = type c2.
Proof.
  unfold getCellClassName. split; [|by intros ->].
  destruct (type c1), (type c2); cbn; first [done | discriminate].
Qed.
